(** * TransactionQueue: a shallow embedding of the transaction queue service

    The queue serialises blockchain writes (game-result logs and NFT
    mints) behind one signer.  This development embeds the class
    [TransactionQueue] -- its validation functions, [enqueue], the
    asynchronous [process] loop with [processTransaction], [getStatus],
    [getStats], the nonce counter and [calculateRetryDelay] -- and states
    the properties of the queue over that embedding.

    JavaScript values are a small inductive type (no functions); numbers
    are exact rationals extended with NaN and the two infinities: binary
    rounding of doubles is not modelled.  Dates are integers.

    The asynchronous [process] is a transition system with one transition
    per synchronous segment of the code: from a call, a timer or the
    settling of an awaited promise to the next [await] that waits for the
    signer or for a submission.  The [await]s that only pass through the
    microtask queue (the return of [processTransaction] into the loop)
    are inside a segment.  A segment reads the clock once.  The console
    is part of the state: the lines the code writes are the trace the
    ordering properties are stated on.  The field [provider], which the
    queue only hands on to the submission services, is left out, and so
    are the services themselves: a submission is a promise that settles
    with a result or with an error message.

    Two callers of the queue are embedded as well: the functions of
    [explorerUrls.js], and the handlers POST and GET of the route
    [/api/log-game], each as one segment on the state of the queue. *)

From Stdlib Require Import List String Ascii Bool Arith ZArith QArith Qround Lia.
Import ListNotations.

Local Open Scope Z_scope.

(** ** JavaScript values *)

Module JS.

Inductive Number : Type :=
| NaN
| Inf (negative : bool)
| Fin (q : Q).

#[warnings="-register-all"]
Inductive Val : Type :=
| Undefined
| Null
| Bool (b : bool)
| Num (n : Number)
| Str (s : string)
| Arr (items : list Val)
| Obj (fields : list (string * Val)).

(** [!v] is [negb (truthy v)]: the falsy values are undefined, null,
    false, 0, NaN and the empty string. *)
Definition truthy (v : Val) : bool :=
  match v with
  | Undefined | Null => false
  | Bool b => b
  | Num NaN => false
  | Num (Inf _) => true
  | Num (Fin q) => negb (Qeq_bool q 0)
  | Str s => negb (String.eqb s "")
  | Arr _ | Obj _ => true
  end.

(** [typeof v]. *)
Definition typeof (v : Val) : string :=
  match v with
  | Undefined => "undefined"
  | Null | Arr _ | Obj _ => "object"
  | Bool _ => "boolean"
  | Num _ => "number"
  | Str _ => "string"
  end.

Fixpoint lookup (k : string) (fields : list (string * Val)) : Val :=
  match fields with
  | [] => Undefined
  | (k', v) :: rest => if String.eqb k k' then v else lookup k rest
  end.

(** [v[k]] for the property names the queue reads ([type], [data],
    [playerAddress], [name], ...): an own property of an object, and
    undefined on every other value that admits property access. *)
Definition get (v : Val) (k : string) : Val :=
  match v with
  | Obj fields => lookup k fields
  | _ => Undefined
  end.

(** [v === undefined || v === null]. *)
Definition nullish (v : Val) : bool :=
  match v with
  | Undefined | Null => true
  | _ => false
  end.

(** [typeof v === 'number' && v < 0]: a comparison with NaN is false. *)
Definition negative_number (v : Val) : bool :=
  match v with
  | Num (Inf true) => true
  | Num (Fin q) => negb (Qle_bool 0 q)
  | _ => false
  end.

(** [ToNumber] on the values a counter slot of [getStats] can hold. *)
Definition to_number (v : Val) : Number :=
  match v with
  | Num n => n
  | Bool true => Fin 1
  | Bool false | Null => Fin 0
  | Str _ | Undefined | Arr _ | Obj _ => NaN
  end.

(** [v++] stores [ToNumber(v) + 1]. *)
Definition incr (v : Val) : Val :=
  match to_number v with
  | Fin q => Num (Fin (q + 1))
  | n => Num n
  end.

(** What a call hands to its caller: an exception with its message, or
    a value. *)
Inductive Completion (A : Type) : Type :=
| Throws (msg : string)
| Returns (a : A).

(** A promise that has settled: rejected with an error of message [msg],
    or fulfilled. *)
Inductive Promise (A : Type) : Type :=
| Rejected (msg : string)
| Fulfilled (a : A).

Arguments Throws {A} msg.
Arguments Returns {A} a.
Arguments Rejected {A} msg.
Arguments Fulfilled {A} a.

(** The call of a function declared [async] whose body runs to its end
    without suspending, [body] being how the body ends ([inl msg]: it
    throws).  The call never throws: it returns a promise, rejected with
    what the body threw or fulfilled with what it returned. *)
Definition async {A : Type} (body : string + A) : Completion (Promise A) :=
  Returns (match body with
           | inl msg => Rejected msg
           | inr a => Fulfilled a
           end).

End JS.

Module TransactionQueue.

Import JS.

(** ** Data model *)

Inductive Status : Type := PENDING | PROCESSING | COMPLETED | FAILED.

(** The two admitted values of [transaction.type]. *)
Inductive TxType : Type := LOG | NFT.

Definition Status_eqb (a b : Status) : bool :=
  match a, b with
  | PENDING, PENDING | PROCESSING, PROCESSING
  | COMPLETED, COMPLETED | FAILED, FAILED => true
  | _, _ => false
  end.

(** The object built by [enqueue] and mutated by [processTransaction]. *)
Record Tx : Type := mkTx {
  id : string;
  type : TxType;
  data : Val;
  status : Status;
  retryCount : nat;
  createdAt : Z;
  lastAttempt : option Z;
  error : option string;
  result : option Val
}.

(** Constructor defaults. *)
Definition maxRetries : nat := 3.
Definition baseDelay : Z := 1000.
Definition maxDelay : Z := 30000.

(** ** Validation *)

Section Validation.

(** [ethers.isAddress], a function of the ethers library. *)
Variable isAddress : Val -> bool.

(** String conversion of a template literal, [`${v}`]. *)
Variable toString : Val -> string.

(** [['LOG', 'NFT'].includes(v)], with the member found. *)
Definition parse_type (v : Val) : option TxType :=
  match v with
  | Str s => if String.eqb s "LOG" then Some LOG
             else if String.eqb s "NFT" then Some NFT
             else None
  | _ => None
  end.

(** The first field of [required] that is undefined or null in [d]. *)
Fixpoint first_nullish (d : Val) (required : list string) : option string :=
  match required with
  | [] => None
  | f :: rest => if nullish (get d f) then Some f else first_nullish d rest
  end.

(** The first field of [required] that is falsy in [m]. *)
Fixpoint first_falsy (m : Val) (required : list string) : option string :=
  match required with
  | [] => None
  | f :: rest => if truthy (get m f) then first_falsy m rest else Some f
  end.

(** [validateLogTransaction(data)]: [Some msg] when it throws [Error(msg)]. *)
Definition validateLogTransaction (d : Val) : option string :=
  match first_nullish d ["gameType"; "playerAddress"; "betAmount"; "payout"; "result"]%string with
  | Some f => Some ("Log transaction missing required field: " ++ f)%string
  | None =>
    if negb (isAddress (get d "playerAddress")) then
      Some "Invalid player address in log transaction"%string
    else if negb (String.eqb (typeof (get d "betAmount")) "number")
            || negative_number (get d "betAmount") then
      Some "Invalid bet amount in log transaction"%string
    else if negb (String.eqb (typeof (get d "payout")) "number")
            || negative_number (get d "payout") then
      Some "Invalid payout amount in log transaction"%string
    else None
  end.

(** [validateNFTTransaction(data)]. *)
Definition validateNFTTransaction (d : Val) : option string :=
  if negb (truthy (get d "playerAddress")) || negb (isAddress (get d "playerAddress")) then
    Some "Invalid player address in NFT transaction"%string
  else if negb (truthy (get d "metadata"))
          || negb (String.eqb (typeof (get d "metadata")) "object") then
    Some "Invalid metadata in NFT transaction"%string
  else
    match first_falsy (get d "metadata") ["name"; "description"; "attributes"]%string with
    | Some f => Some ("NFT metadata missing required field: " ++ f)%string
    | None => None
    end.

(** [validateTransaction(transaction)]: [inl msg] when it throws
    [Error(msg)], [inr ty] when it returns, [ty] being the admitted value
    of [transaction.type]. *)
Definition validateTransaction (transaction : Val) : string + TxType :=
  if negb (truthy transaction) then inl "Transaction is required"%string
  else if negb (truthy (get transaction "type")) then
    inl "Transaction type is required"%string
  else
    match parse_type (get transaction "type") with
    | None => inl ("Invalid transaction type: " ++ toString (get transaction "type"))%string
    | Some ty =>
      if negb (truthy (get transaction "data")) then
        inl "Transaction data is required"%string
      else
        match ty with
        | LOG =>
          match validateLogTransaction (get transaction "data") with
          | Some msg => inl msg
          | None => inr LOG
          end
        | NFT =>
          match validateNFTTransaction (get transaction "data") with
          | Some msg => inl msg
          | None => inr NFT
          end
        end
    end.

(** ** Queue state *)

(** What one synchronous segment reads from its environment: the clock
    ([new Date()]) and one draw of [Math.random()]. *)
Record Env : Type := mkEnv {
  now : Z;
  random : Q
}.

(** The lines written to the console. *)
Inductive LogEntry : Type :=
| LogInitialized
| LogQueued (i : string) (ty : TxType)
| LogQueueSize (n : nat)
| LogEnqueueFailed (msg : string)
| LogAlreadyInProgress
| LogQueueEmpty
| LogNoSigner
| LogStarting
| LogRemoved (i : string) (st : Status)
| LogProcessingFailed (msg : string)
| LogStopped
| LogScheduling (delay : Z)
| LogProcessingTx (i : string) (ty : TxType)
| LogCompleted (i : string)
| LogFailed (i : string) (msg : string)
| LogWillRetry (i : string) (attempt max : nat)
| LogPermanentlyFailed (i : string)
| LogNonceInitialized (n : Z)
| LogNonceInitFailed (msg : string)
| LogUsingNonce (n next : Z)
| LogSignerUpdated
| LogClearedCompleted (n : nat)
| LogClearedAll (n : nat).

(** Where the one activation of the asynchronous [process] stands: not
    running, suspended at [await this.signer.getNonce()], suspended at the
    [await] of a submission, or caught in a [while] iteration that neither
    awaits nor changes the queue. *)
Inductive PC : Type := Idle | AwaitNonce | AwaitSubmit | Spinning.

(** The fields of the instance, with the program point of [process], the
    pending [setTimeout] callbacks (by delay) and the console. *)
Record State : Type := mkState {
  signer : option string;
  queue : list Tx;
  processing : bool;
  currentNonce : option Z;
  pc : PC;
  timers : list Z;
  console : list LogEntry
}.

(** [new TransactionQueue(provider, signer)]. *)
Definition new (sg : option string) : State :=
  mkState sg [] false None Idle [] [LogInitialized].

Definition log (e : LogEntry) (s : State) : State :=
  mkState (signer s) (queue s) (processing s) (currentNonce s) (pc s)
          (timers s) (console s ++ [e]).

Definition set_queue (q : list Tx) (s : State) : State :=
  mkState (signer s) q (processing s) (currentNonce s) (pc s)
          (timers s) (console s).

Definition set_processing (b : bool) (s : State) : State :=
  mkState (signer s) (queue s) b (currentNonce s) (pc s)
          (timers s) (console s).

Definition set_currentNonce (n : option Z) (s : State) : State :=
  mkState (signer s) (queue s) (processing s) n (pc s)
          (timers s) (console s).

Definition set_pc (p : PC) (s : State) : State :=
  mkState (signer s) (queue s) (processing s) (currentNonce s) p
          (timers s) (console s).

Definition set_timers (t : list Z) (s : State) : State :=
  mkState (signer s) (queue s) (processing s) (currentNonce s) (pc s)
          t (console s).

(** [setProviderAndSigner(provider, signer)]. *)
Definition setProviderAndSigner (sg : option string) (s : State) : State :=
  log LogSignerUpdated
      (mkState sg (queue s) (processing s) (currentNonce s) (pc s)
               (timers s) (console s)).

(** ** Retry delay *)

(** [calculateRetryDelay(retryCount)], [rnd] being the draw of
    [Math.random()].  The arithmetic is exact: the two products and the
    sum of the code are doubles, each rounded before the floor. *)
Definition calculateRetryDelay (retryCount : nat) (rnd : Q) : Z :=
  let delay := Z.min (baseDelay * 2 ^ Z.of_nat retryCount) maxDelay in
  let jitter := (rnd * (1 # 10) * inject_Z delay)%Q in
  Qfloor (inject_Z delay + jitter)%Q.

(** ** The processing loop *)

(** The predicate of [this.queue.find(...)] in the [finally] block. *)
Definition retryable (tx : Tx) : bool :=
  match status tx with
  | PENDING => true
  | FAILED => retryCount tx <? maxRetries
  | _ => false
  end%nat.

(** The removal test of the loop: completed or permanently failed. *)
Definition removable (tx : Tx) : bool :=
  match status tx with
  | COMPLETED => true
  | FAILED => maxRetries <=? retryCount tx
  | _ => false
  end%nat.

(** The [finally] block of [process]. *)
Definition process_finally (env : Env) (s : State) : State :=
  let s1 := log LogStopped (set_pc Idle (set_processing false s)) in
  match queue s1 with
  | [] => s1
  | _ :: _ =>
    match find retryable (queue s1) with
    | Some tx =>
      let delay := calculateRetryDelay (retryCount tx) (random env) in
      set_timers (timers s1 ++ [delay]) (log (LogScheduling delay) s1)
    | None => s1
    end
  end.

(** The first statements of [processTransaction], up to the [await] of the
    submission. *)
Definition begin_transaction (env : Env) (tx : Tx) : Tx :=
  mkTx (id tx) (type tx) (data tx) PROCESSING (retryCount tx)
       (createdAt tx) (Some (now env)) (error tx) (result tx).

(** The [while] loop of [process] from the top of an iteration, [q] being
    [this.queue], up to the next [await] or to the end of the [finally]
    block.  The switch of [processTransaction] has no default case here:
    [type] is one of the two admitted values. *)
Fixpoint process_while (env : Env) (q : list Tx) (s : State) : State :=
  match q with
  | [] => process_finally env (set_queue [] s)
  | tx :: rest =>
    match status tx with
    | PENDING | FAILED =>
      set_pc AwaitSubmit
        (set_queue (begin_transaction env tx :: rest)
           (log (LogProcessingTx (id tx) (type tx)) s))
    | COMPLETED =>
      process_while env rest (log (LogRemoved (id tx) COMPLETED) (set_queue rest s))
    | PROCESSING => set_pc Spinning (set_queue q s)
    end
  end.

(** [processTransaction] after its [await]: the [try] continues on
    [inr r], the [catch] runs on [inl msg]. *)
Definition settle (r : string + Val) (tx : Tx) : Tx :=
  match r with
  | inr v =>
    mkTx (id tx) (type tx) (data tx) COMPLETED (retryCount tx)
         (createdAt tx) (lastAttempt tx) None (Some v)
  | inl msg =>
    mkTx (id tx) (type tx) (data tx) FAILED (S (retryCount tx))
         (createdAt tx) (lastAttempt tx) (Some msg) (result tx)
  end.

Definition settle_log (r : string + Val) (tx : Tx) : list LogEntry :=
  match r with
  | inr _ => [LogCompleted (id tx)]
  | inl msg =>
    [LogFailed (id tx) msg;
     if (S (retryCount tx) <? maxRetries)%nat
     then LogWillRetry (id tx) (S (retryCount tx) + 1) maxRetries
     else LogPermanentlyFailed (id tx)]
  end.

(** The submission of the head transaction settles.  ([step] runs it on a
    non-empty queue only.) *)
Definition resolve_submission (r : string + Val) (s : State) : State :=
  match queue s with
  | [] => s
  | tx :: rest =>
    fold_left (fun st e => log e st) (settle_log r tx)
              (set_queue (settle r tx :: rest) s)
  end.

(** The rest of the loop body after [await this.processTransaction(...)],
    and on through the loop; [tx] is the transaction just processed, the
    head of the queue. *)
Definition after_transaction (env : Env) (s : State) : State :=
  match queue s with
  | [] => process_while env [] s
  | tx :: rest =>
    if removable tx then
      process_while env rest (log (LogRemoved (id tx) (status tx)) (set_queue rest s))
    else
      match status tx with
      | FAILED => process_finally env s
      | _ => process_while env (queue s) s
      end
  end.

(** [process()] from its call to its first [await]. *)
Definition process (env : Env) (s : State) : State :=
  if processing s then log LogAlreadyInProgress s
  else
    match queue s with
    | [] => log LogQueueEmpty s
    | _ :: _ =>
      match signer s with
      | None => log LogNoSigner s
      | Some _ =>
        let s1 := log LogStarting (set_processing true s) in
        match currentNonce s1 with
        | None => set_pc AwaitNonce s1
        | Some _ => process_while env (queue s1) s1
        end
      end
    end.

(** [await this.signer.getNonce()] settles inside [initializeNonce]. *)
Definition nonce_resolved (env : Env) (r : string + Z) (s : State) : State :=
  match r with
  | inr n =>
    let s1 := log (LogNonceInitialized n) (set_currentNonce (Some n) s) in
    process_while env (queue s1) s1
  | inl msg =>
    process_finally env (log (LogProcessingFailed msg) (log (LogNonceInitFailed msg) s))
  end.

(** [getNextNonce()]: [None] when it throws.  The counter is an integer:
    [this.currentNonce++] on the double of the code is this increment as
    long as its result is at most 2^53. *)
Definition getNextNonce (s : State) : option (Z * State) :=
  match currentNonce s with
  | None => None
  | Some n => Some (n, log (LogUsingNonce n (n + 1)) (set_currentNonce (Some (n + 1)) s))
  end.

(** [enqueue(transaction)], [uuid] being the value of [uuidv4()]: the new
    state, and [inl msg] when the promise rejects with [Error(msg)],
    [inr id] when it resolves. *)
Definition enqueue (env : Env) (transaction : Val) (uuid : string) (s : State)
  : State * (string + string) :=
  match validateTransaction transaction with
  | inl msg => (log (LogEnqueueFailed msg) s, inl msg)
  | inr ty =>
    let queuedTransaction :=
      mkTx uuid ty (get transaction "data") PENDING 0 (now env) None None None in
    let s1 := set_queue (queue s ++ [queuedTransaction]) s in
    let s2 := log (LogQueueSize (List.length (queue s1))) (log (LogQueued uuid ty) s1) in
    (if processing s2 then s2 else process env s2, inr uuid)
  end.

(** The call [enqueue(transaction)] as its caller sees it: the method is
    declared [async], and its body does not suspend. *)
Definition enqueue_call (env : Env) (transaction : Val) (uuid : string) (s : State)
  : State * Completion (Promise string) :=
  (fst (enqueue env transaction uuid s), async (snd (enqueue env transaction uuid s))).

(** ** Queries *)

(** The object returned by [getStatus]. *)
Record TxStatus : Type := mkTxStatus {
  st_id : string;
  st_type : TxType;
  st_status : Status;
  st_retryCount : nat;
  st_createdAt : Z;
  st_lastAttempt : option Z;
  st_error : option string;
  st_result : option Val
}.

(** [getStatus(id)]: [None] is [null]. *)
Definition getStatus (i : string) (s : State) : option TxStatus :=
  match find (fun tx => String.eqb (id tx) i) (queue s) with
  | None => None
  | Some tx =>
    Some (mkTxStatus (id tx) (type tx) (status tx) (retryCount tx)
                     (createdAt tx) (lastAttempt tx) (error tx) (result tx))
  end.

(** The object returned by [getStats].  Its literal names the key
    [processing] twice, so the object has one [processing] property,
    initialised by the later of the two: [this.processing]. *)
Record Stats : Type := mkStats {
  total : nat;
  pending : nat;
  stats_processing : Val;
  completed : nat;
  failed : nat
}.

(** [stats[tx.status.toLowerCase()]++]. *)
Definition count_status (st : Stats) (tx : Tx) : Stats :=
  match status tx with
  | PENDING => mkStats (total st) (S (pending st)) (stats_processing st) (completed st) (failed st)
  | PROCESSING => mkStats (total st) (pending st) (incr (stats_processing st)) (completed st) (failed st)
  | COMPLETED => mkStats (total st) (pending st) (stats_processing st) (S (completed st)) (failed st)
  | FAILED => mkStats (total st) (pending st) (stats_processing st) (completed st) (S (failed st))
  end.

(** [getStats()]. *)
Definition getStats (s : State) : Stats :=
  fold_left count_status (queue s)
            (mkStats (List.length (queue s)) 0 (Bool (processing s)) 0 0).

(** [clearCompleted()] and [clearAll()]: the number cleared and the new
    state. *)
Definition clearCompleted (s : State) : nat * State :=
  let q := filter (fun tx => negb (Status_eqb (status tx) COMPLETED)) (queue s) in
  let cleared := (List.length (queue s) - List.length q)%nat in
  let s1 := set_queue q s in
  (cleared, if (0 <? cleared)%nat then log (LogClearedCompleted cleared) s1 else s1).

Definition clearAll (s : State) : nat * State :=
  let cleared := List.length (queue s) in
  let s1 := set_processing false (set_queue [] s) in
  (cleared, if (0 <? cleared)%nat then log (LogClearedAll cleared) s1 else s1).

(** The objects returned by [getQueue]. *)
Record QueueEntry : Type := mkQueueEntry {
  qe_id : string;
  qe_type : TxType;
  qe_status : Status;
  qe_retryCount : nat;
  qe_createdAt : Z;
  qe_lastAttempt : option Z
}.

(** [getQueue()]. *)
Definition getQueue (s : State) : list QueueEntry :=
  map (fun tx => mkQueueEntry (id tx) (type tx) (status tx) (retryCount tx)
                              (createdAt tx) (lastAttempt tx))
      (queue s).

(** ** The transition system *)

(** What happens to the instance: a call from outside, a timer, or the
    settling of the promise [process] is awaiting. *)
Inductive Event : Type :=
| CallEnqueue (transaction : Val) (uuid : string)
| CallProcess
| TimerFired (k : nat)
| NonceResolved (r : string + Z)
| SubmitResolved (r : string + Val)
| CallGetNextNonce
| CallSetProviderAndSigner (sg : option string)
| CallClearCompleted.

(** The model follows one activation of [process]: the states in which the
    flag is clear while an activation is suspended are outside it, and so
    is every event once the loop spins.  ([clearAll] clears the flag
    whatever [process] is doing; it is not among the events.) *)
Definition in_model (s : State) : bool :=
  match pc s with
  | Idle => true
  | AwaitNonce | AwaitSubmit => processing s
  | Spinning => false
  end.

Fixpoint remove_nth {A : Type} (k : nat) (l : list A) : list A :=
  match l, k with
  | [], _ => []
  | _ :: rest, O => rest
  | x :: rest, S k' => x :: remove_nth k' rest
  end.

(** One synchronous segment.  [None]: the event cannot happen in [s]. *)
Definition step (env : Env) (e : Event) (s : State) : option State :=
  if negb (in_model s) then None
  else
    match e with
    | CallEnqueue transaction uuid => Some (fst (enqueue env transaction uuid s))
    | CallProcess => Some (process env s)
    | TimerFired k =>
      match nth_error (timers s) k with
      | Some _ => Some (process env (set_timers (remove_nth k (timers s)) s))
      | None => None
      end
    | NonceResolved r =>
      match pc s with
      | AwaitNonce => Some (nonce_resolved env r s)
      | _ => None
      end
    | SubmitResolved r =>
      match pc s, queue s with
      | AwaitSubmit, _ :: _ => Some (after_transaction env (resolve_submission r s))
      | _, _ => None
      end
    | CallGetNextNonce =>
      match getNextNonce s with
      | Some (_, s') => Some s'
      | None => Some s
      end
    | CallSetProviderAndSigner sg => Some (setProviderAndSigner sg s)
    | CallClearCompleted => Some (snd (clearCompleted s))
    end.

(** A run: the segments in the order they execute. *)
Fixpoint run (evs : list (Env * Event)) (s : State) : option State :=
  match evs with
  | [] => Some s
  | (env, e) :: rest =>
    match step env e s with
    | Some s' => run rest s'
    | None => None
    end
  end.

End Validation.

End TransactionQueue.

(** * Explorer URLs *)

Module ExplorerUrls.

Import JS.

Local Open Scope string_scope.

Definition QIE_EXPLORER_BASE_URL : string := "https://testnet.qie.digital".
Definition ENTROPY_EXPLORER_BASE_URL : string := "https://entropy-explorer.pyth.network".
Definition ENTROPY_CHAIN : string := "arbitrum-sepolia".

(** The character class [[a-fA-F0-9]]. *)
Definition hex_char (c : ascii) : bool :=
  let n := nat_of_ascii c in
  ((48 <=? n) && (n <=? 57) || (65 <=? n) && (n <=? 70) || (97 <=? n) && (n <=? 102))%nat.

Fixpoint all_hex_chars (s : string) : bool :=
  match s with
  | EmptyString => true
  | String c rest => hex_char c && all_hex_chars rest
  end.

(** [/^[a-fA-F0-9]{n}$/.test(s)]. *)
Definition hex_of_length (n : nat) (s : string) : bool :=
  (String.length s =? n)%nat && all_hex_chars s.

(** [s.startsWith('0x') ? s.slice(2) : s]. *)
Definition strip_0x (s : string) : string :=
  match s with
  | String "0" (String "x" rest) => rest
  | _ => s
  end.

(** [/^0x[a-fA-F0-9]{40}$/.test(s)]. *)
Definition address_format (s : string) : bool :=
  match s with
  | String "0" (String "x" rest) => hex_of_length 40 rest
  | _ => false
  end.

(** [getQIEExplorerUrl(txHash)]: [inl msg] when it throws [Error(msg)]. *)
Definition getQIEExplorerUrl (txHash : Val) : string + string :=
  match txHash with
  | Str h =>
    if negb (truthy txHash) then inl "Transaction hash is required and must be a string"
    else if negb (hex_of_length 64 (strip_0x h)) then inl "Invalid transaction hash format"
    else inr (QIE_EXPLORER_BASE_URL ++ "/tx/" ++ h)
  | _ => inl "Transaction hash is required and must be a string"
  end.

(** [getEntropyExplorerUrl(txHash)]. *)
Definition getEntropyExplorerUrl (txHash : Val) : string + string :=
  match txHash with
  | Str h =>
    if negb (truthy txHash) then inl "Transaction hash is required and must be a string"
    else if negb (hex_of_length 64 (strip_0x h)) then inl "Invalid transaction hash format"
    else inr (ENTROPY_EXPLORER_BASE_URL ++ "/?chain=" ++ ENTROPY_CHAIN ++ "&search=" ++ h)
  | _ => inl "Transaction hash is required and must be a string"
  end.

Definition getQIEExplorerBaseUrl : string := QIE_EXPLORER_BASE_URL.

Definition getEntropyExplorerBaseUrl : string := ENTROPY_EXPLORER_BASE_URL.

(** [isValidTxHash(txHash)]. *)
Definition isValidTxHash (txHash : Val) : bool :=
  match txHash with
  | Str h => if negb (truthy txHash) then false else hex_of_length 64 (strip_0x h)
  | _ => false
  end.

(** [isValidAddress(address)]. *)
Definition isValidAddress (address : Val) : bool :=
  match address with
  | Str a => if negb (truthy address) then false else address_format a
  | _ => false
  end.

Section Conversions.

(** String conversion, as a regular expression test and a template
    literal apply it to their argument. *)
Variable toString : Val -> string.

Definition to_string (v : Val) : string :=
  match v with
  | Str s => s
  | _ => toString v
  end.

(** [getQIENFTUrl(tokenId, contractAddress = null)], [envAddress] being
    [process.env.NEXT_PUBLIC_QIE_GAME_NFT_ADDRESS]. *)
Definition getQIENFTUrl (envAddress tokenId contractAddress : Val) : string + string :=
  if negb (truthy tokenId)
     || negb (String.eqb (typeof tokenId) "string")
        && negb (String.eqb (typeof tokenId) "number")
  then inl "Token ID is required and must be a string or number"
  else
    let nftContractAddress := if truthy contractAddress then contractAddress else envAddress in
    if negb (truthy nftContractAddress) then
      inl "NFT contract address is required. Provide it as parameter or set NEXT_PUBLIC_QIE_GAME_NFT_ADDRESS environment variable"
    else if negb (address_format (to_string nftContractAddress)) then
      inl "Invalid contract address format"
    else
      inr (QIE_EXPLORER_BASE_URL ++ "/token/" ++ to_string nftContractAddress
           ++ "/" ++ to_string tokenId).

End Conversions.

End ExplorerUrls.

(** * The route /api/log-game *)

Module LogGameRoute.

Import JS TransactionQueue ExplorerUrls.

Local Open Scope string_scope.

Definition NFT_IMAGE_BASE_URL : string := "https://apt-casino-eta.vercel.app".
Definition NFT_IMAGE_URL : string := NFT_IMAGE_BASE_URL ++ "/images/nft/nft.png".

(** What the [catch] of a handler caught: an [Error] with its message, or
    the [TypeError] of the engine. *)
Inductive Cause : Type :=
| Thrown (msg : string)
| TypeError.

(** The responses of the two handlers: 400, 404, the 500 of a missing
    key, the 500 of the [catch] of POST and of GET, and the two 200. *)
Inductive Response : Type :=
| BadRequest (error : string)
| NotFound (error : string)
| KeyNotConfigured
| PostFailed (cause : Cause)
| GetFailed (cause : Cause)
| Queued (nft log : string) (queueSize : nat)
| Found (transaction : TxStatus).

(** The number a value of type number is. *)
Definition as_number (v : Val) : Number :=
  match v with
  | Num n => n
  | _ => NaN
  end.

(** [v === 0]. *)
Definition is_zero (v : Val) : bool :=
  match v with
  | Num (Fin q) => Qeq_bool q 0
  | _ => false
  end.

(** [v > 0] for a [v] of type number. *)
Definition positive_number (v : Val) : bool :=
  match v with
  | Num (Inf false) => true
  | Num (Fin q) => negb (Qle_bool q 0)
  | _ => false
  end.

(** [v === undefined]. *)
Definition is_undefined (v : Val) : bool :=
  match v with
  | Undefined => true
  | _ => false
  end.

Section Handlers.

(** [ethers.isAddress] and string conversion, as for the queue. *)
Variable isAddress : Val -> bool.
Variable toString : Val -> string.

(** [String.prototype.toUpperCase] and [Number.prototype.toFixed]. *)
Variable toUpperCase : string -> string.
Variable toFixed : Number -> nat -> string.

(** [a / b] on two numbers: the quotient as a double, with its rounding,
    underflow and overflow. *)
Variable divide : Number -> Number -> Number.

(** [new ethers.Wallet(key, provider)]: [inl msg] when the constructor
    throws, the signer otherwise. *)
Variable makeWallet : string -> string + string.

(** [calculateMultiplier(betAmount, payout)]. *)
Definition calculateMultiplier (betAmount payout : Val) : string :=
  if is_zero betAmount || is_zero payout then "0x"
  else toFixed (divide (as_number payout) (as_number betAmount)) 2 ++ "x".

(** The checks of POST on the body, in order: the 400 response of the
    first that fails. *)
Definition post_checks (body : Val) : option Response :=
  if negb (truthy (get body "gameType")) || negb (truthy (get body "playerAddress"))
     || negb (truthy (get body "betAmount")) || negb (truthy (get body "result"))
     || is_undefined (get body "payout")
  then Some (BadRequest "Missing required fields")
  else if negb (isAddress (get body "playerAddress")) then
    Some (BadRequest "Invalid player address")
  else if negb (String.eqb (typeof (get body "betAmount")) "number")
          || negative_number (get body "betAmount") then
    Some (BadRequest "Invalid bet amount")
  else if negb (String.eqb (typeof (get body "payout")) "number")
          || negative_number (get body "payout") then
    Some (BadRequest "Invalid payout amount")
  else None.

(** [gameLogData]. *)
Definition gameLogData (body : Val) : Val :=
  Obj [("gameType", get body "gameType");
       ("playerAddress", get body "playerAddress");
       ("betAmount", get body "betAmount");
       ("result", get body "result");
       ("payout", get body "payout");
       ("entropyProof", get body "entropyProof");
       ("nftTokenId", Num (Fin 0))].

Definition trait (name : string) (value : Val) : Val :=
  Obj [("trait_type", Str name); ("value", value)].

Definition trait_as (name : string) (value : Val) (display : string) : Val :=
  Obj [("trait_type", Str name); ("value", value); ("display_type", Str display)].

(** [entropyProof?.transactionHash || '']. *)
Definition entropyTxHash (entropyProof : Val) : Val :=
  let h := if nullish entropyProof then Undefined else get entropyProof "transactionHash" in
  if truthy h then h else Str "".

(** [nftMetadata], for a [gameType] that is the string [g]; [t] is
    [Date.now()]. *)
Definition nftMetadata (t : Z) (g : string) (body : Val) : Val :=
  let betAmount := get body "betAmount" in
  let payout := get body "payout" in
  let multiplier := calculateMultiplier betAmount payout in
  let outcome := if positive_number payout then "WIN" else "LOSS" in
  let stamp := Num (Fin (inject_Z t)) in
  Obj [("name", Str (toUpperCase g ++ " Game Result #" ++ toString stamp));
       ("description",
        Str ("Game result NFT for " ++ toUpperCase g ++ " game. Bet: "
             ++ toString betAmount ++ " QIE, Payout: " ++ toString payout
             ++ " QIE, Multiplier: " ++ multiplier));
       ("image", Str NFT_IMAGE_URL);
       ("external_url", Str NFT_IMAGE_BASE_URL);
       ("attributes",
        Arr [trait "Game Type" (Str (toUpperCase g));
             trait_as "Bet Amount" betAmount "number";
             trait_as "Payout" payout "number";
             trait "Multiplier" (Str multiplier);
             trait "Outcome" (Str outcome);
             trait_as "Timestamp" stamp "date"]);
       ("gameType", Str (toUpperCase g));
       ("betAmount", betAmount);
       ("payout", payout);
       ("multiplier", Str multiplier);
       ("outcome", Str outcome);
       ("entropyTxHash", entropyTxHash (get body "entropyProof"));
       ("metadataURI", Str "")].

(** The two transactions POST enqueues. *)
Definition nftTransaction (t : Z) (g : string) (body : Val) : Val :=
  Obj [("type", Str "NFT");
       ("data", Obj [("playerAddress", get body "playerAddress");
                     ("metadata", nftMetadata t g body)])].

Definition logTransaction (body : Val) : Val :=
  Obj [("type", Str "LOG"); ("data", gameLogData body)].

(** [POST(request)] from [const { gameType, ... } = body] on, [body] being
    the parsed body of the request, [serverPrivateKey] the variable of
    the environment, [nftUuid] and [logUuid] the ids [uuidv4()] returns in
    the two calls of [enqueue].  The handler runs as one segment of the
    queue; its own console lines are not recorded. *)
Definition POST_body (env : Env) (serverPrivateKey : option string) (body : Val)
           (nftUuid logUuid : string) (s : State) : State * Response :=
  if nullish body then (s, PostFailed TypeError)
  else
    match post_checks body with
    | Some response => (s, response)
    | None =>
      match serverPrivateKey with
      | None => (s, KeyNotConfigured)
      | Some key =>
        if String.eqb key "" then (s, KeyNotConfigured)
        else
          match makeWallet key with
          | inl msg => (s, PostFailed (Thrown msg))
          | inr wallet =>
            let s1 := setProviderAndSigner (Some wallet) s in
            match get body "gameType" with
            | Str g =>
              match enqueue isAddress toString env (nftTransaction (now env) g body) nftUuid s1 with
              | (s2, inl msg) => (s2, PostFailed (Thrown msg))
              | (s2, inr nftTransactionId) =>
                match enqueue isAddress toString env (logTransaction body) logUuid s2 with
                | (s3, inl msg) => (s3, PostFailed (Thrown msg))
                | (s3, inr logTransactionId) =>
                  let s4 := process env s3 in
                  (s4, Queued nftTransactionId logTransactionId (List.length (getQueue s4)))
                end
              end
            | _ => (s1, PostFailed TypeError)
            end
          end
      end
    end.

(** [POST(request)], [parsed] being how [await request.json()] settles:
    [inl msg] when it rejects with an error of message [msg], which the
    [catch] of the handler answers with a 500; [inr body] when it
    resolves. *)
Definition POST (env : Env) (serverPrivateKey : option string) (parsed : string + Val)
           (nftUuid logUuid : string) (s : State) : State * Response :=
  match parsed with
  | inl msg => (s, PostFailed (Thrown msg))
  | inr body => POST_body env serverPrivateKey body nftUuid logUuid s
  end.

(** The properties of [{ ...fields, key: value }]: the value of [key] is
    replaced where the key stands, or the key is added last. *)
Fixpoint assign (key : string) (value : Val) (fields : list (string * Val))
  : list (string * Val) :=
  match fields with
  | [] => [(key, value)]
  | (k, v) :: rest =>
    if String.eqb k key then (k, value) :: rest
    else (k, v) :: assign key value rest
  end.

(** [{ ...result, key: value }] for a [result] one of whose properties was
    read as truthy: an object. *)
Definition with_property (result : Val) (key : string) (value : Val) : Val :=
  match result with
  | Obj fields => Obj (assign key value fields)
  | _ => Obj [(key, value)]
  end.

(** [GET(request)], [transactionId] being [searchParams.get('id')] and
    [envAddress] the NFT contract address of the environment. *)
Definition GET (envAddress : Val) (transactionId : option string) (s : State) : Response :=
  match transactionId with
  | None => BadRequest "Transaction ID is required"
  | Some i =>
    if String.eqb i "" then BadRequest "Transaction ID is required"
    else
      match getStatus i s with
      | None => NotFound "Transaction not found"
      | Some status =>
        match st_status status, st_result status with
        | COMPLETED, Some result =>
          if truthy result then
            match st_type status with
            | LOG =>
              if truthy (get result "txHash") then
                match getQIEExplorerUrl (get result "txHash") with
                | inl msg => GetFailed (Thrown msg)
                | inr url =>
                  Found (mkTxStatus (st_id status) (st_type status) (st_status status)
                                    (st_retryCount status) (st_createdAt status)
                                    (st_lastAttempt status) (st_error status)
                                    (Some (with_property result "explorerUrl" (Str url))))
                end
              else Found status
            | NFT =>
              if truthy (get result "tokenId") then
                match getQIENFTUrl toString envAddress (get result "tokenId") Undefined with
                | inl msg => GetFailed (Thrown msg)
                | inr url =>
                  Found (mkTxStatus (st_id status) (st_type status) (st_status status)
                                    (st_retryCount status) (st_createdAt status)
                                    (st_lastAttempt status) (st_error status)
                                    (Some (with_property result "nftUrl" (Str url))))
                end
              else Found status
            end
          else Found status
        | _, _ => Found status
        end
      end
  end.

End Handlers.

End LogGameRoute.

(** ** Sample inputs *)

Module Samples.

Import JS TransactionQueue.

Definition is_hex_digit (c : ascii) : bool :=
  let n := nat_of_ascii c in
  ((48 <=? n) && (n <=? 57) || (97 <=? n) && (n <=? 102))%nat.

Fixpoint all_hex (s : string) : bool :=
  match s with
  | EmptyString => true
  | String c rest => is_hex_digit c && all_hex rest
  end.

(** An address predicate for the examples: [0x] and forty digits among
    0-9 and a-f.  (The library function admits more forms.) *)
Definition hex_address (v : Val) : bool :=
  match v with
  | Str (String "0" (String "x" rest)) =>
    (String.length rest =? 40)%nat && all_hex rest
  | _ => false
  end.

(** String conversion for the examples, exact on strings. *)
Definition show (v : Val) : string :=
  match v with
  | Str s => s
  | _ => ""
  end.

Definition player : Val := Str "0x1234567890123456789012345678901234567890".

Definition num (q : Q) : Val := Num (Fin q).

(** The valid LOG transaction of the unit tests. *)
Definition log_data (addr bet payout res : Val) : Val :=
  Obj [("gameType", Str "ROULETTE"); ("playerAddress", addr);
       ("betAmount", bet); ("payout", payout); ("result", res)]%string.

Definition roulette_result : Val := Obj [("winningNumber", num 17)]%string.

Definition log_tx (d : Val) : Val := Obj [("type", Str "LOG"); ("data", d)]%string.

Definition valid_log : Val :=
  log_tx (log_data player (num (1 # 10)) (num (1 # 2)) roulette_result).

Definition nft_data (addr meta : Val) : Val :=
  Obj [("playerAddress", addr); ("metadata", meta)]%string.

Definition nft_tx (d : Val) : Val := Obj [("type", Str "NFT"); ("data", d)]%string.

Definition metadata (name description attributes : Val) : Val :=
  Obj [("name", name); ("description", description); ("attributes", attributes)]%string.

(** The valid NFT transaction of the unit tests. *)
Definition valid_nft : Val :=
  nft_tx (nft_data player (metadata (Str "Test NFT") (Str "Test Description") (Arr []))).

Definition env0 : Env := mkEnv 0 0.

Definition at_time (t : Z) : Env := mkEnv t (1 # 2).

Definition receipt : Val :=
  Obj [("transactionHash", Str "0xabc"); ("blockNumber", num 42)]%string.

(** The runs of the examples: on a queue with a signer, whose chain nonce
    is 7. *)
Definition enqueue_a : Env * Event := (at_time 1, CallEnqueue valid_log "a").
Definition enqueue_b : Env * Event := (at_time 2, CallEnqueue valid_nft "b").
Definition nonce_is_7 : Env * Event := (at_time 3, NonceResolved (inr 7)).
Definition succeed (t : Z) : Env * Event := (at_time t, SubmitResolved (inr receipt)).
Definition fail (t : Z) : Env * Event := (at_time t, SubmitResolved (inl "boom"%string)).
Definition timer (t : Z) : Env * Event := (at_time t, TimerFired 0).

(** A is in flight for the first time. *)
Definition run_in_flight : list (Env * Event) := [enqueue_a; nonce_is_7].

(** A completed and was removed. *)
Definition run_completed : list (Env * Event) := [enqueue_a; nonce_is_7; succeed 4].

(** A failed twice and is in flight for the third time. *)
Definition run_two_failures : list (Env * Event) :=
  [enqueue_a; nonce_is_7; fail 4; timer 5; fail 6; timer 7].

(** A and B are enqueued, A completes, B is dispatched. *)
Definition run_two : list (Env * Event) :=
  [enqueue_a; enqueue_b; nonce_is_7; succeed 4].

(** The state a run of the examples ends in. *)
Definition state_after (evs : list (Env * Event)) : State :=
  match run hex_address show evs (new (Some "signer"%string)) with
  | Some s => s
  | None => new None
  end.

(** A in its third dispatch. *)
Definition a_third_attempt : Tx :=
  mkTx "a" LOG (get valid_log "data") PROCESSING 2 1 (Some 7) (Some "boom"%string) None.

(** Upper case on the letters a-z. *)
Fixpoint upper (s : string) : string :=
  match s with
  | EmptyString => EmptyString
  | String c rest =>
    let n := nat_of_ascii c in
    String (if ((97 <=? n) && (n <=? 122))%nat then ascii_of_nat (n - 32) else c)
           (upper rest)
  end.

(** [toFixed] on the one quotient of the examples, 5. *)
Definition fixed (n : Number) (digits : nat) : string := "5.00"%string.

(** [/] on the one pair of amounts of the examples, 0.5 and 0.1. *)
Definition quotient (a b : Number) : Number := Fin 5.

(** A wallet constructor that accepts every key. *)
Definition wallet (key : string) : string + string := inr key.

(** The body of a request to the POST handler. *)
Definition post_body : Val :=
  Obj [("gameType", Str "roulette"); ("playerAddress", player);
       ("betAmount", num (1 # 10)); ("result", roulette_result);
       ("payout", num (1 # 2))]%string.

End Samples.

(** * Vocabulary of the specification *)

Module Vocabulary.

Import JS TransactionQueue.

(** ** Malformed payloads *)

(** A LOG payload with a malformed player address, a negative bet amount,
    a negative payout, or a missing or null result object. *)
Definition malformed_log (isAddress : Val -> bool) (d : Val) : Prop :=
  isAddress (get d "playerAddress") = false \/
  negative_number (get d "betAmount") = true \/
  negative_number (get d "payout") = true \/
  nullish (get d "result") = true.

(** An NFT payload whose metadata misses name, description or
    attributes. *)
Definition nft_metadata_missing (d : Val) : Prop :=
  get (get d "metadata") "name" = Undefined \/
  get (get d "metadata") "description" = Undefined \/
  get (get d "metadata") "attributes" = Undefined.

(** The message of [validateNFTTransaction] for a missing metadata field. *)
Definition nft_missing_field (f : string) : string :=
  ("NFT metadata missing required field: " ++ f)%string.

(** ** Queue contents *)

(** A transaction as [enqueue] leaves it: pending and never attempted. *)
Definition untouched (tx : Tx) : Prop :=
  status tx = PENDING /\ retryCount tx = 0%nat /\ lastAttempt tx = None /\
  error tx = None /\ result tx = None.

(** The calls [enqueue(t)] of a list, in order, each with the clock and the
    id drawn in it. *)
Definition enqueue_all (isAddress : Val -> bool) (toString : Val -> string)
           (calls : list (Env * Val * string)) (s : State) : State :=
  fold_left (fun st c => fst (enqueue isAddress toString (fst (fst c)) (snd (fst c)) (snd c) st))
            calls s.

(** The number of transactions of [q] in state [st]. *)
Definition count_in (st : Status) (q : list Tx) : nat :=
  List.length (filter (fun tx => Status_eqb (status tx) st) q).

(** ** Reading the console *)

(** The ids of the "Transaction queued" lines, in order. *)
Definition queued_ids (l : list LogEntry) : list string :=
  flat_map (fun e => match e with LogQueued i _ => [i] | _ => [] end) l.

(** The ids of the "Removed transaction from queue" lines, in order. *)
Definition removed_ids (l : list LogEntry) : list string :=
  flat_map (fun e => match e with LogRemoved i _ => [i] | _ => [] end) l.

(** The number of "Processing transaction" lines of [i]: its dispatches. *)
Definition dispatches (i : string) (l : list LogEntry) : nat :=
  List.length
    (filter (fun e => match e with LogProcessingTx j _ => String.eqb i j | _ => false end) l).

(** The number of "Transaction failed" lines of [i]. *)
Definition failures (i : string) (l : list LogEntry) : nat :=
  List.length
    (filter (fun e => match e with LogFailed j _ => String.eqb i j | _ => false end) l).

(** The values of the "Initialized nonce" lines: the reads of the chain. *)
Definition nonce_reads (l : list LogEntry) : list Z :=
  flat_map (fun e => match e with LogNonceInitialized n => [n] | _ => [] end) l.

(** The number of "Using nonce" lines: the calls of [getNextNonce] that
    returned. *)
Definition nonce_uses (l : list LogEntry) : nat :=
  List.length (filter (fun e => match e with LogUsingNonce _ _ => true | _ => false end) l).

(** [a] has reached a terminal state in [l]: it completed, or it failed
    with no retry left. *)
Definition terminal_in (a : string) (l : list LogEntry) : Prop :=
  In (LogCompleted a) l \/ In (LogPermanentlyFailed a) l.

(** [a] was enqueued before [b] in [l]. *)
Definition queued_before (a b : string) (l : list LogEntry) : Prop :=
  exists l1 l2 l3 ta tb, l = l1 ++ LogQueued a ta :: l2 ++ LogQueued b tb :: l3.

(** The ids [uuidv4()] returns in a run: one for each call of [enqueue]
    that passes validation. *)
Definition uuids (isAddress : Val -> bool) (toString : Val -> string)
           (evs : list (Env * Event)) : list string :=
  flat_map (fun ev => match snd ev with
                      | CallEnqueue t u =>
                        match validateTransaction isAddress toString t with
                        | inr _ => [u]
                        | inl _ => []
                        end
                      | _ => []
                      end) evs.

(** ** Invariants of the transition system *)

(** What the line [e] requires of the lines [pre] before it: a removal
    follows a terminal state of the same id, and a dispatch is of the
    oldest id that is queued and not removed. *)
Definition entry_ok (pre : list LogEntry) (e : LogEntry) : Prop :=
  match e with
  | LogRemoved a _ => terminal_in a pre
  | LogProcessingTx b _ => exists rest, queued_ids pre = removed_ids pre ++ b :: rest
  | _ => True
  end.

Fixpoint ordered_from (pre l : list LogEntry) : Prop :=
  match l with
  | [] => True
  | e :: l' => entry_ok pre e /\ ordered_from (pre ++ [e]) l'
  end.

Definition ordered (l : list LogEntry) : Prop := ordered_from [] l.

(** The lines that say nothing of a transaction or of the nonce. *)
Definition quiet (e : LogEntry) : bool :=
  match e with
  | LogQueued _ _ | LogRemoved _ _ | LogProcessingTx _ _ | LogCompleted _
  | LogFailed _ _ | LogPermanentlyFailed _
  | LogNonceInitialized _ | LogUsingNonce _ _ => false
  | _ => true
  end.

(** The part of the state the console speaks of. *)
Record View : Type := mkView {
  v_queue : list Tx;
  v_console : list LogEntry;
  v_nonce : option Z
}.

Definition view (s : State) : View :=
  mkView (queue s) (console s) (currentNonce s).

Definition write (l : list LogEntry) (es : list LogEntry) : list LogEntry :=
  fold_left (fun l e => l ++ [e]) es l.

(** A synchronous segment as a sequence of elementary actions, with the
    ids it enqueues: a quiet line, a push, a dispatch of the head, the
    settling of the head, the removal of the head, the first read of the
    nonce, a use of the nonce. *)
Inductive acts : list string -> View -> View -> Prop :=
| acts_done v : acts [] v v
| acts_quiet e q l n ids v :
    acts ids (mkView q (l ++ [e]) n) v ->
    quiet e = true ->
    acts ids (mkView q l n) v
| acts_push tx q l n ids v :
    untouched tx ->
    acts ids (mkView (q ++ [tx]) (l ++ [LogQueued (id tx) (type tx)]) n) v ->
    acts (id tx :: ids) (mkView q l n) v
| acts_dispatch env tx rest l n ids v :
    status tx = PENDING \/ status tx = FAILED ->
    (retryCount tx < maxRetries)%nat ->
    acts ids (mkView (begin_transaction env tx :: rest)
                     (l ++ [LogProcessingTx (id tx) (type tx)]) n) v ->
    acts ids (mkView (tx :: rest) l n) v
| acts_settle r tx rest l n ids v :
    status tx = PROCESSING ->
    acts ids (mkView (settle r tx :: rest) (write l (settle_log r tx)) n) v ->
    acts ids (mkView (tx :: rest) l n) v
| acts_remove tx rest l n ids v :
    removable tx = true ->
    acts ids (mkView rest (l ++ [LogRemoved (id tx) (status tx)]) n) v ->
    acts ids (mkView (tx :: rest) l n) v
| acts_nonce_init m q l ids v :
    acts ids (mkView q (l ++ [LogNonceInitialized m]) (Some m)) v ->
    acts ids (mkView q l None) v
| acts_nonce_use m q l ids v :
    acts ids (mkView q (l ++ [LogUsingNonce m (m + 1)]) (Some (m + 1))) v ->
    acts ids (mkView q l (Some m)) v.

(** A queue no transaction of which is in flight: only its head may have
    been attempted, and it has a retry left. *)
Definition idle_queue (q : list Tx) : Prop :=
  match q with
  | [] => True
  | tx :: rest =>
    (status tx = PENDING \/ status tx = FAILED) /\
    (retryCount tx < maxRetries)%nat /\
    Forall untouched rest
  end.

(** The head of the queue is in flight. *)
Definition busy_queue (q : list Tx) : Prop :=
  match q with
  | [] => False
  | tx :: rest =>
    status tx = PROCESSING /\ (retryCount tx < maxRetries)%nat /\ Forall untouched rest
  end.

(** The shape of the state at each point where [process] can stand. *)
Definition shape (p : PC) (flag : bool) (n : option Z) (q : list Tx) : Prop :=
  match p with
  | Idle => flag = false /\ idle_queue q
  | AwaitNonce => flag = true /\ n = None /\ idle_queue q
  | AwaitSubmit => flag = true /\ n <> None /\ busy_queue q
  | Spinning => False
  end.

Definition Shape (s : State) : Prop :=
  shape (pc s) (processing s) (currentNonce s) (queue s).

(** 1 for a transaction that has been dispatched once more than it has
    failed. *)
Definition in_flight (st : Status) : nat :=
  match st with
  | PROCESSING | COMPLETED => 1
  | PENDING | FAILED => 0
  end.

(** The console agrees with the queue and with the nonce counter. *)
Record Agrees (v : View) : Prop := mkAgrees {
  agrees_ids :
    queued_ids (v_console v) = removed_ids (v_console v) ++ map id (v_queue v);
  agrees_nodup : NoDup (queued_ids (v_console v));
  agrees_ordered : ordered (v_console v);
  agrees_terminal :
    forall tx, In tx (v_queue v) -> removable tx = true ->
               terminal_in (id tx) (v_console v);
  agrees_unqueued :
    forall a, ~ In a (queued_ids (v_console v)) ->
              dispatches a (v_console v) = 0%nat /\ failures a (v_console v) = 0%nat;
  agrees_counts :
    forall tx, In tx (v_queue v) ->
               dispatches (id tx) (v_console v)
               = (retryCount tx + in_flight (status tx))%nat /\
               failures (id tx) (v_console v) = retryCount tx /\
               (retryCount tx + in_flight (status tx) <= maxRetries)%nat;
  agrees_cap : forall a, (dispatches a (v_console v) <= maxRetries)%nat;
  agrees_failed :
    forall a, In (LogRemoved a FAILED) (v_console v) ->
              failures a (v_console v) = maxRetries /\
              dispatches a (v_console v) = maxRetries;
  agrees_nonce :
    match nonce_reads (v_console v) with
    | [] => v_nonce v = None /\ nonce_uses (v_console v) = 0%nat
    | [n0] => v_nonce v = Some (n0 + Z.of_nat (nonce_uses (v_console v)))
    | _ => False
    end
}.



(** ** The claims the code does not meet, as they are stated *)

(** C1 as stated, on the histories that end with a call of [clearAll] and
    a call of [enqueue]: there too a transaction is dispatched only when
    every transaction enqueued before it has reached a terminal state. *)
Definition dispatch_order_with_clearAll
           (isAddress : Val -> bool) (toString : Val -> string) : Prop :=
  forall sg evs s env t u pre post a b ty,
    NoDup (uuids isAddress toString (evs ++ [(env, CallEnqueue t u)])) ->
    run isAddress toString evs (new sg) = Some s ->
    console (fst (enqueue isAddress toString env t u (snd (clearAll s))))
    = pre ++ LogProcessingTx b ty :: post ->
    queued_before a b pre ->
    terminal_in a pre.

(** C6 as stated: the call of [enqueue] with a malformed payload throws. *)
Definition enqueue_throws_synchronously
           (isAddress : Val -> bool) (toString : Val -> string) : Prop :=
  forall env t uuid s,
    (get t "type" = Str "LOG" /\ malformed_log isAddress (get t "data")) \/
    (get t "type" = Str "NFT" /\ nft_metadata_missing (get t "data")) ->
    exists msg, snd (enqueue_call isAddress toString env t uuid s) = Throws msg.

(** C3 as stated: a transaction in flight whose submission has failed
    exactly twice completes with a count of 3. *)
Definition completes_with_count_3 (isAddress : Val -> bool) (toString : Val -> string)
  : Prop :=
  forall sg evs s tx rest v,
    NoDup (uuids isAddress toString evs) ->
    run isAddress toString evs (new sg) = Some s ->
    pc s = AwaitSubmit -> queue s = tx :: rest ->
    failures (id tx) (console s) = 2%nat ->
    status (settle (inr v) tx) = COMPLETED /\
    retryCount (settle (inr v) tx) = 3%nat.

(** C4 as stated: the status of a removed transaction is still found. *)
Definition status_survives_removal (isAddress : Val -> bool) (toString : Val -> string)
  : Prop :=
  forall sg evs s a st,
    NoDup (uuids isAddress toString evs) ->
    run isAddress toString evs (new sg) = Some s ->
    In (LogRemoved a st) (console s) ->
    getStatus a s <> None.



(** ** Further vocabulary *)

(** [k] calls of [getNextNonce] in a row: the nonces returned and the
    state left, [None] when a call throws. *)
Fixpoint next_nonces (k : nat) (s : State) : option (list Z * State) :=
  match k with
  | O => Some ([], s)
  | S k' =>
    match getNextNonce s with
    | None => None
    | Some (n, s1) =>
      match next_nonces k' s1 with
      | None => None
      | Some (ns, s2) => Some (n :: ns, s2)
      end
    end
  end.

(** What [validateLogTransaction] lets through. *)
Definition accepted_log (isAddress : Val -> bool) (d : Val) : Prop :=
  nullish (get d "gameType") = false /\
  nullish (get d "result") = false /\
  isAddress (get d "playerAddress") = true /\
  nullish (get d "playerAddress") = false /\
  typeof (get d "betAmount") = "number"%string /\
  negative_number (get d "betAmount") = false /\
  typeof (get d "payout") = "number"%string /\
  negative_number (get d "payout") = false.

(** What [validateNFTTransaction] lets through. *)
Definition accepted_nft (isAddress : Val -> bool) (d : Val) : Prop :=
  truthy (get d "playerAddress") = true /\
  isAddress (get d "playerAddress") = true /\
  truthy (get d "metadata") = true /\
  typeof (get d "metadata") = "object"%string /\
  truthy (get (get d "metadata") "name") = true /\
  truthy (get (get d "metadata") "description") = true /\
  truthy (get (get d "metadata") "attributes") = true.

(** The draw of [Math.random()] of a segment lies in [0, 1]. *)
Definition draw_ok (env : Env) : Prop :=
  (0 <= random env)%Q /\ (random env <= 1)%Q.

(** A delay computed for a retry count of 0, 1 or 2. *)
Definition short_delay (d : Z) : Prop :=
  exists k, 0 <= k <= 2 /\ 1000 * 2 ^ k <= d <= 1100 * 2 ^ k.

(** No queued transaction holds a result, but a COMPLETED one. *)
Definition Unsettled (v : View) : Prop :=
  forall tx, In tx (v_queue v) -> status tx <> COMPLETED -> result tx = None.

(** The object [getStatus] builds from a queued transaction. *)
Definition snapshot (tx : Tx) : TxStatus :=
  mkTxStatus (id tx) (type tx) (status tx) (retryCount tx)
             (createdAt tx) (lastAttempt tx) (error tx) (result tx).

(** A pending transaction has never failed. *)
Definition fresh_pending (q : list Tx) : Prop :=
  Forall (fun tx => status tx = PENDING -> retryCount tx = 0%nat) q.

(** The delays of the "Scheduling next process" lines. *)
Definition scheduled_delays (l : list LogEntry) : list Z :=
  flat_map (fun e => match e with LogScheduling d => [d] | _ => [] end) l.

(** Every retry that was scheduled, pending or fired, has a short delay. *)
Definition Timed (s : State) : Prop :=
  fresh_pending (queue s) /\
  Forall short_delay (timers s) /\
  Forall short_delay (scheduled_delays (console s)).

(** The events of a call of the POST handler that passes its checks:
    the signer is replaced, the NFT and the LOG transaction are enqueued,
    [process] is called. *)
Definition post_events (env : Env) (wallet : string) (nft log : Val)
           (nftUuid logUuid : string) : list (Env * Event) :=
  [(env, CallSetProviderAndSigner (Some wallet));
   (env, CallEnqueue nft nftUuid);
   (env, CallEnqueue log logUuid);
   (env, CallProcess)].

(** What a response of the GET handler says of the queue [s] it was
    computed on: 400 for a missing or empty id, 404 for a non-empty id
    that is not queued, and otherwise the snapshot of a queued transaction, which is
    not COMPLETED and holds no result. *)
Definition polled (s : State) (transactionId : option string)
           (r : LogGameRoute.Response) : Prop :=
  match r with
  | LogGameRoute.BadRequest error =>
    error = "Transaction ID is required"%string /\
    (transactionId = None \/ transactionId = Some ""%string)
  | LogGameRoute.NotFound error =>
    error = "Transaction not found"%string /\
    exists i, transactionId = Some i /\ i <> ""%string /\ ~ In i (map id (queue s))
  | LogGameRoute.Found transaction =>
    exists tx, In tx (queue s) /\ transactionId = Some (id tx) /\
               transaction = snapshot tx /\
               st_status transaction <> COMPLETED /\ st_result transaction = None
  | _ => False
  end.

End Vocabulary.

(** * Properties *)

Module Properties.

Import JS TransactionQueue Vocabulary.

(** ** Retry delay *)

Lemma capped_delay_nonneg (n : nat) :
  0 <= Z.min (baseDelay * 2 ^ Z.of_nat n) maxDelay.
Proof.
  apply Z.min_glb.
  - unfold baseDelay. apply Z.mul_nonneg_nonneg; [lia|].
    apply Z.pow_nonneg; lia.
  - unfold maxDelay; lia.
Qed.

(** C8.  For every retry count [n] and every jitter draw [r] of
    [Math.random()] (a draw lies in [0, 1); the bound also holds at 1), the
    delay [d] computed by [calculateRetryDelay] satisfies
    [min(1000 * 2^n, 30000) <= d <= min(1000 * 2^n, 30000) * 1.1]. *)
Theorem calculateRetryDelay_bounds (n : nat) (r : Q) :
  (0 <= r)%Q -> (r <= 1)%Q ->
  let capped := Z.min (1000 * 2 ^ Z.of_nat n) 30000 in
  (inject_Z capped <= inject_Z (calculateRetryDelay n r))%Q /\
  (inject_Z (calculateRetryDelay n r) <= inject_Z capped * (11 # 10))%Q.
Proof.
  intros Hr0 Hr1. cbv zeta.
  pose proof (capped_delay_nonneg n) as Hc.
  unfold calculateRetryDelay, baseDelay, maxDelay in *.
  set (c := Z.min (1000 * 2 ^ Z.of_nat n) 30000) in *.
  assert (Hcq : (0 <= inject_Z c)%Q).
  { change 0%Q with (inject_Z 0). rewrite <- Zle_Qle. exact Hc. }
  assert (Hj0 : (0 <= r * (1 # 10) * inject_Z c)%Q).
  { apply Qmult_le_0_compat; [|exact Hcq].
    apply Qmult_le_0_compat; [exact Hr0|]. discriminate. }
  assert (Hj1 : (r * (1 # 10) * inject_Z c <= (1 # 10) * inject_Z c)%Q).
  { apply Qmult_le_compat_r; [|exact Hcq].
    setoid_replace (1 # 10)%Q with (1 * (1 # 10))%Q at 2 by reflexivity.
    apply Qmult_le_compat_r; [exact Hr1|]. discriminate. }
  split.
  - rewrite <- Zle_Qle.
    rewrite <- (Qfloor_Z c) at 1.
    apply Qfloor_resp_le.
    setoid_replace (inject_Z c) with (inject_Z c + 0)%Q at 1 by ring.
    apply Qplus_le_r. exact Hj0.
  - eapply Qle_trans; [apply Qfloor_le|].
    setoid_replace (inject_Z c * (11 # 10))%Q
      with (inject_Z c + (1 # 10) * inject_Z c)%Q by ring.
    apply Qplus_le_r. exact Hj1.
Qed.

Lemma calculateRetryDelay_bounds_witness :
  (0 <= 1 # 2)%Q /\ (1 # 2 <= 1)%Q /\
  (inject_Z 4000 <= inject_Z (calculateRetryDelay 2 (1 # 2)))%Q /\
  (inject_Z (calculateRetryDelay 2 (1 # 2)) <= inject_Z 4000 * (11 # 10))%Q.
Proof.
  assert (H0 : (0 <= 1 # 2)%Q) by discriminate.
  assert (H1 : (1 # 2 <= 1)%Q) by discriminate.
  split; [exact H0|]. split; [exact H1|].
  exact (calculateRetryDelay_bounds 2 (1 # 2) H0 H1).
Defined.

(** ** Validation *)

Section ValidationProperties.

Variable isAddress : Val -> bool.
Variable toString : Val -> string.

Local Abbreviation validateLogTransaction := (validateLogTransaction isAddress).
Local Abbreviation validateNFTTransaction := (validateNFTTransaction isAddress).
Local Abbreviation validateTransaction := (validateTransaction isAddress toString).
Local Abbreviation enqueue := (enqueue isAddress toString).

Lemma get_defined_obj (v : Val) (k : string) :
  get v k <> Undefined -> exists fields, v = Obj fields.
Proof. destruct v; simpl; try congruence. eauto. Qed.

Lemma truthy_defined (v : Val) : truthy v = true -> v <> Undefined.
Proof. intros H ->. discriminate. Qed.

Lemma validateLogTransaction_malformed (d : Val) :
  malformed_log isAddress d ->
  exists msg, msg <> ""%string /\ validateLogTransaction d = Some msg.
Proof.
  unfold malformed_log, TransactionQueue.validateLogTransaction.
  cbn [first_nullish].
  intros H.
  repeat match goal with
         | |- context [if nullish ?v then _ else _] => destruct (nullish v) eqn:?
         end;
    try (eexists; split; [|reflexivity]; discriminate).
  destruct H as [H | [H | [H | H]]].
  - rewrite H. cbn [negb]. eexists; split; [|reflexivity]; discriminate.
  - rewrite H, orb_true_r.
    destruct (negb (isAddress _)); eexists; (split; [|reflexivity]); discriminate.
  - rewrite H, orb_true_r.
    destruct (negb (isAddress _)); [eexists; (split; [|reflexivity]); discriminate|].
    destruct (_ || _); eexists; (split; [|reflexivity]); discriminate.
  - congruence.
Qed.

Lemma validateNFTTransaction_missing (d : Val) :
  nft_metadata_missing d ->
  exists msg, msg <> ""%string /\ validateNFTTransaction d = Some msg.
Proof.
  unfold nft_metadata_missing, TransactionQueue.validateNFTTransaction.
  cbn [first_falsy].
  intros H.
  destruct (_ || _); [eexists; (split; [|reflexivity]); discriminate|].
  destruct (_ || _); [eexists; (split; [|reflexivity]); discriminate|].
  destruct H as [H | [H | H]]; rewrite H; cbn [truthy];
    repeat match goal with
           | |- context [if truthy ?v then _ else _] => destruct (truthy v)
           end;
    eexists; (split; [|reflexivity]); discriminate.
Qed.

(** C6, amended.  For a LOG transaction whose payload has a malformed
    player address, a negative bet amount, a negative payout or a missing
    or null result, and for an NFT transaction whose metadata misses name,
    description or attributes: [validateTransaction] throws a non-empty
    message; the call of [enqueue] does not throw, it returns a promise
    that is rejected with that message; the call writes one console line
    and leaves every field of the queue, [this.queue] included, as it
    was. *)
Theorem enqueue_rejects_malformed (env : Env) (t : Val) (uuid : string) (s : State) :
  (get t "type" = Str "LOG" /\ malformed_log isAddress (get t "data")) \/
  (get t "type" = Str "NFT" /\ nft_metadata_missing (get t "data")) ->
  exists msg,
    msg <> ""%string /\
    validateTransaction t = inl msg /\
    enqueue env t uuid s = (log (LogEnqueueFailed msg) s, inl msg) /\
    enqueue_call isAddress toString env t uuid s
    = (log (LogEnqueueFailed msg) s, Returns (Rejected msg)) /\
    queue (fst (enqueue env t uuid s)) = queue s /\
    List.length (queue (fst (enqueue env t uuid s))) = List.length (queue s).
Proof.
  intros H.
  assert (Hv : exists msg, msg <> ""%string /\ validateTransaction t = inl msg).
  { unfold TransactionQueue.validateTransaction.
    assert (Ht : exists fields, t = Obj fields).
    { apply get_defined_obj with (k := "type"%string).
      destruct H as [[H _] | [H _]]; rewrite H; discriminate. }
    destruct Ht as [fields ->]. cbn [truthy negb].
    destruct H as [[Hty Hd] | [Hty Hd]]; rewrite Hty; cbn [truthy parse_type];
      simpl (negb _); cbv iota.
    - simpl (String.eqb _ _). cbv iota.
      destruct (negb (truthy _)); [eexists; (split; [|reflexivity]); discriminate|].
      destruct (validateLogTransaction_malformed _ Hd) as (msg & Hne & Hmsg).
      rewrite Hmsg. eauto.
    - simpl (String.eqb _ _). cbv iota.
      destruct (negb (truthy _)); [eexists; (split; [|reflexivity]); discriminate|].
      destruct (validateNFTTransaction_missing _ Hd) as (msg & Hne & Hmsg).
      rewrite Hmsg. eauto. }
  destruct Hv as (msg & Hne & Hv). exists msg.
  unfold enqueue_call, TransactionQueue.enqueue.
  rewrite Hv.
  repeat split; auto.
Qed.

(** C10.  The three metadata fields must be truthy.  For an NFT
    transaction with a valid player address and an object as metadata:
    a falsy [name] is reported as missing [name]; with a truthy [name], a
    falsy [description] is reported as missing [description]; with both
    truthy, a falsy [attributes] is reported as missing [attributes]; and
    with both truthy, the empty array as [attributes] is accepted. *)
Theorem nft_metadata_fields_must_be_truthy
        (env : Env) (t : Val) (uuid : string) (s : State) (d m : Val) :
  get t "type" = Str "NFT" ->
  get t "data" = d ->
  truthy (get d "playerAddress") = true ->
  isAddress (get d "playerAddress") = true ->
  get d "metadata" = m ->
  truthy m = true ->
  typeof m = "object"%string ->
  let rejected f :=
    enqueue env t uuid s
    = (log (LogEnqueueFailed (nft_missing_field f)) s, inl (nft_missing_field f)) in
  (truthy (get m "name") = false -> rejected "name"%string) /\
  (truthy (get m "name") = true -> truthy (get m "description") = false ->
   rejected "description"%string) /\
  (truthy (get m "name") = true -> truthy (get m "description") = true ->
   truthy (get m "attributes") = false -> rejected "attributes"%string) /\
  (truthy (get m "name") = true -> truthy (get m "description") = true ->
   get m "attributes" = Arr [] ->
   validateTransaction t = inr NFT /\ snd (enqueue env t uuid s) = inr uuid).
Proof.
  intros Hty Hd Hpa Haddr Hm Hmt Hmo rejected. subst rejected.
  assert (Ht : exists fields, t = Obj fields).
  { apply get_defined_obj with (k := "type"%string). rewrite Hty. discriminate. }
  assert (Hdo : exists fields, d = Obj fields).
  { apply get_defined_obj with (k := "playerAddress"%string).
    apply truthy_defined. exact Hpa. }
  assert (Hv : validateTransaction t
               = match first_falsy m ["name"; "description"; "attributes"]%string with
                 | Some f => inl (nft_missing_field f)
                 | None => inr NFT
                 end).
  { destruct Ht as [tf ->]. destruct Hdo as [df Hdo].
    unfold TransactionQueue.validateTransaction.
    rewrite Hty, Hd. cbn [truthy negb parse_type].
    simpl (String.eqb _ _). cbv iota. simpl (negb _). cbv iota.
    rewrite Hdo at 1. cbn [truthy negb].
    unfold TransactionQueue.validateNFTTransaction.
    rewrite Hpa, Haddr, Hm, Hmt, Hmo. simpl (negb _ || negb _). cbv iota.
    destruct (first_falsy _ _); reflexivity. }
  unfold TransactionQueue.enqueue. rewrite Hv. cbn [first_falsy].
  split; [|split; [|split]].
  - intros ->. reflexivity.
  - intros -> ->. reflexivity.
  - intros -> -> ->. reflexivity.
  - intros -> -> ->. split; reflexivity.
Qed.

(** ** Without a signer *)

Lemma getStats_fold_total (q : list Tx) (st : Stats) :
  total (fold_left count_status q st) = total st.
Proof.
  revert st. induction q as [|tx q IH]; intros st; cbn [fold_left]; [reflexivity|].
  rewrite IH. unfold count_status. destruct (status tx); reflexivity.
Qed.

Lemma getStats_fold_pending (q : list Tx) (st : Stats) :
  pending (fold_left count_status q st) = (pending st + count_in PENDING q)%nat.
Proof.
  revert st. induction q as [|tx q IH]; intros st; cbn [fold_left].
  - unfold count_in; simpl; lia.
  - rewrite IH. unfold count_status, count_in. cbn [filter].
    destruct (status tx); cbn [pending Status_eqb List.length]; lia.
Qed.

Lemma getStats_total (s : State) : total (getStats s) = List.length (queue s).
Proof. unfold getStats. rewrite getStats_fold_total. reflexivity. Qed.

Lemma count_in_untouched (q : list Tx) :
  Forall untouched q -> count_in PENDING q = List.length q.
Proof.
  induction 1 as [|tx q [Hst _] _ IH]; [reflexivity|].
  unfold count_in in *. cbn [filter]. rewrite Hst. cbn [Status_eqb List.length].
  rewrite IH. reflexivity.
Qed.

Lemma process_no_signer_logs (env : Env) (s : State) :
  signer s = None ->
  exists e, process env s = log e s.
Proof.
  intros Hs. unfold process.
  destruct (processing s); [eauto|].
  destruct (queue s); [eauto|].
  rewrite Hs. eauto.
Qed.

Lemma enqueue_without_signer (env : Env) (t : Val) (uuid : string) (ty : TxType) (s : State) :
  signer s = None ->
  validateTransaction t = inr ty ->
  let s' := fst (enqueue env t uuid s) in
  signer s' = None /\
  queue s' = queue s ++ [mkTx uuid ty (get t "data") PENDING 0 (now env) None None None].
Proof.
  intros Hs Hv. unfold TransactionQueue.enqueue. rewrite Hv. cbn [fst].
  match goal with |- context [if ?c then ?a else process env ?b] =>
    destruct (process_no_signer_logs env b Hs) as [e He]; rewrite He;
    destruct c end; cbn; auto.
Qed.

Lemma enqueue_all_without_signer (calls : list (Env * Val * string)) (s0 : State) :
  signer s0 = None ->
  Forall (fun c => exists ty, validateTransaction (snd (fst c)) = inr ty) calls ->
  let s := enqueue_all isAddress toString calls s0 in
  signer s = None /\
  exists added,
    queue s = queue s0 ++ added /\
    map id added = map snd calls /\
    map data added = map (fun c => get (snd (fst c)) "data") calls /\
    map createdAt added = map (fun c => now (fst (fst c))) calls /\
    Forall untouched added.
Proof.
  intros Hs Hall. revert s0 Hs.
  induction Hall as [|[[env t] uuid] calls [ty Hv] _ IH]; intros s0 Hs.
  - cbn. split; [exact Hs|]. exists []. rewrite app_nil_r. repeat split; constructor.
  - cbn [fst snd] in Hv.
    destruct (enqueue_without_signer env t uuid ty s0 Hs Hv) as [Hs1 Hq1].
    destruct (IH _ Hs1) as (Hs2 & added & Hq & Hid & Hdata & Hat & Hun).
    unfold enqueue_all in *. cbn [fold_left fst snd].
    split; [exact Hs2|].
    exists (mkTx uuid ty (get t "data") PENDING 0 (now env) None None None :: added).
    rewrite Hq, Hq1, <- app_assoc. cbn [app map id data createdAt fst snd].
    rewrite Hid, Hdata, Hat.
    repeat split; auto.
    constructor; [|exact Hun]. repeat split.
Qed.

(** C7.  With no signer configured, after N valid transactions have been
    enqueued, [process()] returns having written one console line and
    nothing else: the queue is the one before the call, the N transactions
    follow those already queued, each pending, with no attempt, error or
    result and with the id, data and creation time of its call, and
    [getStats().total] counts them: it is N on a queue that held none
    before (and so is [getStats().pending]). *)
Theorem process_without_signer_is_noop
        (calls : list (Env * Val * string)) (env : Env) (s0 : State) :
  signer s0 = None ->
  Forall (fun c => exists ty, validateTransaction (snd (fst c)) = inr ty) calls ->
  let s := enqueue_all isAddress toString calls s0 in
  (exists e, process env s = log e s) /\
  queue (process env s) = queue s /\
  (exists added,
     queue (process env s) = queue s0 ++ added /\
     map id added = map snd calls /\
     map data added = map (fun c => get (snd (fst c)) "data") calls /\
     map createdAt added = map (fun c => now (fst (fst c))) calls /\
     Forall untouched added) /\
  total (getStats (process env s)) = (List.length (queue s0) + List.length calls)%nat /\
  (queue s0 = [] ->
   total (getStats (process env s)) = List.length calls /\
   pending (getStats (process env s)) = List.length calls).
Proof.
  intros Hs Hall s.
  destruct (enqueue_all_without_signer calls s0 Hs Hall)
    as (Hs' & added & Hq & Hid & Hdata & Hat & Hun).
  fold s in Hs', Hq.
  destruct (process_no_signer_logs env s Hs') as [e He].
  assert (Hqp : queue (process env s) = queue s) by (rewrite He; reflexivity).
  assert (Hlen : List.length added = List.length calls).
  { rewrite <- (length_map id added), Hid, length_map. reflexivity. }
  split; [eauto|]. split; [exact Hqp|].
  split; [exists added; rewrite Hqp; auto|].
  split.
  - rewrite getStats_total, Hqp, Hq, length_app. lia.
  - intros Hnil. split.
    + rewrite getStats_total, Hqp, Hq, Hnil. cbn [app]. exact Hlen.
    + unfold getStats. rewrite getStats_fold_pending. cbn [pending].
      rewrite Hqp, Hq, Hnil. cbn [app].
      rewrite count_in_untouched by exact Hun. lia.
Qed.

End ValidationProperties.

(** ** Reset *)

(** [clearAll] empties the queue, clears the flag and returns the number
    of transactions it dropped. *)
Lemma clearAll_resets (s : State) :
  fst (clearAll s) = List.length (queue s) /\
  queue (snd (clearAll s)) = [] /\
  processing (snd (clearAll s)) = false.
Proof.
  unfold clearAll. cbn [fst snd].
  destruct (0 <? List.length (queue s))%nat; repeat split.
Qed.

Lemma clearCompleted_keeps_others (s : State) (tx : Tx) :
  In tx (queue (snd (clearCompleted s))) <-> In tx (queue s) /\ status tx <> COMPLETED.
Proof.
  unfold clearCompleted. cbn [snd].
  match goal with |- context [if ?c then _ else _] => destruct c end;
    cbn [log set_queue queue]; rewrite filter_In;
    destruct (status tx); cbn; intuition congruence.
Qed.

(** ** Terminal lines *)

(** The "completed" and "permanently failed" lines are written when, and
    only when, the settling leaves the transaction in a state the loop
    removes: COMPLETED, or FAILED with the retry count at the cap. *)
Lemma terminal_line_iff (r : string + Val) (tx : Tx) (a : string) :
  terminal_in a (settle_log r tx) <-> a = id tx /\ removable (settle r tx) = true.
Proof.
  unfold terminal_in, removable.
  destruct r as [msg | v]; cbn [settle settle_log status retryCount In].
  - destruct (Nat.ltb_spec (S (retryCount tx)) maxRetries) as [Hlt | Hge].
    + apply Nat.leb_gt in Hlt. rewrite Hlt.
      split; [intros [[H | [H | []]] | [H | [H | []]]]; discriminate
             | intros [_ H]; discriminate].
    + apply Nat.leb_le in Hge. rewrite Hge.
      split.
      * intros [[H | [H | []]] | [H | [H | []]]]; try discriminate.
        injection H as <-. auto.
      * intros [-> _]. right. right. left. reflexivity.
  - split.
    + intros [[H | []] | [H | []]]; try discriminate. injection H as <-. auto.
    + intros [-> _]. left. left. reflexivity.
Qed.

(** ** The segments of [process] as sequences of actions *)

Ltac simp_state :=
  cbn [view queue console currentNonce pc processing signer timers
       v_queue v_console v_nonce
       log set_queue set_pc set_processing set_currentNonce set_timers
       setProviderAndSigner] in *.

Tactic Notation "quietly" tactic3(t) := eapply acts_quiet; [ t | reflexivity ].

Lemma acts_trans ids1 ids2 a b c :
  acts ids1 a b -> acts ids2 b c -> acts (ids1 ++ ids2) a c.
Proof.
  induction 1; intros Hbc; cbn [app]; eauto using acts.
Qed.

Lemma untouched_idle (q : list Tx) : Forall untouched q -> idle_queue q.
Proof.
  destruct 1 as [|tx rest (Hst & Hrc & _) Hrest]; cbn; [exact I|].
  repeat split; auto. rewrite Hrc. unfold maxRetries. lia.
Qed.

Lemma idle_queue_push (q : list Tx) (tx : Tx) :
  idle_queue q -> untouched tx -> idle_queue (q ++ [tx]).
Proof.
  destruct q as [|h rest]; cbn.
  - intros _ Htx. apply (untouched_idle [tx]). auto.
  - intros (Hst & Hrc & Hrest) Htx. repeat split; auto.
    apply Forall_app. auto.
Qed.

Lemma busy_queue_push (q : list Tx) (tx : Tx) :
  busy_queue q -> untouched tx -> busy_queue (q ++ [tx]).
Proof.
  destruct q as [|h rest]; cbn; [tauto|].
  intros (Hst & Hrc & Hrest) Htx. repeat split; auto.
  apply Forall_app. auto.
Qed.

Lemma process_finally_ok (env : Env) (s : State) :
  idle_queue (queue s) ->
  Shape (process_finally env s) /\
  acts [] (view s) (view (process_finally env s)).
Proof.
  intros Hq. unfold process_finally. simp_state.
  destruct (queue s) as [|tx rest] eqn:Hqs.
  - split.
    + unfold Shape; simp_state. rewrite Hqs. cbn. auto.
    + unfold view; simp_state. rewrite Hqs.
      quietly (apply acts_done).
  - destruct (find retryable (tx :: rest)) as [found|]; split.
    + unfold Shape; simp_state. rewrite Hqs. cbn [shape]. auto.
    + unfold view; simp_state. rewrite Hqs.
      quietly (quietly (apply acts_done)).
    + unfold Shape; simp_state. rewrite Hqs. cbn [shape]. auto.
    + unfold view; simp_state. rewrite Hqs.
      quietly (apply acts_done).
Qed.

Lemma process_while_ok (env : Env) (q : list Tx) (s : State) :
  idle_queue q ->
  processing s = true ->
  currentNonce s <> None ->
  Shape (process_while env q s) /\
  acts [] (mkView q (console s) (currentNonce s)) (view (process_while env q s)).
Proof.
  intros Hq Hflag Hnonce. destruct q as [|tx rest].
  - cbn [process_while].
    apply (process_finally_ok env (set_queue [] s)). exact I.
  - destruct Hq as (Hst & Hrc & Hrest). cbn [process_while].
    assert (Hgo : Shape (set_pc AwaitSubmit
                    (set_queue (begin_transaction env tx :: rest)
                       (log (LogProcessingTx (id tx) (type tx)) s))) /\
                  acts [] (mkView (tx :: rest) (console s) (currentNonce s))
                    (view (set_pc AwaitSubmit
                      (set_queue (begin_transaction env tx :: rest)
                         (log (LogProcessingTx (id tx) (type tx)) s))))).
    { split.
      - unfold Shape; simp_state. cbn. auto.
      - unfold view; simp_state.
        eapply acts_dispatch; [exact Hst|exact Hrc|]. apply acts_done. }
    destruct Hst as [Hst | Hst]; rewrite Hst; exact Hgo.
Qed.

Lemma process_ok (env : Env) (s : State) :
  Shape s ->
  Shape (process env s) /\ acts [] (view s) (view (process env s)).
Proof.
  intros Hs. unfold process.
  destruct (processing s) eqn:Hflag.
  - split; [exact Hs|]. unfold view; simp_state.
    quietly (apply acts_done).
  - assert (Hidle : idle_queue (queue s)).
    { unfold Shape in Hs. rewrite Hflag in Hs.
      destruct (pc s); cbn in Hs; try tauto; destruct Hs; discriminate. }
    destruct (queue s) as [|tx rest] eqn:Hq.
    + split; [exact Hs|]. unfold view; simp_state. rewrite Hq.
      quietly (apply acts_done).
    + destruct (signer s).
      * simp_state. destruct (currentNonce s) eqn:Hn.
        -- rewrite Hq.
           destruct (process_while_ok env (tx :: rest)
                       (log LogStarting (set_processing true s)) Hidle eq_refl)
             as [Hshape Hacts].
           { simp_state. congruence. }
           split; [exact Hshape|].
           unfold view at 1. rewrite Hq, Hn.
           simp_state. rewrite Hn in Hacts.
           quietly (exact Hacts).
        -- split.
           ++ unfold Shape; simp_state. rewrite Hq, Hn. cbn [shape]. auto.
           ++ unfold view; simp_state. rewrite Hq, Hn.
              quietly (apply acts_done).
      * split; [exact Hs|]. unfold view; simp_state. rewrite Hq.
        quietly (apply acts_done).
Qed.

Lemma submit_resolved_ok (env : Env) (r : string + Val) (s : State) :
  Shape s -> pc s = AwaitSubmit ->
  Shape (after_transaction env (resolve_submission r s)) /\
  acts [] (view s) (view (after_transaction env (resolve_submission r s))).
Proof.
  intros Hs Hpc. unfold Shape in Hs. rewrite Hpc in Hs.
  destruct Hs as (Hflag & Hnonce & Hbusy).
  destruct (queue s) as [|tx rest] eqn:Hq; [destruct Hbusy|].
  destruct Hbusy as (Hst & Hrc & Hrest).
  unfold resolve_submission. rewrite Hq.
  destruct r as [msg | v]; cbn [settle settle_log fold_left].
  - (* the submission failed *)
    unfold after_transaction. simp_state.
    unfold removable. cbn [status retryCount].
    destruct (maxRetries <=? S (retryCount tx))%nat eqn:Hcap.
    + (* no retry left: removed, and the loop goes on *)
      match goal with |- context [process_while env rest ?st] =>
        destruct (process_while_ok env rest st (untouched_idle _ Hrest) Hflag Hnonce)
          as [Hshape Hacts]
      end.
      split; [exact Hshape|].
      unfold view at 1. rewrite Hq.
      eapply acts_settle with (r := inl msg); [exact Hst|].
      cbn [settle settle_log write fold_left].
      eapply acts_remove; [cbn; exact Hcap|].
      cbn [id status]. simp_state. cbn [id status] in Hacts. exact Hacts.
    + (* a retry is left: the loop stops behind it *)
      apply Nat.leb_gt in Hcap.
      match goal with |- context [process_finally env ?st] =>
        destruct (process_finally_ok env st) as [Hshape Hacts]
      end.
      { simp_state. cbn. repeat split; auto. }
      split; [exact Hshape|].
      unfold view at 1. rewrite Hq.
      eapply acts_settle with (r := inl msg); [exact Hst|].
      cbn [settle settle_log write fold_left].
      unfold view at 1 in Hacts. simp_state. exact Hacts.
  - (* the submission succeeded: removed, and the loop goes on *)
    unfold after_transaction. simp_state.
    unfold removable. cbn [status retryCount].
    match goal with |- context [process_while env rest ?st] =>
      destruct (process_while_ok env rest st (untouched_idle _ Hrest) Hflag Hnonce)
        as [Hshape Hacts]
    end.
    split; [exact Hshape|].
    unfold view at 1. rewrite Hq.
    eapply acts_settle with (r := inr v); [exact Hst|].
    cbn [settle settle_log write fold_left].
    eapply acts_remove; [reflexivity|].
    cbn [id status]. simp_state. cbn [id status] in Hacts. exact Hacts.
Qed.

Lemma nonce_resolved_ok (env : Env) (r : string + Z) (s : State) :
  Shape s -> pc s = AwaitNonce ->
  Shape (nonce_resolved env r s) /\
  acts [] (view s) (view (nonce_resolved env r s)).
Proof.
  intros Hs Hpc. unfold Shape in Hs. rewrite Hpc in Hs.
  destruct Hs as (Hflag & Hn & Hidle).
  unfold nonce_resolved. destruct r as [msg | n].
  - match goal with |- context [process_finally env ?st] =>
      destruct (process_finally_ok env st Hidle) as [Hshape Hacts]
    end.
    split; [exact Hshape|].
    unfold view at 1. unfold view at 1 in Hacts. simp_state.
    quietly (quietly (exact Hacts)).
  - simp_state.
    match goal with |- context [process_while env (queue s) ?st] =>
      destruct (process_while_ok env (queue s) st Hidle Hflag) as [Hshape Hacts]
    end.
    { simp_state. discriminate. }
    split; [exact Hshape|].
    unfold view at 1. rewrite Hn. simp_state.
    apply acts_nonce_init with (m := n). exact Hacts.
Qed.

(** ** Clearing completed transactions *)

Lemma filter_all {A : Type} (f : A -> bool) (l : list A) :
  Forall (fun x => f x = true) l -> filter f l = l.
Proof.
  induction 1 as [|x l Hx _ IH]; cbn [filter]; [reflexivity|].
  rewrite Hx, IH. reflexivity.
Qed.

(** Between two segments no queued transaction is COMPLETED, and
    [clearCompleted] changes nothing. *)
Lemma clearCompleted_shape (s : State) :
  Shape s ->
  queue (snd (clearCompleted s)) = queue s /\
  console (snd (clearCompleted s)) = console s /\
  pc (snd (clearCompleted s)) = pc s /\
  processing (snd (clearCompleted s)) = processing s /\
  currentNonce (snd (clearCompleted s)) = currentNonce s.
Proof.
  intros Hs.
  assert (Hun : forall q, Forall untouched q ->
                  Forall (fun tx => negb (Status_eqb (status tx) COMPLETED) = true) q).
  { intros q Hq. eapply Forall_impl; [|exact Hq].
    intros tx (H & _). cbn beta. rewrite H. reflexivity. }
  assert (Hidle : forall q, idle_queue q ->
                    Forall (fun tx => negb (Status_eqb (status tx) COMPLETED) = true) q).
  { intros [|tx rest]; cbn [idle_queue]; [constructor|].
    intros ([H | H] & _ & Hrest); (constructor; [rewrite H; reflexivity | auto]). }
  assert (Hbusy : forall q, busy_queue q ->
                    Forall (fun tx => negb (Status_eqb (status tx) COMPLETED) = true) q).
  { intros [|tx rest]; cbn [busy_queue]; [constructor|].
    intros (H & _ & Hrest); (constructor; [rewrite H; reflexivity | auto]). }
  assert (Hall : Forall (fun tx => negb (Status_eqb (status tx) COMPLETED) = true) (queue s)).
  { unfold Shape in Hs. destruct (pc s); cbn [shape] in Hs.
    - apply Hidle. tauto.
    - apply Hidle. tauto.
    - apply Hbusy. tauto.
    - contradiction. }
  unfold clearCompleted. cbn [snd]. rewrite (filter_all _ _ Hall).
  rewrite Nat.sub_diag. cbn [Nat.ltb Nat.leb]. simp_state. auto.
Qed.

(** ** Reading a console that grows *)

Lemma queued_ids_snoc l e :
  queued_ids (l ++ [e]) = queued_ids l ++ match e with LogQueued i _ => [i] | _ => [] end.
Proof. unfold queued_ids. rewrite flat_map_app. cbn. rewrite app_nil_r. reflexivity. Qed.

Lemma removed_ids_snoc l e :
  removed_ids (l ++ [e]) = removed_ids l ++ match e with LogRemoved i _ => [i] | _ => [] end.
Proof. unfold removed_ids. rewrite flat_map_app. cbn. rewrite app_nil_r. reflexivity. Qed.

Lemma nonce_reads_snoc l e :
  nonce_reads (l ++ [e])
  = nonce_reads l ++ match e with LogNonceInitialized n => [n] | _ => [] end.
Proof. unfold nonce_reads. rewrite flat_map_app. cbn. rewrite app_nil_r. reflexivity. Qed.

Lemma count_snoc {A : Type} (f : A -> bool) (l : list A) (e : A) :
  List.length (filter f (l ++ [e]))
  = (List.length (filter f l) + if f e then 1 else 0)%nat.
Proof. rewrite filter_app, length_app. cbn. destruct (f e); reflexivity. Qed.

Lemma dispatches_snoc a l e :
  dispatches a (l ++ [e])
  = (dispatches a l
     + match e with LogProcessingTx j _ => if String.eqb a j then 1 else 0 | _ => 0 end)%nat.
Proof. unfold dispatches. rewrite count_snoc. destruct e; reflexivity. Qed.

Lemma failures_snoc a l e :
  failures a (l ++ [e])
  = (failures a l
     + match e with LogFailed j _ => if String.eqb a j then 1 else 0 | _ => 0 end)%nat.
Proof. unfold failures. rewrite count_snoc. destruct e; reflexivity. Qed.

Lemma nonce_uses_snoc l e :
  nonce_uses (l ++ [e])
  = (nonce_uses l + match e with LogUsingNonce _ _ => 1 | _ => 0 end)%nat.
Proof. unfold nonce_uses. rewrite count_snoc. destruct e; reflexivity. Qed.

Lemma terminal_in_app a l l' : terminal_in a l -> terminal_in a (l ++ l').
Proof. unfold terminal_in. intros [H | H]; [left | right]; apply in_or_app; auto. Qed.

Lemma ordered_from_snoc pre l e :
  ordered_from pre (l ++ [e]) <-> ordered_from pre l /\ entry_ok (pre ++ l) e.
Proof.
  revert pre. induction l as [|x l IH]; intros pre; cbn [app ordered_from].
  - rewrite app_nil_r. tauto.
  - rewrite IH, <- app_assoc. cbn [app]. tauto.
Qed.

Lemma ordered_snoc l e : ordered (l ++ [e]) <-> ordered l /\ entry_ok l e.
Proof. unfold ordered. rewrite ordered_from_snoc. reflexivity. Qed.

Lemma ordered_from_split p0 pre e post :
  ordered_from p0 (pre ++ e :: post) -> entry_ok (p0 ++ pre) e.
Proof.
  revert p0. induction pre as [|x pre IH]; intros p0; cbn [app ordered_from].
  - rewrite app_nil_r. tauto.
  - intros [_ H]. apply IH in H. rewrite <- app_assoc in H. exact H.
Qed.

(** In an ordered console every line meets its requirement. *)
Lemma ordered_split pre e post : ordered (pre ++ e :: post) -> entry_ok pre e.
Proof. intros H. exact (ordered_from_split [] pre e post H). Qed.

Lemma in_snoc {A : Type} (x e : A) (l : list A) :
  In x (l ++ [e]) <-> In x l \/ x = e.
Proof. rewrite in_app_iff. cbn. intuition auto. Qed.

Lemma removed_ids_in a st l : In (LogRemoved a st) l -> In a (removed_ids l).
Proof.
  intros H. unfold removed_ids. apply in_flat_map.
  exists (LogRemoved a st). cbn. auto.
Qed.

Lemma eqb_if_neq (a b : string) (x y : nat) :
  a <> b -> (if String.eqb a b then x else y) = y.
Proof. intros H. apply String.eqb_neq in H. rewrite H. reflexivity. Qed.

Lemma eqb_if_eq (a : string) (x y : nat) :
  (if String.eqb a a then x else y) = x.
Proof. rewrite String.eqb_refl. reflexivity. Qed.

(** ** The actions keep the console in agreement *)

Lemma agrees_head tx rest l n :
  Agrees (mkView (tx :: rest) l n) ->
  In (id tx) (queued_ids l) /\
  ~ In (id tx) (removed_ids l) /\
  (forall tx', In tx' rest -> id tx' <> id tx).
Proof.
  intros [Hids Hnd _ _ _ _ _ _ _]. cbn [v_queue v_console map] in *.
  rewrite Hids in Hnd. apply NoDup_remove_2 in Hnd.
  split; [rewrite Hids; apply in_or_app; right; left; reflexivity|].
  split.
  - intros H. apply Hnd. apply in_or_app. auto.
  - intros tx' Hin Heq. apply Hnd. apply in_or_app. right.
    rewrite <- Heq. apply in_map. exact Hin.
Qed.

Lemma agrees_quiet e q l n :
  quiet e = true ->
  Agrees (mkView q l n) -> Agrees (mkView q (l ++ [e]) n).
Proof.
  intros Hq [Hids Hnd Hord Hterm Hunq Hcnt Hcap Hfail Hnonce].
  cbn [v_queue v_console v_nonce] in *.
  assert (He : match e with
               | LogQueued _ _ | LogRemoved _ _ | LogProcessingTx _ _ | LogCompleted _
               | LogFailed _ _ | LogPermanentlyFailed _
               | LogNonceInitialized _ | LogUsingNonce _ _ => False
               | _ => True
               end) by (destruct e; try discriminate; exact I).
  constructor; cbn [v_queue v_console v_nonce];
    try setoid_rewrite queued_ids_snoc; try setoid_rewrite removed_ids_snoc;
    try setoid_rewrite dispatches_snoc; try setoid_rewrite failures_snoc;
    try rewrite nonce_reads_snoc; try rewrite nonce_uses_snoc;
    try rewrite ordered_snoc.
  all: destruct e; try contradiction;
    repeat rewrite app_nil_r; repeat setoid_rewrite Nat.add_0_r; auto.
  all: try (split; [assumption | exact I]).
  all: try (intros tx Hin Hrem; apply terminal_in_app; auto).
  all: try (intros a Hin; apply in_snoc in Hin; destruct Hin as [Hin | Hin];
            [auto | discriminate]).
  all: rewrite !Nat.add_0_r; assumption.
Qed.


Ltac open_agrees H :=
  destruct H as [Hids Hnd Hord Hterm Hunq Hcnt Hcap Hfail Hnonce];
  cbn [v_queue v_console v_nonce] in *.

Ltac snoc_simpl :=
  repeat first [rewrite queued_ids_snoc | rewrite removed_ids_snoc
               | rewrite dispatches_snoc | rewrite failures_snoc
               | rewrite nonce_reads_snoc | rewrite nonce_uses_snoc];
  cbn [app]; repeat rewrite app_nil_r; repeat rewrite Nat.add_0_r.

Ltac new_id Hna Hqueued :=
  let E := fresh in
  intros E; apply Hna; rewrite E; snoc_simpl; exact Hqueued.

Lemma agrees_push tx q l n :
  untouched tx ->
  NoDup (queued_ids l ++ [id tx]) ->
  Agrees (mkView q l n) ->
  Agrees (mkView (q ++ [tx]) (l ++ [LogQueued (id tx) (type tx)]) n).
Proof.
  intros (Hst & Hrc & _) Hfresh A. open_agrees A.
  assert (Hnew : ~ In (id tx) (queued_ids l)).
  { apply NoDup_remove_2 in Hfresh. rewrite app_nil_r in Hfresh. exact Hfresh. }
  constructor; cbn [v_queue v_console v_nonce].
  - snoc_simpl. rewrite map_app, Hids, <- app_assoc. reflexivity.
  - snoc_simpl. exact Hfresh.
  - rewrite ordered_snoc. split; [assumption | exact I].
  - intros tx' Hin Hrem. apply in_snoc in Hin. destruct Hin as [Hin | ->].
    + apply terminal_in_app. auto.
    + unfold removable in Hrem. rewrite Hst in Hrem. discriminate.
  - intros a Hna. snoc_simpl. apply Hunq. intros Hin. apply Hna.
    snoc_simpl. apply in_or_app. auto.
  - intros tx' Hin. snoc_simpl. apply in_snoc in Hin. destruct Hin as [Hin | ->].
    + auto.
    + destruct (Hunq _ Hnew) as [Hd Hf]. rewrite Hd, Hf, Hst, Hrc.
      cbn. unfold maxRetries. repeat split; lia.
  - intros a. snoc_simpl. apply Hcap.
  - intros a Hin. snoc_simpl. apply in_snoc in Hin.
    destruct Hin as [Hin | Hin]; [auto | discriminate].
  - snoc_simpl. exact Hnonce.
Qed.

Lemma agrees_dispatch env tx rest l n :
  status tx = PENDING \/ status tx = FAILED ->
  (retryCount tx < maxRetries)%nat ->
  Agrees (mkView (tx :: rest) l n) ->
  Agrees (mkView (begin_transaction env tx :: rest)
                 (l ++ [LogProcessingTx (id tx) (type tx)]) n).
Proof.
  intros Hst Hrc A.
  destruct (agrees_head _ _ _ _ A) as (Hqueued & Hnotrem & Hothers).
  open_agrees A.
  assert (Hflight : in_flight (status tx) = 0%nat) by (destruct Hst as [-> | ->]; reflexivity).
  destruct (Hcnt tx (or_introl eq_refl)) as (Hd & Hf & _).
  constructor; cbn [v_queue v_console v_nonce].
  - snoc_simpl. exact Hids.
  - snoc_simpl. exact Hnd.
  - rewrite ordered_snoc. split; [assumption|]. cbn [entry_ok map] in *. eauto.
  - intros tx' [<- | Hin] Hrem.
    + discriminate.
    + apply terminal_in_app. apply Hterm; [right|]; assumption.
  - intros a Hna.
    assert (Hne : a <> id tx) by new_id Hna Hqueued.
    assert (Hna' : ~ In a (queued_ids l)) by (intros ?; apply Hna; snoc_simpl; assumption).
    snoc_simpl. rewrite eqb_if_neq by exact Hne.
    rewrite Nat.add_0_r. auto.
  - intros tx' [<- | Hin]; snoc_simpl.
    + cbn [id status retryCount begin_transaction in_flight].
      rewrite eqb_if_eq, Hd, Hf, Hflight. repeat split; lia.
    + rewrite eqb_if_neq by auto. rewrite Nat.add_0_r. apply Hcnt. right. exact Hin.
  - intros a. snoc_simpl. destruct (String.eqb_spec a (id tx)) as [-> | Hne].
    + rewrite Hd, Hflight. lia.
    + rewrite Nat.add_0_r. apply Hcap.
  - intros a Hin. apply in_snoc in Hin. destruct Hin as [Hin | Hin]; [|discriminate].
    snoc_simpl. rewrite eqb_if_neq.
    + rewrite Nat.add_0_r. auto.
    + intros ->. apply Hnotrem. eapply removed_ids_in. exact Hin.
  - snoc_simpl. exact Hnonce.
Qed.

Lemma agrees_settle r tx rest l n :
  status tx = PROCESSING ->
  Agrees (mkView (tx :: rest) l n) ->
  Agrees (mkView (settle r tx :: rest) (write l (settle_log r tx)) n).
Proof.
  intros Hst A.
  destruct (agrees_head _ _ _ _ A) as (Hqueued & Hnotrem & Hothers).
  open_agrees A.
  destruct (Hcnt tx (or_introl eq_refl)) as (Hd & Hf & Hle).
  rewrite Hst in Hd, Hle. cbn [in_flight] in Hd, Hle.
  destruct r as [msg | v]; cbn [settle settle_log write fold_left].
  - (* failed *)
    set (e2 := if (S (retryCount tx) <? maxRetries)%nat
               then LogWillRetry (id tx) (S (retryCount tx) + 1) maxRetries
               else LogPermanentlyFailed (id tx)).
    assert (He2 : (e2 = LogWillRetry (id tx) (S (retryCount tx) + 1) maxRetries /\
                   (S (retryCount tx) < maxRetries)%nat) \/
                  (e2 = LogPermanentlyFailed (id tx) /\
                   (maxRetries <= S (retryCount tx))%nat)).
    { subst e2. destruct (Nat.ltb_spec (S (retryCount tx)) maxRetries); auto. }
    clearbody e2.
    constructor; cbn [v_queue v_console v_nonce].
    + snoc_simpl. destruct He2 as [[-> _] | [-> _]]; snoc_simpl; exact Hids.
    + snoc_simpl. destruct He2 as [[-> _] | [-> _]]; snoc_simpl; exact Hnd.
    + rewrite !ordered_snoc.
      destruct He2 as [[-> _] | [-> _]]; repeat split; try assumption; exact I.
    + intros tx' [<- | Hin] Hrem.
      * unfold removable in Hrem. cbn [status retryCount] in Hrem.
        apply Nat.leb_le in Hrem.
        destruct He2 as [[_ Hlt] | [-> _]]; [lia|].
        right. apply in_or_app. right. left. reflexivity.
      * rewrite <- app_assoc. apply terminal_in_app. apply Hterm; [right|]; assumption.
    + intros a Hna.
      assert (Hne : a <> id tx).
      { intros E. apply Hna. rewrite E.
        destruct He2 as [[-> _] | [-> _]]; snoc_simpl; exact Hqueued. }
      assert (Hna' : ~ In a (queued_ids l)).
      { intros ?. apply Hna.
        destruct He2 as [[-> _] | [-> _]]; snoc_simpl; assumption. }
      snoc_simpl.
      destruct He2 as [[-> _] | [-> _]]; snoc_simpl;
        rewrite eqb_if_neq by exact Hne; rewrite Nat.add_0_r; auto.
    + intros tx' [<- | Hin]; snoc_simpl.
      * cbn [id status retryCount in_flight].
        rewrite eqb_if_eq.
        destruct He2 as [[-> _] | [-> _]]; snoc_simpl; rewrite Hd, Hf;
          repeat split; lia.
      * destruct He2 as [[-> _] | [-> _]]; snoc_simpl;
          rewrite eqb_if_neq by auto; rewrite Nat.add_0_r; apply Hcnt; right; exact Hin.
    + intros a. destruct He2 as [[-> _] | [-> _]]; snoc_simpl; apply Hcap.
    + intros a Hin.
      assert (Hin' : In (LogRemoved a FAILED) l).
      { apply in_snoc in Hin. destruct Hin as [Hin | Hin];
          [|destruct He2 as [[-> _] | [-> _]]; discriminate].
        apply in_snoc in Hin. destruct Hin as [Hin | Hin]; [exact Hin | discriminate]. }
      assert (Hne : a <> id tx).
      { intros ->. apply Hnotrem. eapply removed_ids_in. exact Hin'. }
      destruct He2 as [[-> _] | [-> _]]; snoc_simpl;
        rewrite eqb_if_neq by exact Hne; rewrite Nat.add_0_r; auto.
    + destruct He2 as [[-> _] | [-> _]]; snoc_simpl; exact Hnonce.
  - (* completed *)
    constructor; cbn [v_queue v_console v_nonce].
    + snoc_simpl. exact Hids.
    + snoc_simpl. exact Hnd.
    + rewrite ordered_snoc. split; [assumption | exact I].
    + intros tx' [<- | Hin] Hrem.
      * left. apply in_or_app. right. left. reflexivity.
      * apply terminal_in_app. apply Hterm; [right|]; assumption.
    + intros a Hna. snoc_simpl. apply Hunq.
      intros ?. apply Hna. snoc_simpl. assumption.
    + intros tx' [<- | Hin]; snoc_simpl.
      * cbn [id status retryCount in_flight]. rewrite Hd, Hf. repeat split; lia.
      * apply Hcnt. right. exact Hin.
    + intros a. snoc_simpl. apply Hcap.
    + intros a Hin. apply in_snoc in Hin. destruct Hin as [Hin | Hin]; [|discriminate].
      snoc_simpl. auto.
    + snoc_simpl. exact Hnonce.
Qed.

Lemma agrees_remove tx rest l n :
  removable tx = true ->
  Agrees (mkView (tx :: rest) l n) ->
  Agrees (mkView rest (l ++ [LogRemoved (id tx) (status tx)]) n).
Proof.
  intros Hrem A.
  destruct (agrees_head _ _ _ _ A) as (Hqueued & Hnotrem & Hothers).
  open_agrees A.
  destruct (Hcnt tx (or_introl eq_refl)) as (Hd & Hf & Hle).
  constructor; cbn [v_queue v_console v_nonce].
  - snoc_simpl. rewrite Hids, <- app_assoc. reflexivity.
  - snoc_simpl. exact Hnd.
  - rewrite ordered_snoc. split; [assumption|]. cbn [entry_ok].
    apply Hterm; [left; reflexivity | exact Hrem].
  - intros tx' Hin Hr. apply terminal_in_app. apply Hterm; [right|]; assumption.
  - intros a Hna. snoc_simpl. apply Hunq.
    intros ?. apply Hna. snoc_simpl. assumption.
  - intros tx' Hin. snoc_simpl. apply Hcnt. right. exact Hin.
  - intros a. snoc_simpl. apply Hcap.
  - intros a Hin. snoc_simpl. apply in_snoc in Hin. destruct Hin as [Hin | Hin]; [auto|].
    injection Hin as -> Hst.
    unfold removable in Hrem. rewrite <- Hst in Hrem, Hd, Hle.
    apply Nat.leb_le in Hrem. cbn [in_flight] in Hd, Hle.
    split; lia.
  - snoc_simpl. exact Hnonce.
Qed.

Lemma agrees_nonce_init m q l :
  Agrees (mkView q l None) ->
  Agrees (mkView q (l ++ [LogNonceInitialized m]) (Some m)).
Proof.
  intros A. open_agrees A.
  constructor; cbn [v_queue v_console v_nonce]; snoc_simpl; auto.
  - rewrite ordered_snoc. split; [assumption | exact I].
  - intros tx Hin Hrem. apply terminal_in_app. auto.
  - intros a Hna. snoc_simpl. apply Hunq.
    intros ?. apply Hna. snoc_simpl. assumption.
  - intros tx Hin. snoc_simpl. auto.
  - intros a. snoc_simpl. auto.
  - intros a Hin. snoc_simpl. apply in_snoc in Hin.
    destruct Hin as [Hin | Hin]; [auto | discriminate].
  - destruct (nonce_reads l) as [|n0 [|n1 rest]]; cbn [app].
    + destruct Hnonce as [_ ->]. f_equal. cbn. lia.
    + discriminate.
    + contradiction.
Qed.

Lemma agrees_nonce_use m q l :
  Agrees (mkView q l (Some m)) ->
  Agrees (mkView q (l ++ [LogUsingNonce m (m + 1)]) (Some (m + 1))).
Proof.
  intros A. open_agrees A.
  constructor; cbn [v_queue v_console v_nonce]; snoc_simpl; auto.
  - rewrite ordered_snoc. split; [assumption | exact I].
  - intros tx Hin Hrem. apply terminal_in_app. auto.
  - intros a Hna. snoc_simpl. apply Hunq.
    intros ?. apply Hna. snoc_simpl. assumption.
  - intros tx Hin. snoc_simpl. auto.
  - intros a. snoc_simpl. auto.
  - intros a Hin. snoc_simpl. apply in_snoc in Hin.
    destruct Hin as [Hin | Hin]; [auto | discriminate].
  - destruct (nonce_reads l) as [|n0 [|n1 rest]]; cbn [app].
    + destruct Hnonce as [Hn _]. discriminate.
    + injection Hnonce as ->. f_equal. lia.
    + contradiction.
Qed.

(** A sequence of actions keeps the agreement, when the ids it enqueues
    are new, and adds these ids to the queued ones. *)
Lemma agrees_acts ids v v' :
  acts ids v v' ->
  Agrees v ->
  NoDup (queued_ids (v_console v) ++ ids) ->
  Agrees v' /\ queued_ids (v_console v') = queued_ids (v_console v) ++ ids.
Proof.
  induction 1 as [v | e q l n ids v Hacts IH Hq | tx q l n ids v Htx Hacts IH
                 | env tx rest l n ids v Hst Hrc Hacts IH
                 | r tx rest l n ids v Hst Hacts IH
                 | tx rest l n ids v Hrem Hacts IH
                 | m q l ids v Hacts IH | m q l ids v Hacts IH];
    intros A Hnd; cbn [v_console] in *.
  - rewrite app_nil_r. auto.
  - assert (Hsame : queued_ids (l ++ [e]) = queued_ids l).
    { rewrite queued_ids_snoc. destruct e; try discriminate; apply app_nil_r. }
    rewrite <- Hsame. apply IH; [apply agrees_quiet; assumption|].
    rewrite Hsame. exact Hnd.
  - assert (Hnd' : NoDup (queued_ids l ++ [id tx])).
    { replace (queued_ids l ++ id tx :: ids)
        with ((queued_ids l ++ [id tx]) ++ ids) in Hnd
        by (rewrite <- app_assoc; reflexivity).
      apply NoDup_app_remove_r in Hnd. exact Hnd. }
    destruct IH as [A' Hq'].
    + apply agrees_push; assumption.
    + rewrite queued_ids_snoc, <- app_assoc. exact Hnd.
    + split; [exact A'|]. rewrite Hq', queued_ids_snoc, <- app_assoc. reflexivity.
  - destruct IH as [A' Hq'].
    + apply agrees_dispatch; assumption.
    + snoc_simpl. exact Hnd.
    + split; [exact A'|]. rewrite Hq'. snoc_simpl. reflexivity.
  - assert (Hsame : queued_ids (write l (settle_log r tx)) = queued_ids l).
    { destruct r; cbn [settle_log write fold_left]; snoc_simpl; [|reflexivity].
      destruct (_ <? _)%nat; snoc_simpl; reflexivity. }
    destruct IH as [A' Hq'].
    + apply agrees_settle; assumption.
    + rewrite Hsame. exact Hnd.
    + split; [exact A'|]. rewrite Hq', Hsame. reflexivity.
  - destruct IH as [A' Hq'].
    + apply agrees_remove; assumption.
    + snoc_simpl. exact Hnd.
    + split; [exact A'|]. rewrite Hq'. snoc_simpl. reflexivity.
  - destruct IH as [A' Hq'].
    + apply agrees_nonce_init; assumption.
    + snoc_simpl. exact Hnd.
    + split; [exact A'|]. rewrite Hq'. snoc_simpl. reflexivity.
  - destruct IH as [A' Hq'].
    + apply agrees_nonce_use; assumption.
    + snoc_simpl. exact Hnd.
    + split; [exact A'|]. rewrite Hq'. snoc_simpl. reflexivity.
Qed.

(** ** What the loop leaves alone *)

Lemma process_finally_fields (env : Env) (s : State) :
  signer (process_finally env s) = signer s /\
  currentNonce (process_finally env s) = currentNonce s /\
  queue (process_finally env s) = queue s /\
  exists l, console (process_finally env s) = console s ++ l.
Proof.
  unfold process_finally. simp_state.
  destruct (queue s) as [|tx rest] eqn:Hq; [|destruct (find retryable (tx :: rest))];
    simp_state; repeat split; auto.
  - eauto.
  - rewrite <- app_assoc. eauto.
  - eauto.
Qed.

Lemma process_while_fields (env : Env) (q : list Tx) (s : State) :
  signer (process_while env q s) = signer s /\
  currentNonce (process_while env q s) = currentNonce s /\
  exists l, console (process_while env q s) = console s ++ l.
Proof.
  revert s. induction q as [|tx rest IH]; intros s; cbn [process_while].
  - destruct (process_finally_fields env (set_queue [] s)) as (H1 & H2 & _ & H3).
    auto.
  - destruct (status tx); simp_state.
    + repeat split. eauto.
    + repeat split. exists []. rewrite app_nil_r. reflexivity.
    + destruct (IH (log (LogRemoved (id tx) COMPLETED) (set_queue rest s)))
        as (H1 & H2 & l & H3).
      simp_state. repeat split; auto. rewrite H3, <- app_assoc. eauto.
    + repeat split. eauto.
Qed.

Lemma process_fields (env : Env) (s : State) :
  signer (process env s) = signer s /\
  currentNonce (process env s) = currentNonce s /\
  exists l, console (process env s) = console s ++ l.
Proof.
  unfold process.
  destruct (processing s); [simp_state; repeat split; eauto|].
  destruct (queue s) eqn:Hq; [simp_state; repeat split; eauto|].
  destruct (signer s) eqn:Hsg; [|simp_state; repeat split; eauto].
  simp_state. destruct (currentNonce s) eqn:Hn.
  - match goal with |- context [process_while env ?q ?st] =>
      destruct (process_while_fields env q st) as (H1 & H2 & lw & H3)
    end.
    simp_state. rewrite H1, H2, H3, <- app_assoc. repeat split; eauto.
  - simp_state. repeat split; eauto.
Qed.




(** ** The nonce counter *)


Section Machine.

Variable isAddress : Val -> bool.
Variable toString : Val -> string.

Local Abbreviation validateTransaction := (validateTransaction isAddress toString).
Local Abbreviation enqueue := (enqueue isAddress toString).
Local Abbreviation step := (step isAddress toString).
Local Abbreviation run := (run isAddress toString).
Local Abbreviation uuids := (uuids isAddress toString).

Lemma enqueue_ok (env : Env) (t : Val) (uuid : string) (s : State) :
  Shape s ->
  Shape (fst (enqueue env t uuid s)) /\
  acts (uuids [(env, CallEnqueue t uuid)]) (view s) (view (fst (enqueue env t uuid s))).
Proof.
  intros Hs. unfold TransactionQueue.enqueue, Vocabulary.uuids. cbn [flat_map snd].
  destruct (validateTransaction t) as [msg | ty]; cbn [fst app].
  - split; [exact Hs|]. unfold view; simp_state.
    quietly (apply acts_done).
  - set (tx := mkTx uuid ty (get t "data") PENDING 0 (now env) None None None).
    assert (Htx : untouched tx) by (repeat split).
    simp_state.
    set (s2 := log (LogQueueSize (List.length (queue s ++ [tx])))
                   (log (LogQueued uuid ty) (set_queue (queue s ++ [tx]) s))).
    assert (Hs2 : Shape s2).
    { unfold Shape in *. subst s2. simp_state.
      destruct (pc s); cbn [shape] in *; intuition auto using idle_queue_push, busy_queue_push. }
    assert (Hpush : acts [uuid] (view s) (view s2)).
    { unfold view. subst s2. simp_state.
      apply acts_push with (tx := tx); [exact Htx|]. cbn [id type tx].
      quietly (apply acts_done). }
    destruct (processing s) eqn:Hflag.
    + auto.
    + destruct (process_ok env s2 Hs2) as [Hshape Hacts].
      split; [exact Hshape|].
      apply (acts_trans [uuid] [] _ _ _ Hpush Hacts).
Qed.

Lemma in_model_shape (s : State) : Shape s -> in_model s = true.
Proof.
  unfold Shape, in_model. destruct (pc s); cbn [shape]; intuition auto.
Qed.

(** Every segment keeps the shape and is a sequence of actions. *)
Lemma step_ok (env : Env) (e : Event) (s s' : State) :
  Shape s -> step env e s = Some s' ->
  Shape s' /\ acts (uuids [(env, e)]) (view s) (view s').
Proof.
  intros Hs. unfold TransactionQueue.step. rewrite (in_model_shape s Hs). cbn [negb].
  destruct e as [t u | | k | r | r | | sg |].
  - intros [= <-]. apply enqueue_ok. exact Hs.
  - intros [= <-]. apply process_ok. exact Hs.
  - destruct (nth_error (timers s) k); [|discriminate]. intros [= <-].
    apply (process_ok env (set_timers (remove_nth k (timers s)) s)). exact Hs.
  - destruct (pc s) eqn:Hpc; try discriminate. intros [= <-].
    apply nonce_resolved_ok; assumption.
  - destruct (pc s) eqn:Hpc; try discriminate.
    destruct (queue s) eqn:Hq; [discriminate|]. intros [= <-].
    apply submit_resolved_ok; assumption.
  - unfold getNextNonce. destruct (currentNonce s) as [n|] eqn:Hn; intros [= <-].
    + split.
      * unfold Shape in *. simp_state.
        destruct (pc s); cbn [shape] in *; intuition congruence.
      * unfold view, Vocabulary.uuids; simp_state. rewrite Hn.
        apply acts_nonce_use. apply acts_done.
    + split; [exact Hs|]. apply acts_done.
  - intros [= <-]. split; [exact Hs|].
    unfold view, Vocabulary.uuids; simp_state. quietly (apply acts_done).
  - intros Heq.
    assert (Hs' : s' = snd (clearCompleted s)) by congruence.
    rewrite Hs'. clear Heq Hs'.
    destruct (clearCompleted_shape s Hs) as (Hq & Hc & Hrest).
    split.
    + unfold Shape in *. rewrite Hq. destruct Hrest as (-> & -> & ->). exact Hs.
    + unfold view. rewrite Hq, Hc. destruct Hrest as (_ & _ & ->). apply acts_done.
Qed.

(** ** Runs *)

Lemma new_shape (sg : option string) : Shape (new sg).
Proof. cbn. auto. Qed.

Lemma new_agrees (sg : option string) : Agrees (view (new sg)).
Proof.
  constructor; cbn [view new v_queue v_console v_nonce queue console currentNonce].
  - reflexivity.
  - constructor.
  - cbn. auto.
  - intros tx [].
  - intros a _. split; reflexivity.
  - intros tx [].
  - intros a. cbn. unfold maxRetries. lia.
  - intros a [H | []]. discriminate.
  - cbn. auto.
Qed.

Lemma uuids_cons (ev : Env * Event) (evs : list (Env * Event)) :
  uuids (ev :: evs) = uuids [ev] ++ uuids evs.
Proof. unfold Vocabulary.uuids. cbn [flat_map]. rewrite app_nil_r. reflexivity. Qed.

Lemma run_ok (evs : list (Env * Event)) (s s' : State) :
  Shape s -> Agrees (view s) ->
  NoDup (queued_ids (console s) ++ uuids evs) ->
  run evs s = Some s' ->
  Shape s' /\ Agrees (view s').
Proof.
  revert s. induction evs as [|[env e] evs IH]; intros s Hs A Hnd; cbn [TransactionQueue.run].
  - intros [= <-]. auto.
  - destruct (step env e s) as [s1|] eqn:Hstep; [|discriminate].
    intros Hrun.
    destruct (step_ok env e s s1 Hs Hstep) as [Hs1 Hacts].
    rewrite uuids_cons, app_assoc in Hnd.
    destruct (agrees_acts _ _ _ Hacts A) as [A1 Hq1].
    { cbn [view v_console]. apply NoDup_app_remove_r in Hnd. exact Hnd. }
    cbn [view v_console] in Hq1.
    apply (IH s1 Hs1 A1); [|exact Hrun].
    rewrite Hq1. exact Hnd.
Qed.

(** Every state of a run in which the ids drawn are distinct has the
    shape of its program point and a console that agrees with it. *)
Lemma run_from_new (sg : option string) (evs : list (Env * Event)) (s : State) :
  NoDup (uuids evs) ->
  run evs (new sg) = Some s ->
  Shape s /\ Agrees (view s).
Proof.
  intros Hnd Hrun.
  apply (run_ok evs (new sg) s (new_shape sg) (new_agrees sg)); [|exact Hrun].
  cbn. exact Hnd.
Qed.

(** ** Order of dispatch *)

Lemma NoDup_split_unique {A : Type} (b : A) (l1 l2 l1' l2' : list A) :
  NoDup (l1 ++ b :: l2) ->
  l1 ++ b :: l2 = l1' ++ b :: l2' ->
  l1 = l1'.
Proof.
  revert l1'. induction l1 as [|x l1 IH]; intros l1' Hnd Heq.
  - destruct l1' as [|y l1']; [reflexivity|].
    cbn in Heq. injection Heq as <- Heq.
    apply NoDup_cons_iff in Hnd. destruct Hnd as [Hnin _].
    exfalso. apply Hnin. rewrite Heq. apply in_or_app. right. left. reflexivity.
  - destruct l1' as [|y l1'].
    + cbn in Heq. injection Heq as -> Heq.
      cbn in Hnd. apply NoDup_cons_iff in Hnd. destruct Hnd as [Hnin _].
      exfalso. apply Hnin. apply in_or_app. right. left. reflexivity.
    + cbn in Heq. injection Heq as <- Heq.
      cbn in Hnd. apply NoDup_cons_iff in Hnd. destruct Hnd as [_ Hnd].
      f_equal. apply IH; assumption.
Qed.

Lemma queued_ids_app l l' : queued_ids (l ++ l') = queued_ids l ++ queued_ids l'.
Proof. unfold queued_ids. apply flat_map_app. Qed.

Lemma removed_ids_in_inv a l : In a (removed_ids l) -> exists st, In (LogRemoved a st) l.
Proof.
  unfold removed_ids. intros H. apply in_flat_map in H.
  destruct H as (e & Hin & Ha). destruct e; cbn in Ha; try contradiction.
  destruct Ha as [<- | []]. eauto.
Qed.

Lemma dispatches_line a l :
  (0 < dispatches a l)%nat -> exists pre ty post, l = pre ++ LogProcessingTx a ty :: post.
Proof.
  unfold dispatches. intros H.
  destruct (filter _ l) as [|e es] eqn:Hf; [cbn in H; lia|].
  assert (Hin : In e (filter
            (fun e => match e with LogProcessingTx j _ => String.eqb a j | _ => false end) l))
    by (rewrite Hf; left; reflexivity).
  apply filter_In in Hin. destruct Hin as [Hin He].
  destruct e; try discriminate. apply String.eqb_eq in He. subst.
  apply in_split in Hin. destruct Hin as (pre & post & ->). eauto.
Qed.

(** C1, amended.  In every run (calls of [enqueue], [process],
    [getNextNonce] and [setProviderAndSigner], timers, and the settling
    of the awaited promises, calls of [clearCompleted] between segments,
    with distinct ids drawn; no call of [clearAll]), whenever a
    transaction B is
    dispatched -- marked PROCESSING, the "Processing transaction" line
    written -- every transaction A enqueued before B has by then reached a
    terminal state: it completed, or it failed with no retry left.  In
    every state of the run the transactions behind the head of the queue
    are pending and were never attempted: only the head is dispatched.
    And a queued transaction whose status is PROCESSING has its
    "Processing transaction" line on the console. *)
Theorem dispatch_follows_enqueue_order
        (sg : option string) (evs : list (Env * Event)) (s : State) :
  NoDup (uuids evs) ->
  run evs (new sg) = Some s ->
  (forall pre post a b ty,
     console s = pre ++ LogProcessingTx b ty :: post ->
     queued_before a b pre ->
     terminal_in a pre) /\
  (forall tx rest, queue s = tx :: rest -> Forall untouched rest) /\
  (forall tx, In tx (queue s) -> status tx = PROCESSING ->
              exists pre ty post, console s = pre ++ LogProcessingTx (id tx) ty :: post).
Proof.
  intros Hnd Hrun.
  destruct (run_from_new sg evs s Hnd Hrun) as [Hshape A].
  split; [|split].
  - intros pre post a b ty Hcons (l1 & l2 & l3 & ta & tb & Hpre).
    destruct A as [_ Hnodup Hord _ _ _ _ _ _]. cbn [view v_console] in *.
    rewrite Hcons in Hord, Hnodup.
    pose proof (ordered_split _ _ _ Hord) as Hdisp. cbn [entry_ok] in Hdisp.
    destruct Hdisp as [rest Hq].
    rewrite queued_ids_app in Hnodup. apply NoDup_app_remove_r in Hnodup.
    assert (Hq' : queued_ids pre
                  = (queued_ids l1 ++ a :: queued_ids l2) ++ b :: queued_ids l3).
    { rewrite Hpre. rewrite queued_ids_app. cbn [queued_ids flat_map app].
      fold (queued_ids (l2 ++ LogQueued b tb :: l3)).
      rewrite queued_ids_app. cbn [queued_ids flat_map app].
      fold (queued_ids l3). rewrite <- app_assoc. reflexivity. }
    assert (Hrem : removed_ids pre = queued_ids l1 ++ a :: queued_ids l2).
    { apply (NoDup_split_unique b _ rest _ (queued_ids l3)).
      - rewrite <- Hq. exact Hnodup.
      - rewrite <- Hq. exact Hq'. }
    assert (Hin : In a (removed_ids pre)).
    { rewrite Hrem. apply in_or_app. right. left. reflexivity. }
    apply removed_ids_in_inv in Hin. destruct Hin as [st Hin].
    apply in_split in Hin. destruct Hin as (p1 & p2 & Hp).
    rewrite Hp, <- app_assoc in Hord. cbn [app] in Hord.
    apply ordered_split in Hord. cbn [entry_ok] in Hord.
    rewrite Hp. apply terminal_in_app. exact Hord.
  - intros tx rest Hq. unfold Shape in Hshape. rewrite Hq in Hshape.
    destruct (pc s); cbn in Hshape; tauto.
  - intros tx Hin Hst.
    destruct (agrees_counts _ A tx Hin) as (Hd & _ & _).
    cbn [view v_console] in Hd. rewrite Hst in Hd. cbn [in_flight] in Hd.
    apply dispatches_line. lia.
Qed.

(** ** Status after removal *)

(** C4.  What the code does instead: in every run with distinct ids,
    once a transaction has been removed from the queue -- which happens
    only after it reached a terminal state, in the segment in which it
    reached it -- [getStatus] with its id returns null.  The result or the
    error of a finished transaction is kept nowhere. *)
Theorem getStatus_after_removal_is_null
        (sg : option string) (evs : list (Env * Event)) (s : State) (a : string) (st : Status) :
  NoDup (uuids evs) ->
  run evs (new sg) = Some s ->
  In (LogRemoved a st) (console s) ->
  terminal_in a (console s) /\ getStatus a s = None.
Proof.
  intros Hnd Hrun Hin.
  destruct (run_from_new sg evs s Hnd Hrun) as [_ A].
  destruct A as [Hids Hnodup Hord _ _ _ _ _ _]. cbn [view v_console v_queue] in *.
  split.
  - apply in_split in Hin. destruct Hin as (p1 & p2 & Hp).
    rewrite Hp in Hord. apply ordered_split in Hord. cbn [entry_ok] in Hord.
    rewrite Hp. apply terminal_in_app. exact Hord.
  - unfold getStatus.
    destruct (find (fun tx => String.eqb (id tx) a) (queue s)) as [tx|] eqn:Hfind;
      [|reflexivity].
    exfalso. apply find_some in Hfind. destruct Hfind as [Hq Heq].
    apply String.eqb_eq in Heq.
    rewrite Hids in Hnodup.
    apply removed_ids_in in Hin.
    apply in_split in Hin. destruct Hin as (r1 & r2 & Hr).
    rewrite Hr, <- app_assoc in Hnodup. cbn [app] in Hnodup.
    apply NoDup_remove_2 in Hnodup. apply Hnodup.
    apply in_or_app. right. apply in_or_app. right.
    rewrite <- Heq. apply in_map. exact Hq.
Qed.

(** ** Retrying *)

Lemma enqueue_fields (env : Env) (t : Val) (uuid : string) (s : State) :
  signer (fst (enqueue env t uuid s)) = signer s /\
  currentNonce (fst (enqueue env t uuid s)) = currentNonce s.
Proof.
  unfold TransactionQueue.enqueue.
  destruct (validateTransaction t); cbn [fst]; [simp_state; auto|].
  simp_state. destruct (processing s); [simp_state; auto|].
  match goal with |- context [process env ?st] =>
    destruct (process_fields env st) as (H1 & H2 & _)
  end.
  auto.
Qed.


Lemma step_quiet_inv (env : Env) (e : Event) (s s' : State) :
  Shape s -> Agrees (view s) ->
  uuids [(env, e)] = [] ->
  step env e s = Some s' ->
  Shape s' /\ Agrees (view s').
Proof.
  intros Hs A Hu Hstep.
  destruct (step_ok env e s s' Hs Hstep) as [Hs' Hacts].
  split; [exact Hs'|].
  rewrite Hu in Hacts.
  apply (agrees_acts _ _ _ Hacts A).
  rewrite app_nil_r. apply A.
Qed.



Lemma removed_not_queued (v : View) (a : string) (st : Status) :
  Agrees v -> In (LogRemoved a st) (v_console v) -> ~ In a (map id (v_queue v)).
Proof.
  intros [Hids Hnodup _ _ _ _ _ _ _] Hin Hq.
  rewrite Hids in Hnodup.
  apply removed_ids_in in Hin.
  apply in_split in Hin. destruct Hin as (r1 & r2 & Hr).
  rewrite Hr, <- app_assoc in Hnodup. cbn [app] in Hnodup.
  apply NoDup_remove_2 in Hnodup. apply Hnodup.
  apply in_or_app. right. apply in_or_app. right. exact Hq.
Qed.

Lemma getStatus_not_queued (a : string) (s : State) :
  ~ In a (map id (queue s)) -> getStatus a s = None.
Proof.
  intros Hn. unfold getStatus.
  destruct (find (fun tx => String.eqb (id tx) a) (queue s)) as [tx|] eqn:Hfind;
    [|reflexivity].
  exfalso. apply find_some in Hfind. destruct Hfind as [Hq Heq].
  apply String.eqb_eq in Heq. apply Hn. rewrite <- Heq. apply in_map. exact Hq.
Qed.



(** C3, amended.  Marking a transaction in flight sets its status and its
    last-attempt time and leaves the retry count as it is; the count is
    incremented when a submission fails.  So in every run with distinct
    ids, a transaction in flight whose submission has failed exactly
    twice is in its third dispatch with a count of 2, and when the
    submission succeeds it is COMPLETED with [retryCount = 2], its result
    stored and its error cleared, and it is removed from the queue. *)
Theorem completes_with_count_of_failures
        (sg : option string) (evs : list (Env * Event)) (s : State)
        (tx : Tx) (rest : list Tx) :
  NoDup (uuids evs) ->
  run evs (new sg) = Some s ->
  pc s = AwaitSubmit -> queue s = tx :: rest ->
  failures (id tx) (console s) = 2%nat ->
  (forall env tx0,
     status (begin_transaction env tx0) = PROCESSING /\
     lastAttempt (begin_transaction env tx0) = Some (now env) /\
     retryCount (begin_transaction env tx0) = retryCount tx0) /\
  (forall msg tx0, retryCount (settle (inl msg) tx0) = S (retryCount tx0)) /\
  status tx = PROCESSING /\
  retryCount tx = 2%nat /\
  dispatches (id tx) (console s) = 3%nat /\
  (forall env v,
     status (settle (inr v) tx) = COMPLETED /\
     retryCount (settle (inr v) tx) = 2%nat /\
     result (settle (inr v) tx) = Some v /\
     error (settle (inr v) tx) = None /\
     exists s',
       step env (SubmitResolved (inr v)) s = Some s' /\
       In (LogCompleted (id tx)) (console s') /\
       In (LogRemoved (id tx) COMPLETED) (console s') /\
       getStatus (id tx) s' = None).
Proof.
  intros Hnd Hrun Hpc Hq Hfail.
  destruct (run_from_new sg evs s Hnd Hrun) as [Hs A].
  assert (Hst : status tx = PROCESSING).
  { unfold Shape in Hs. rewrite Hpc, Hq in Hs. cbn in Hs. tauto. }
  destruct (agrees_counts _ A tx) as (Hd & Hf & _).
  { cbn [view v_queue]. rewrite Hq. left. reflexivity. }
  cbn [view v_console] in Hd, Hf. rewrite Hst in Hd. cbn [in_flight] in Hd.
  assert (Hrc : retryCount tx = 2%nat) by congruence.
  split; [intros; repeat split|]. split; [reflexivity|].
  split; [exact Hst|]. split; [exact Hrc|]. split; [lia|].
  intros env v. cbn [settle status retryCount result error].
  repeat split; auto.
  destruct (step env (SubmitResolved (inr v)) s) as [s'|] eqn:Hstep.
  - destruct (step_quiet_inv env (SubmitResolved (inr v)) s s' Hs A eq_refl Hstep)
      as [Hs' A'].
    assert (Hcons : exists l, console s'
              = console s ++ [LogCompleted (id tx); LogRemoved (id tx) COMPLETED] ++ l).
    { revert Hstep. unfold TransactionQueue.step.
      rewrite (in_model_shape s Hs), Hpc, Hq. cbn [negb]. intros [= <-].
      unfold resolve_submission. rewrite Hq. cbn [settle settle_log fold_left].
      unfold after_transaction. simp_state. unfold removable. cbn [status id].
      match goal with |- context [process_while env rest ?st] =>
        destruct (process_while_fields env rest st) as (_ & _ & l & Hl)
      end.
      simp_state. exists l. rewrite Hl, <- !app_assoc. reflexivity. }
    destruct Hcons as [l Hcons].
    assert (Hrem : In (LogRemoved (id tx) COMPLETED) (console s')).
    { rewrite Hcons. apply in_or_app. right. cbn. auto. }
    exists s'. repeat split; auto.
    + rewrite Hcons. apply in_or_app. right. cbn. auto.
    + apply getStatus_not_queued.
      apply (removed_not_queued (view s') _ _ A' Hrem).
  - exfalso. revert Hstep. unfold TransactionQueue.step.
    rewrite (in_model_shape s Hs), Hpc, Hq. cbn [negb]. discriminate.
Qed.



End Machine.

Import Samples.

Lemma enqueue_rejects_malformed_witness :
  exists msg,
    msg <> ""%string /\
    validateTransaction hex_address show
      (log_tx (log_data player (num (-1 # 1)) (num (1 # 2)) roulette_result)) = inl msg /\
    enqueue hex_address show env0
      (log_tx (log_data player (num (-1 # 1)) (num (1 # 2)) roulette_result))
      "tx-1" (new None)
    = (log (LogEnqueueFailed msg) (new None), inl msg) /\
    enqueue_call hex_address show env0
      (log_tx (log_data player (num (-1 # 1)) (num (1 # 2)) roulette_result))
      "tx-1" (new None)
    = (log (LogEnqueueFailed msg) (new None), Returns (Rejected msg)) /\
    queue (fst (enqueue hex_address show env0
      (log_tx (log_data player (num (-1 # 1)) (num (1 # 2)) roulette_result))
      "tx-1" (new None))) = queue (new None) /\
    List.length (queue (fst (enqueue hex_address show env0
      (log_tx (log_data player (num (-1 # 1)) (num (1 # 2)) roulette_result))
      "tx-1" (new None)))) = List.length (queue (new None)).
Proof.
  apply (enqueue_rejects_malformed hex_address show env0
           (log_tx (log_data player (num (-1 # 1)) (num (1 # 2)) roulette_result))
           "tx-1" (new None)).
  left. split; [reflexivity|]. right; left. reflexivity.
Defined.

(** C6 as stated fails: the call with a negative bet amount returns a
    promise; it does not throw. *)
Lemma enqueue_throws_synchronously_fails : ~ enqueue_throws_synchronously hex_address show.
Proof.
  intros H.
  destruct (H env0 (log_tx (log_data player (num (-1 # 1)) (num (1 # 2)) roulette_result))
              "tx-1"%string (new None)) as [msg Hm].
  - left. split; [reflexivity|]. right; left. reflexivity.
  - unfold enqueue_call, async in Hm. cbn [snd] in Hm. discriminate.
Qed.

Lemma process_without_signer_is_noop_witness :
  let calls := [(at_time 1, valid_log, "tx-1"%string); (at_time 2, valid_nft, "tx-2"%string)] in
  let s := enqueue_all hex_address show calls (new None) in
  queue (process env0 s) = queue s /\
  total (getStats (process env0 s)) = 2%nat /\
  pending (getStats (process env0 s)) = 2%nat.
Proof.
  assert (Hs : signer (new None) = None) by reflexivity.
  assert (Hv : Forall (fun c => exists ty,
                         validateTransaction hex_address show (snd (fst c)) = inr ty)
                      [(at_time 1, valid_log, "tx-1"%string);
                       (at_time 2, valid_nft, "tx-2"%string)]).
  { repeat constructor; eexists; reflexivity. }
  pose proof (process_without_signer_is_noop hex_address show _ env0 _ Hs Hv) as H.
  cbv zeta in *.
  destruct H as (_ & Hq & _ & _ & Hn). split; [exact Hq|]. exact (Hn eq_refl).
Defined.

(** ** Statistics *)

Lemma getStats_fold_processing (q : list Tx) (st : Stats) :
  stats_processing (fold_left count_status q st)
  = Nat.iter (count_in PROCESSING q) incr (stats_processing st).
Proof.
  revert st. induction q as [|tx q IH]; intros st; cbn [fold_left]; [reflexivity|].
  rewrite IH. unfold count_status, count_in. cbn [filter].
  destruct (status tx); cbn [stats_processing Status_eqb List.length]; try reflexivity.
  symmetry. apply Nat.iter_succ_r.
Qed.

(** The one [processing] property of the result starts as the flag
    [this.processing] and is incremented once for every transaction in
    flight. *)
Lemma getStats_flag_incremented (s : State) :
  stats_processing (getStats s)
  = Nat.iter (count_in PROCESSING (queue s)) incr (Bool (processing s)).
Proof. unfold getStats. rewrite getStats_fold_processing. reflexivity. Qed.

(** C9.  While the first transaction of a queue is in flight (enqueued,
    nonce read, submission awaited), the loop is active and one
    transaction is in the PROCESSING state; the result of [getStats] has
    one [processing] property, whose value is the number 2: neither the
    in-flight count 1 nor the flag [true].  The two are not distinct
    fields. *)
Theorem getStats_processing_key_collides :
  exists s,
    run hex_address show
        [(at_time 1, CallEnqueue valid_log "tx-1");
         (at_time 2, NonceResolved (inr 7))]
        (new (Some "signer"%string)) = Some s /\
    processing s = true /\
    count_in PROCESSING (queue s) = 1%nat /\
    total (getStats s) = 1%nat /\
    stats_processing (getStats s) = Num (Fin 2) /\
    stats_processing (getStats s) <> Num (Fin 1) /\
    stats_processing (getStats s) <> Bool true.
Proof.
  eexists. split; [vm_compute; reflexivity|].
  repeat split; try (vm_compute; reflexivity); vm_compute; discriminate.
Qed.

(** ** The theorems on the runs of the examples *)

Ltac distinct_strings :=
  vm_compute; repeat constructor; simpl; intuition discriminate.

Lemma dispatch_follows_enqueue_order_witness :
  NoDup (uuids hex_address show run_two) /\
  run hex_address show run_two (new (Some "signer"%string)) = Some (state_after run_two) /\
  (forall pre post a b ty,
     console (state_after run_two) = pre ++ LogProcessingTx b ty :: post ->
     queued_before a b pre ->
     terminal_in a pre) /\
  (forall tx rest, queue (state_after run_two) = tx :: rest -> Forall untouched rest) /\
  exists pre,
    console (state_after run_two) = pre ++ [LogProcessingTx "b" NFT] /\
    queued_before "a" "b" pre /\
    terminal_in "a" pre.
Proof.
  assert (Hnd : NoDup (uuids hex_address show run_two)) by distinct_strings.
  assert (Hrun : run hex_address show run_two (new (Some "signer"%string))
                 = Some (state_after run_two)) by (vm_compute; reflexivity).
  split; [exact Hnd|]. split; [exact Hrun|].
  destruct (dispatch_follows_enqueue_order hex_address show _ _ _ Hnd Hrun)
    as (Horder & Hbehind & _).
  split; [exact Horder|]. split; [exact Hbehind|].
  exists [LogInitialized; LogQueued "a" LOG; LogQueueSize 1; LogStarting;
          LogQueued "b" NFT; LogQueueSize 2; LogNonceInitialized 7;
          LogProcessingTx "a" LOG; LogCompleted "a"; LogRemoved "a" COMPLETED].
  assert (Hc : console (state_after run_two)
               = [LogInitialized; LogQueued "a" LOG; LogQueueSize 1; LogStarting;
                  LogQueued "b" NFT; LogQueueSize 2; LogNonceInitialized 7;
                  LogProcessingTx "a" LOG; LogCompleted "a"; LogRemoved "a" COMPLETED]
                 ++ [LogProcessingTx "b" NFT]) by (vm_compute; reflexivity).
  assert (Hqb : queued_before "a" "b"
                  [LogInitialized; LogQueued "a" LOG; LogQueueSize 1; LogStarting;
                   LogQueued "b" NFT; LogQueueSize 2; LogNonceInitialized 7;
                   LogProcessingTx "a" LOG; LogCompleted "a"; LogRemoved "a" COMPLETED]).
  { exists [LogInitialized], [LogQueueSize 1; LogStarting],
           [LogQueueSize 2; LogNonceInitialized 7; LogProcessingTx "a" LOG;
            LogCompleted "a"; LogRemoved "a" COMPLETED], LOG, NFT.
    reflexivity. }
  split; [exact Hc|]. split; [exact Hqb|].
  exact (Horder _ _ _ _ _ Hc Hqb).
Defined.

(** C1 as stated fails: A is in flight, [clearAll] is called, B is
    enqueued; B is dispatched, and A has reached no terminal state. *)
Lemma dispatch_order_with_clearAll_fails : ~ dispatch_order_with_clearAll hex_address show.
Proof.
  intros H.
  assert (Ht : terminal_in "a"
                 [LogInitialized; LogQueued "a" LOG; LogQueueSize 1; LogStarting;
                  LogNonceInitialized 7; LogProcessingTx "a" LOG; LogClearedAll 1;
                  LogQueued "b" NFT; LogQueueSize 1; LogStarting]).
  { apply (H (Some "signer"%string) run_in_flight (state_after run_in_flight)
             (at_time 5) valid_nft "b"%string _ [] "a"%string "b"%string NFT).
    - distinct_strings.
    - vm_compute. reflexivity.
    - vm_compute. reflexivity.
    - exists [LogInitialized],
             [LogQueueSize 1; LogStarting; LogNonceInitialized 7;
              LogProcessingTx "a" LOG; LogClearedAll 1],
             [LogQueueSize 1; LogStarting], LOG, NFT.
      reflexivity. }
  destruct Ht as [Ht | Ht]; cbn in Ht; intuition discriminate.
Qed.


Lemma completes_with_count_of_failures_witness :
  NoDup (uuids hex_address show run_two_failures) /\
  run hex_address show run_two_failures (new (Some "signer"%string))
  = Some (state_after run_two_failures) /\
  queue (state_after run_two_failures) = [a_third_attempt] /\
  failures "a" (console (state_after run_two_failures)) = 2%nat /\
  dispatches "a" (console (state_after run_two_failures)) = 3%nat /\
  status (settle (inr receipt) a_third_attempt) = COMPLETED /\
  retryCount (settle (inr receipt) a_third_attempt) = 2%nat.
Proof.
  assert (Hnd : NoDup (uuids hex_address show run_two_failures)) by distinct_strings.
  assert (Hrun : run hex_address show run_two_failures (new (Some "signer"%string))
                 = Some (state_after run_two_failures)) by (vm_compute; reflexivity).
  assert (Hq : queue (state_after run_two_failures) = [a_third_attempt])
    by (vm_compute; reflexivity).
  assert (Hfail : failures (id a_third_attempt) (console (state_after run_two_failures))
                  = 2%nat) by (vm_compute; reflexivity).
  split; [exact Hnd|]. split; [exact Hrun|]. split; [exact Hq|]. split; [exact Hfail|].
  destruct (completes_with_count_of_failures hex_address show _ _ _ a_third_attempt []
              Hnd Hrun eq_refl Hq Hfail)
    as (_ & _ & _ & _ & Hdisp & Hdone).
  destruct (Hdone env0 receipt) as (Hst & Hrc & _).
  auto.
Defined.

(** C3 as stated fails: after two failures the transaction completes with
    a count of 2. *)
Lemma completes_with_count_3_fails : ~ completes_with_count_3 hex_address show.
Proof.
  intros H.
  assert (Hnd : NoDup (uuids hex_address show run_two_failures)) by distinct_strings.
  destruct (H (Some "signer"%string) run_two_failures (state_after run_two_failures)
              a_third_attempt [] receipt Hnd) as [_ Hrc];
    try (vm_compute; reflexivity).
  vm_compute in Hrc. discriminate.
Qed.

Lemma getStatus_after_removal_is_null_witness :
  NoDup (uuids hex_address show run_completed) /\
  run hex_address show run_completed (new (Some "signer"%string))
  = Some (state_after run_completed) /\
  In (LogRemoved "a" COMPLETED) (console (state_after run_completed)) /\
  terminal_in "a" (console (state_after run_completed)) /\
  getStatus "a" (state_after run_completed) = None.
Proof.
  assert (Hnd : NoDup (uuids hex_address show run_completed)) by distinct_strings.
  assert (Hrun : run hex_address show run_completed (new (Some "signer"%string))
                 = Some (state_after run_completed)) by (vm_compute; reflexivity).
  assert (Hin : In (LogRemoved "a" COMPLETED) (console (state_after run_completed))).
  { vm_compute. intuition auto. }
  split; [exact Hnd|]. split; [exact Hrun|]. split; [exact Hin|].
  exact (getStatus_after_removal_is_null hex_address show _ _ _ _ _ Hnd Hrun Hin).
Defined.

(** C4 as stated fails: the completed transaction is removed and its
    status is no longer found. *)
Lemma status_survives_removal_fails : ~ status_survives_removal hex_address show.
Proof.
  intros H.
  assert (Hnd : NoDup (uuids hex_address show run_completed)) by distinct_strings.
  apply (H (Some "signer"%string) run_completed (state_after run_completed)
           "a"%string COMPLETED Hnd).
  - vm_compute. reflexivity.
  - vm_compute. intuition auto.
  - vm_compute. reflexivity.
Qed.



Lemma nft_metadata_fields_must_be_truthy_witness :
  enqueue hex_address show env0
    (nft_tx (nft_data player (metadata (Str "") (Str "Test Description") (Arr []))))
    "tx-1" (new None)
  = (log (LogEnqueueFailed (nft_missing_field "name")) (new None),
     inl (nft_missing_field "name")).
Proof.
  refine (proj1 (nft_metadata_fields_must_be_truthy hex_address show env0
           (nft_tx (nft_data player (metadata (Str "") (Str "Test Description") (Arr []))))
           "tx-1" (new None)
           (nft_data player (metadata (Str "") (Str "Test Description") (Arr [])))
           (metadata (Str "") (Str "Test Description") (Arr []))
           _ _ _ _ _ _ _) _); reflexivity.
Defined.

End Properties.

(** * Further properties *)

Module Extras.

Import JS TransactionQueue ExplorerUrls LogGameRoute Vocabulary Properties Samples.

(** ** Statistics and lookup *)

Lemma getStats_fold_completed (q : list Tx) (st : Stats) :
  completed (fold_left count_status q st) = (completed st + count_in COMPLETED q)%nat.
Proof.
  revert st. induction q as [|tx q IH]; intros st; cbn [fold_left].
  - unfold count_in; simpl; lia.
  - rewrite IH. unfold count_status, count_in. cbn [filter].
    destruct (status tx); cbn [completed Status_eqb List.length]; lia.
Qed.

Lemma getStats_fold_failed (q : list Tx) (st : Stats) :
  failed (fold_left count_status q st) = (failed st + count_in FAILED q)%nat.
Proof.
  revert st. induction q as [|tx q IH]; intros st; cbn [fold_left].
  - unfold count_in; simpl; lia.
  - rewrite IH. unfold count_status, count_in. cbn [filter].
    destruct (status tx); cbn [failed Status_eqb List.length]; lia.
Qed.

Lemma counts_partition (q : list Tx) :
  List.length q
  = (count_in PENDING q + count_in PROCESSING q
     + count_in COMPLETED q + count_in FAILED q)%nat.
Proof.
  unfold count_in. induction q as [|tx q IH]; [reflexivity|].
  cbn [filter List.length]. destruct (status tx); cbn [Status_eqb List.length]; lia.
Qed.

(** X1.  For every state of the queue, whatever its transactions:
    [getStats()] reports as [total] the length of the queue, and as
    [pending], [completed] and [failed] the numbers of transactions in
    these states; [total] is their sum plus the number of transactions in
    flight; and [getQueue()] has [total] entries, in queue order. *)
Theorem getStats_counts (s : State) :
  total (getStats s) = List.length (queue s) /\
  pending (getStats s) = count_in PENDING (queue s) /\
  completed (getStats s) = count_in COMPLETED (queue s) /\
  failed (getStats s) = count_in FAILED (queue s) /\
  total (getStats s)
  = (pending (getStats s) + count_in PROCESSING (queue s)
     + completed (getStats s) + failed (getStats s))%nat /\
  List.length (getQueue s) = total (getStats s) /\
  map qe_id (getQueue s) = map id (queue s).
Proof.
  assert (Ht : total (getStats s) = List.length (queue s)) by apply getStats_total.
  assert (Hp : pending (getStats s) = count_in PENDING (queue s)).
  { unfold getStats. rewrite getStats_fold_pending. reflexivity. }
  assert (Hc : completed (getStats s) = count_in COMPLETED (queue s)).
  { unfold getStats. rewrite getStats_fold_completed. reflexivity. }
  assert (Hf : failed (getStats s) = count_in FAILED (queue s)).
  { unfold getStats. rewrite getStats_fold_failed. reflexivity. }
  split; [exact Ht|]. split; [exact Hp|]. split; [exact Hc|]. split; [exact Hf|].
  split; [rewrite Ht, Hp, Hc, Hf; apply counts_partition|].
  unfold getQueue. split.
  - rewrite length_map. symmetry. exact Ht.
  - rewrite map_map. reflexivity.
Qed.

Lemma find_id_none (i : string) (q : list Tx) :
  find (fun tx => String.eqb (id tx) i) q = None <-> ~ In i (map id q).
Proof.
  induction q as [|tx q IH]; cbn [find map In]; [tauto|].
  destruct (String.eqb_spec (id tx) i) as [Heq | Hne].
  - split; [discriminate | intros H; exfalso; apply H; auto].
  - rewrite IH. tauto.
Qed.

Lemma find_id_first (i : string) (l1 l2 : list Tx) (tx : Tx) :
  id tx = i -> ~ In i (map id l1) ->
  find (fun tx => String.eqb (id tx) i) (l1 ++ tx :: l2) = Some tx.
Proof.
  intros Hid. induction l1 as [|x l1 IH]; cbn [app find map In]; intros Hn.
  - rewrite Hid, String.eqb_refl. reflexivity.
  - destruct (String.eqb_spec (id x) i) as [Heq | Hne]; [exfalso; auto|].
    apply IH. tauto.
Qed.

(** X2.  For every state and every id: [getStatus] returns null exactly
    when no queued transaction has the id, and otherwise the snapshot
    (id, type, status, retry count, dates, error, result) of the first
    queued transaction with the id. *)
Theorem getStatus_lookup (i : string) (s : State) :
  (getStatus i s = None <-> ~ In i (map id (queue s))) /\
  (forall l1 tx l2,
     queue s = l1 ++ tx :: l2 -> id tx = i -> ~ In i (map id l1) ->
     getStatus i s = Some (snapshot tx)).
Proof.
  split.
  - unfold getStatus. rewrite <- find_id_none.
    destruct (find _ (queue s)); split; congruence.
  - intros l1 tx l2 Hq Hid Hn. unfold getStatus.
    rewrite Hq, (find_id_first i l1 l2 tx Hid Hn). reflexivity.
Qed.

Lemma getStatus_lookup_witness :
  getStatus "b" (state_after run_two)
  = Some (snapshot (mkTx "b" NFT (get valid_nft "data") PROCESSING 0 2 (Some 4) None None)).
Proof.
  refine (proj2 (getStatus_lookup "b" (state_after run_two)) [] _ [] _ _ _).
  - vm_compute. reflexivity.
  - reflexivity.
  - intros [].
Defined.

(** ** The nonce counter *)

(** X3.  Once the counter is set to [n], with [n] not negative and
    [n + k] at most 2^53 (the range in which the increment of the code is
    exact), [k] calls of [getNextNonce] in a row return [n], [n + 1],
    ..., [n + k - 1], each once and with no gap, and leave the counter at
    [n + k] and the queue as it was; while the counter is unset a call
    throws. *)
Theorem getNextNonce_consecutive (k : nat) (s : State) (n : Z) :
  0 <= n -> n + Z.of_nat k <= 2 ^ 53 ->
  currentNonce s = Some n ->
  exists s',
    next_nonces k s = Some (map (fun i => n + Z.of_nat i) (seq 0 k), s') /\
    currentNonce s' = Some (n + Z.of_nat k) /\
    queue s' = queue s /\
    forall s0, currentNonce s0 = None -> getNextNonce s0 = None.
Proof.
  revert s n. induction k as [|k IH]; intros s n Hlo Hhi Hn.
  - exists s. cbn [next_nonces seq map]. rewrite Z.add_0_r. repeat split; auto.
    intros s0 H0. unfold getNextNonce. rewrite H0. reflexivity.
  - cbn [next_nonces]. unfold getNextNonce at 1. rewrite Hn.
    destruct (IH (log (LogUsingNonce n (n + 1)) (set_currentNonce (Some (n + 1)) s))
                 (n + 1)) as (s' & Hk & Hc & Hq & Hnone); [lia | lia | reflexivity |].
    rewrite Hk. exists s'.
    split; [|split; [|split]].
    + assert (Hm : map (fun i => n + Z.of_nat i) (seq 0 (S k))
                   = n :: map (fun i => n + 1 + Z.of_nat i) (seq 0 k)).
      { cbn [seq map]. rewrite Z.add_0_r. f_equal.
        rewrite <- seq_shift, map_map. apply map_ext. intros i. lia. }
      rewrite Hm. reflexivity.
    + rewrite Hc. f_equal. lia.
    + exact Hq.
    + exact Hnone.
Qed.

Lemma getNextNonce_consecutive_witness :
  exists s',
    next_nonces 3 (state_after run_in_flight) = Some ([7; 8; 9], s') /\
    currentNonce s' = Some 10.
Proof.
  assert (Hlo : 0 <= 7) by lia.
  assert (Hhi : 7 + Z.of_nat 3 <= 2 ^ 53) by (vm_compute; discriminate).
  destruct (getNextNonce_consecutive 3 (state_after run_in_flight) 7 Hlo Hhi eq_refl)
    as (s' & Hk & Hc & _).
  exists s'. split; [exact Hk | exact Hc].
Defined.



(** ** Clearing *)

Lemma count_in_filter_not (q : list Tx) :
  count_in COMPLETED (filter (fun tx => negb (Status_eqb (status tx) COMPLETED)) q) = 0%nat /\
  (List.length (filter (fun tx => negb (Status_eqb (status tx) COMPLETED)) q)
   + count_in COMPLETED q = List.length q)%nat.
Proof.
  unfold count_in. induction q as [|tx q [IH1 IH2]]; [split; reflexivity|].
  cbn [filter]. destruct (status tx) eqn:Hst; cbn [Status_eqb negb];
    cbn [filter List.length]; rewrite ?Hst; cbn [Status_eqb List.length]; split; lia.
Qed.

(** X4.  For every state: [clearCompleted()] returns the number of
    COMPLETED transactions, keeps every other transaction, in order, and
    leaves no COMPLETED one: the queue shrinks by the number returned,
    and a second call returns 0 and changes nothing, neither in the queue
    nor on the console. *)
Theorem clearCompleted_clears (s : State) :
  let kept := filter (fun tx => negb (Status_eqb (status tx) COMPLETED)) (queue s) in
  fst (clearCompleted s) = count_in COMPLETED (queue s) /\
  queue (snd (clearCompleted s)) = kept /\
  count_in COMPLETED (queue (snd (clearCompleted s))) = 0%nat /\
  (List.length (queue (snd (clearCompleted s))) + fst (clearCompleted s)
   = List.length (queue s))%nat /\
  fst (clearCompleted (snd (clearCompleted s))) = 0%nat /\
  queue (snd (clearCompleted (snd (clearCompleted s)))) = kept /\
  snd (clearCompleted (snd (clearCompleted s))) = snd (clearCompleted s) /\
  processing (snd (clearCompleted s)) = processing s.
Proof.
  intros kept.
  assert (Hq : forall st, queue (snd (clearCompleted st))
               = filter (fun tx => negb (Status_eqb (status tx) COMPLETED)) (queue st)).
  { intros st. unfold clearCompleted. cbn [snd].
    destruct (_ <? _)%nat; reflexivity. }
  assert (Hn : forall st, fst (clearCompleted st) = count_in COMPLETED (queue st)).
  { intros st. unfold clearCompleted. cbn [fst].
    destruct (count_in_filter_not (queue st)) as [_ H]. lia. }
  destruct (count_in_filter_not (queue s)) as [H0 Hlen].
  split; [apply Hn|]. split; [apply Hq|].
  split; [rewrite Hq; exact H0|].
  split; [rewrite Hq, Hn; exact Hlen|].
  split; [rewrite Hn, Hq; exact H0|].
  assert (Hkept : filter (fun tx => negb (Status_eqb (status tx) COMPLETED)) kept = kept).
  { apply filter_all.
    apply Forall_forall. intros tx Hin. apply filter_In in Hin. tauto. }
  split; [rewrite !Hq; fold kept; exact Hkept|].
  split.
  - set (s1 := snd (clearCompleted s)).
    assert (Hq1 : queue s1 = kept) by apply Hq.
    unfold clearCompleted at 1. cbn [snd]. rewrite Hq1, Hkept, Nat.sub_diag.
    cbn [Nat.ltb Nat.leb]. rewrite <- Hq1. destruct s1; reflexivity.
  - unfold clearCompleted. cbn [snd]. destruct (_ <? _)%nat; reflexivity.
Qed.

(** ** What validation accepts *)

Section ValidationAccepts.

Variable isAddress : Val -> bool.
Variable toString : Val -> string.

Lemma eqb_number (x : string) :
  negb (String.eqb x "number") = false <-> x = "number"%string.
Proof.
  destruct (String.eqb_spec x "number"); cbn; split; congruence.
Qed.

Lemma validateLogTransaction_accepts (d : Val) :
  validateLogTransaction isAddress d = None <-> accepted_log isAddress d.
Proof.
  unfold validateLogTransaction, accepted_log. cbn [first_nullish].
  destruct (nullish (get d "gameType")); [split; [discriminate | intuition congruence]|].
  destruct (nullish (get d "playerAddress")); [split; [discriminate | intuition congruence]|].
  destruct (nullish (get d "betAmount")) eqn:Hb.
  { split; [discriminate|]. intros (_ & _ & _ & _ & Ht & _).
    destruct (get d "betAmount"); discriminate. }
  destruct (nullish (get d "payout")) eqn:Hp.
  { split; [discriminate|]. intros (_ & _ & _ & _ & _ & _ & Ht & _).
    destruct (get d "payout"); discriminate. }
  destruct (nullish (get d "result")); [split; [discriminate | intuition congruence]|].
  destruct (isAddress (get d "playerAddress")); cbn [negb];
    [|split; [discriminate | intuition congruence]].
  destruct (negb (String.eqb (typeof (get d "betAmount")) "number")) eqn:Htb.
  { cbn [orb]. split; [discriminate|]. intros (_ & _ & _ & _ & Ht & _).
    apply eqb_number in Ht. congruence. }
  apply eqb_number in Htb.
  destruct (negative_number (get d "betAmount")); cbn [orb];
    [split; [discriminate | intuition congruence]|].
  destruct (negb (String.eqb (typeof (get d "payout")) "number")) eqn:Htp.
  { cbn [orb]. split; [discriminate|]. intros (_ & _ & _ & _ & _ & _ & Ht & _).
    apply eqb_number in Ht. congruence. }
  apply eqb_number in Htp.
  destruct (negative_number (get d "payout")); cbn [orb];
    [split; [discriminate | intuition congruence]|].
  split; [intros _; repeat split; assumption | reflexivity].
Qed.

Lemma eqb_object (x : string) :
  negb (String.eqb x "object") = false <-> x = "object"%string.
Proof.
  destruct (String.eqb_spec x "object"); cbn; split; congruence.
Qed.

Lemma validateNFTTransaction_accepts (d : Val) :
  validateNFTTransaction isAddress d = None <-> accepted_nft isAddress d.
Proof.
  unfold validateNFTTransaction, accepted_nft. cbn [first_falsy].
  destruct (truthy (get d "playerAddress")); cbn [negb orb];
    [|split; [discriminate | intuition congruence]].
  destruct (isAddress (get d "playerAddress")); cbn [negb];
    [|split; [discriminate | intuition congruence]].
  destruct (truthy (get d "metadata")); cbn [negb orb];
    [|split; [discriminate | intuition congruence]].
  destruct (negb (String.eqb (typeof (get d "metadata")) "object")) eqn:Hto.
  { split; [discriminate|]. intros (_ & _ & _ & Ht & _).
    apply eqb_object in Ht. congruence. }
  apply eqb_object in Hto.
  destruct (truthy (get (get d "metadata") "name"));
    [|split; [discriminate | intuition congruence]].
  destruct (truthy (get (get d "metadata") "description"));
    [|split; [discriminate | intuition congruence]].
  destruct (truthy (get (get d "metadata") "attributes"));
    [|split; [discriminate | intuition congruence]].
  split; [intros _; repeat split; assumption | reflexivity].
Qed.

Lemma parse_type_spec (v : Val) (ty : TxType) :
  parse_type v = Some ty <-> v = Str (match ty with LOG => "LOG" | NFT => "NFT" end).
Proof.
  unfold parse_type. destruct v; try (split; [discriminate | destruct ty; discriminate]).
  destruct (String.eqb_spec s "LOG") as [-> | Hl].
  - destruct ty; split; congruence.
  - destruct (String.eqb_spec s "NFT") as [-> | Hn].
    + destruct ty; split; congruence.
    + split; [discriminate|]. destruct ty; congruence.
Qed.

(** X5.  [validateTransaction] accepts a transaction exactly when its
    [type] is the string LOG or NFT, its [data] is truthy and, for LOG:
    [gameType], [playerAddress], [betAmount], [payout] and [result] are
    neither undefined nor null, the address is one for [ethers.isAddress],
    and the two amounts are of type number and not below zero; for NFT:
    the address is truthy and one for [ethers.isAddress], [metadata] is a
    truthy object, and its [name], [description] and [attributes] are
    truthy.  Nothing else is tested: an empty [gameType], a [result] of
    [false], and NaN as an amount pass. *)
Theorem validateTransaction_accepts (t : Val) (ty : TxType) :
  validateTransaction isAddress toString t = inr ty <->
  truthy (get t "data") = true /\
  match ty with
  | LOG => get t "type" = Str "LOG" /\ accepted_log isAddress (get t "data")
  | NFT => get t "type" = Str "NFT" /\ accepted_nft isAddress (get t "data")
  end.
Proof.
  unfold validateTransaction.
  destruct (truthy t) eqn:Ht; cbn [negb].
  2:{ split; [discriminate|]. intros [_ H].
      assert (Hobj : exists fields, t = Obj fields).
      { apply get_defined_obj with (k := "type"%string).
        destruct ty; destruct H as [-> _]; discriminate. }
      destruct Hobj as [fields ->]. discriminate. }
  destruct (truthy (get t "type")) eqn:Hty; cbn [negb].
  2:{ split; [discriminate|]. intros [_ H].
      destruct ty; destruct H as [H _]; rewrite H in Hty; discriminate. }
  destruct (parse_type (get t "type")) as [ty'|] eqn:Hp.
  2:{ split; [discriminate|]. intros [_ H].
      assert (Hs : parse_type (get t "type") = Some ty).
      { apply parse_type_spec. destruct ty; apply H. }
      congruence. }
  apply parse_type_spec in Hp.
  destruct (truthy (get t "data")); cbn [negb].
  2:{ split; [discriminate | intros [H _]; discriminate]. }
  destruct ty'.
  - pose proof (validateLogTransaction_accepts (get t "data")) as Hacc.
    destruct (validateLogTransaction isAddress (get t "data")).
    + split; [discriminate|]. intros [_ H]. destruct ty.
      * destruct H as [_ H]. apply Hacc in H. discriminate.
      * destruct H as [H _]. congruence.
    + split.
      * intros [= <-]. split; [reflexivity|]. split; [exact Hp | apply Hacc; reflexivity].
      * intros [_ H]. destruct ty; [reflexivity|]. destruct H as [H _]. congruence.
  - pose proof (validateNFTTransaction_accepts (get t "data")) as Hacc.
    destruct (validateNFTTransaction isAddress (get t "data")).
    + split; [discriminate|]. intros [_ H]. destruct ty.
      * destruct H as [H _]. congruence.
      * destruct H as [_ H]. apply Hacc in H. discriminate.
    + split.
      * intros [= <-]. split; [reflexivity|]. split; [exact Hp | apply Hacc; reflexivity].
      * intros [_ H]. destruct ty; [|reflexivity]. destruct H as [H _]. congruence.
Qed.

End ValidationAccepts.

Lemma validateTransaction_accepts_witness :
  validateTransaction hex_address show
    (log_tx (log_data player (Num NaN) (num 0) (Bool false))) = inr LOG /\
  validateTransaction hex_address show
    (log_tx (Obj [("gameType", Str ""); ("playerAddress", player);
                  ("betAmount", num 0); ("payout", Num (Inf false));
                  ("result", num 0)]%string)) = inr LOG.
Proof.
  split; apply (validateTransaction_accepts hex_address show);
    (split; [reflexivity|]); (split; [reflexivity|]);
    unfold accepted_log; repeat split.
Defined.

(** ** Growth of the retry delay *)

Lemma capped_mono (n m : nat) :
  (n <= m)%nat ->
  Z.min (baseDelay * 2 ^ Z.of_nat n) maxDelay <= Z.min (baseDelay * 2 ^ Z.of_nat m) maxDelay.
Proof.
  intros H. apply Z.min_le_compat_r. unfold baseDelay.
  apply Z.mul_le_mono_nonneg_l; [lia|].
  apply Z.pow_le_mono_r; lia.
Qed.

Lemma capped_saturates (n : nat) :
  (5 <= n)%nat -> Z.min (baseDelay * 2 ^ Z.of_nat n) maxDelay = maxDelay.
Proof.
  intros H. apply Z.min_r. unfold baseDelay, maxDelay.
  assert (2 ^ 5 <= 2 ^ Z.of_nat n) by (apply Z.pow_le_mono_r; lia).
  change (2 ^ 5) with 32 in *. lia.
Qed.

Lemma jittered_mono (c1 c2 : Z) (r : Q) :
  (0 <= r)%Q -> c1 <= c2 ->
  (inject_Z c1 + r * (1 # 10) * inject_Z c1 <= inject_Z c2 + r * (1 # 10) * inject_Z c2)%Q.
Proof.
  intros Hr Hc.
  assert (Hq : (inject_Z c1 <= inject_Z c2)%Q) by (rewrite <- Zle_Qle; exact Hc).
  apply Qplus_le_compat; [exact Hq|].
  rewrite (Qmult_comm (r * (1 # 10)) (inject_Z c1)).
  rewrite (Qmult_comm (r * (1 # 10)) (inject_Z c2)).
  apply Qmult_le_compat_r; [exact Hq|].
  apply Qmult_le_0_compat; [exact Hr | discriminate].
Qed.

(** X6.  For one draw of the jitter, the retry delay does not decrease
    when the retry count grows, and from a retry count of 5 on it no
    longer grows: the cap of 30000 ms applies, and the delay is the one
    of count 5 for the same draw. *)
Theorem calculateRetryDelay_grows_to_cap (n m : nat) (r : Q) :
  (0 <= r)%Q -> (n <= m)%nat ->
  calculateRetryDelay n r <= calculateRetryDelay m r /\
  ((5 <= n)%nat ->
   calculateRetryDelay n r = calculateRetryDelay 5 r /\
   calculateRetryDelay m r = calculateRetryDelay n r).
Proof.
  intros Hr Hnm. split.
  - unfold calculateRetryDelay. apply Qfloor_resp_le.
    apply jittered_mono; [exact Hr | apply capped_mono; exact Hnm].
  - intros H5. unfold calculateRetryDelay.
    assert (H5m : (5 <= m)%nat) by lia.
    rewrite (capped_saturates m H5m), (capped_saturates n H5),
      (capped_saturates 5 (le_n 5)).
    split; reflexivity.
Qed.

Lemma calculateRetryDelay_grows_to_cap_witness :
  calculateRetryDelay 5 (1 # 2) <= calculateRetryDelay 9 (1 # 2) /\
  calculateRetryDelay 9 (1 # 2) = calculateRetryDelay 5 (1 # 2).
Proof.
  assert (Hr : (0 <= 1 # 2)%Q) by discriminate.
  assert (Hnm : (5 <= 9)%nat) by lia.
  destruct (calculateRetryDelay_grows_to_cap 5 9 (1 # 2) Hr Hnm) as [Hle Hcap].
  split; [exact Hle | exact (proj2 (Hcap (le_n 5)))].
Defined.

(** ** Explorer URLs *)

Local Open Scope string_scope.

Lemma strip_0x_cases (h : string) :
  (exists rest, h = String "0" (String "x" rest) /\ strip_0x h = rest) \/
  (strip_0x h = h /\ forall rest, h <> String "0" (String "x" rest)).
Proof.
  destruct h as [|a [|b rest]].
  - right. split; [reflexivity | intros; discriminate].
  - right. split; [|intros; discriminate].
    destruct a as [[] [] [] [] [] [] [] []]; reflexivity.
  - destruct (ascii_dec a "0") as [-> | Ha].
    + destruct (ascii_dec b "x") as [-> | Hb].
      * left. exists rest. split; reflexivity.
      * right. split; [|intros r [= H _]; contradiction].
        destruct b as [[] [] [] [] [] [] [] []]; try reflexivity.
        contradiction Hb; reflexivity.
    + right. split; [|intros r [= H _]; contradiction].
      destruct a as [[] [] [] [] [] [] [] []]; try reflexivity.
      contradiction Ha; reflexivity.
Qed.

Lemma address_format_spec (a : string) :
  address_format a = true <->
  exists rest, a = String "0" (String "x" rest) /\ hex_of_length 40 rest = true.
Proof.
  split.
  - intros H. destruct a as [|c [|d rest]].
    + discriminate.
    + destruct c as [[] [] [] [] [] [] [] []]; discriminate.
    + destruct (ascii_dec c "0") as [-> | Hc].
      * destruct (ascii_dec d "x") as [-> | Hd].
        -- exists rest. split; [reflexivity | exact H].
        -- destruct d as [[] [] [] [] [] [] [] []]; try discriminate.
           contradiction Hd; reflexivity.
      * destruct c as [[] [] [] [] [] [] [] []]; try discriminate.
        contradiction Hc; reflexivity.
  - intros (rest & -> & H). exact H.
Qed.

Lemma hex_of_length_spec (n : nat) (s : string) :
  hex_of_length n s = true <-> String.length s = n /\ all_hex_chars s = true.
Proof.
  unfold hex_of_length. rewrite andb_true_iff, Nat.eqb_eq. reflexivity.
Qed.

Lemma hex_not_prefixed (c rest : string) :
  all_hex_chars c = true -> c <> String "0" (String "x" rest).
Proof.
  intros H ->. cbn in H. discriminate.
Qed.

Lemma isValidTxHash_forms (v : Val) :
  isValidTxHash v = true <->
  exists c, (v = Str c \/ v = Str ("0x" ++ c)) /\
            String.length c = 64%nat /\ all_hex_chars c = true.
Proof.
  split.
  - destruct v as [| | | |h| |]; try discriminate.
    unfold isValidTxHash. destruct (negb (truthy (Str h))); [discriminate|].
    intros H. destruct (strip_0x_cases h) as [(rest & -> & Hs) | [Hs _]];
      rewrite Hs in H; apply hex_of_length_spec in H.
    + exists rest. split; [right; reflexivity | exact H].
    + exists h. split; [left; reflexivity | exact H].
  - intros (c & [-> | ->] & Hlen & Hhex).
    + unfold isValidTxHash.
      assert (Ht : truthy (Str c) = true) by (destruct c; [discriminate | reflexivity]).
      rewrite Ht. cbn [negb].
      destruct (strip_0x_cases c) as [(rest & Hc & _) | [-> _]].
      * exfalso. exact (hex_not_prefixed c rest Hhex Hc).
      * apply hex_of_length_spec. split; assumption.
    + cbn. apply hex_of_length_spec. split; assumption.
Qed.

Lemma append_inv_prefix (p a b : string) : p ++ a = p ++ b -> a = b.
Proof.
  induction p as [|c p IH]; cbn; [trivial|]. intros [= H]. exact (IH H).
Qed.

Lemma getQIEExplorerUrl_spec (v : Val) (url : string) :
  getQIEExplorerUrl v = inr url <->
  isValidTxHash v = true /\ exists h, v = Str h /\ url = "https://testnet.qie.digital/tx/" ++ h.
Proof.
  destruct v as [| | | |h| |];
    try (split; [discriminate | intros [H _]; discriminate]).
  unfold getQIEExplorerUrl, isValidTxHash.
  destruct (negb (truthy (Str h))); [split; [discriminate | intros [H _]; discriminate]|].
  destruct (hex_of_length 64 (strip_0x h)); cbn [negb].
  - split.
    + intros [= <-]. split; [reflexivity|]. exists h. split; reflexivity.
    + intros (_ & h' & [= <-] & ->). reflexivity.
  - split; [discriminate | intros [H _]; discriminate].
Qed.

Lemma getEntropyExplorerUrl_spec (v : Val) (url : string) :
  getEntropyExplorerUrl v = inr url <->
  isValidTxHash v = true /\
  exists h, v = Str h /\
    url = "https://entropy-explorer.pyth.network/?chain=arbitrum-sepolia&search=" ++ h.
Proof.
  destruct v as [| | | |h| |];
    try (split; [discriminate | intros [H _]; discriminate]).
  unfold getEntropyExplorerUrl, isValidTxHash.
  destruct (negb (truthy (Str h))); [split; [discriminate | intros [H _]; discriminate]|].
  destruct (hex_of_length 64 (strip_0x h)); cbn [negb].
  - split.
    + intros [= <-]. split; [reflexivity|]. exists h. split; reflexivity.
    + intros (_ & h' & [= <-] & ->). reflexivity.
  - split; [discriminate | intros [H _]; discriminate].
Qed.

(** X7.  A transaction hash is valid for [isValidTxHash] exactly when it
    is a string of 64 characters among 0-9, a-f and A-F, or such a string
    after the two characters 0x.  [getQIEExplorerUrl] and
    [getEntropyExplorerUrl] return a URL exactly for the valid hashes and
    throw otherwise; the URL is the base URL, the path, and the hash as it
    was given, prefix included; two hashes with one URL are equal. *)
Theorem tx_hash_urls (v : Val) :
  (isValidTxHash v = true <->
   exists c, (v = Str c \/ v = Str ("0x" ++ c)) /\
             String.length c = 64%nat /\ all_hex_chars c = true) /\
  (forall url, getQIEExplorerUrl v = inr url <->
     isValidTxHash v = true /\
     exists h, v = Str h /\ url = getQIEExplorerBaseUrl ++ "/tx/" ++ h) /\
  (forall url, getEntropyExplorerUrl v = inr url <->
     isValidTxHash v = true /\
     exists h, v = Str h /\
       url = getEntropyExplorerBaseUrl ++ "/?chain=arbitrum-sepolia&search=" ++ h) /\
  (forall v' url,
     getQIEExplorerUrl v = inr url -> getQIEExplorerUrl v' = inr url -> v = v') /\
  (forall v' url,
     getEntropyExplorerUrl v = inr url -> getEntropyExplorerUrl v' = inr url -> v = v').
Proof.
  split; [apply isValidTxHash_forms|].
  split; [intros url; apply getQIEExplorerUrl_spec|].
  split; [intros url; apply getEntropyExplorerUrl_spec|].
  split; intros v' url H H'.
  - apply getQIEExplorerUrl_spec in H, H'.
    destruct H as (_ & h & -> & ->), H' as (_ & h' & -> & E).
    apply append_inv_prefix in E. congruence.
  - apply getEntropyExplorerUrl_spec in H, H'.
    destruct H as (_ & h & -> & ->), H' as (_ & h' & -> & E).
    apply append_inv_prefix in E. congruence.
Qed.

Lemma append_inv_length (a1 a2 x y : string) :
  String.length a1 = String.length a2 -> a1 ++ x = a2 ++ y -> a1 = a2 /\ x = y.
Proof.
  revert a2. induction a1 as [|c a1 IH]; intros [|c2 a2]; cbn; try discriminate.
  - intros _ H. split; [reflexivity | exact H].
  - intros [= Hl] [= -> H]. destruct (IH a2 Hl H) as [-> ->]. split; reflexivity.
Qed.

Lemma address_format_length (a : string) :
  address_format a = true -> String.length a = 42%nat.
Proof.
  intros H. apply address_format_spec in H. destruct H as (rest & -> & H).
  apply hex_of_length_spec in H. destruct H as [H _]. cbn. rewrite H. reflexivity.
Qed.

Section NftUrl.

Variable toString : Val -> string.

Lemma getQIENFTUrl_spec (envAddress tokenId contractAddress : Val) (url : string) :
  getQIENFTUrl toString envAddress tokenId contractAddress = inr url <->
  truthy tokenId = true /\
  (typeof tokenId = "string" \/ typeof tokenId = "number") /\
  truthy (if truthy contractAddress then contractAddress else envAddress) = true /\
  address_format (to_string toString (if truthy contractAddress then contractAddress else envAddress)) = true /\
  url = getQIEExplorerBaseUrl ++ "/token/"
        ++ to_string toString (if truthy contractAddress then contractAddress else envAddress)
        ++ "/" ++ to_string toString tokenId.
Proof.
  unfold getQIENFTUrl.
  destruct (truthy tokenId); cbn [negb orb];
    [|split; [discriminate | intros [H _]; discriminate]].
  destruct (String.eqb_spec (typeof tokenId) "string") as [Hs | Hs]; cbn [negb andb].
  - destruct (truthy (if truthy contractAddress then contractAddress else envAddress));
      cbn [negb]; [|split; [discriminate | intros (_ & _ & H & _); discriminate]].
    destruct (address_format _); cbn [negb].
    + split; [intros [= <-]; auto 6 | intros (_ & _ & _ & _ & ->); reflexivity].
    + split; [discriminate | intros (_ & _ & _ & H & _); discriminate].
  - destruct (String.eqb_spec (typeof tokenId) "number") as [Hn | Hn]; cbn [negb].
    + destruct (truthy (if truthy contractAddress then contractAddress else envAddress));
        cbn [negb]; [|split; [discriminate | intros (_ & _ & H & _); discriminate]].
      destruct (address_format _); cbn [negb].
      * split; [intros [= <-]; auto 6 | intros (_ & _ & _ & _ & ->); reflexivity].
      * split; [discriminate | intros (_ & _ & _ & H & _); discriminate].
    + split; [discriminate | intros (_ & [H | H] & _); contradiction].
Qed.

(** X8.  [getQIENFTUrl] returns a URL exactly when the token id is a
    truthy string or number (so not 0 and not the empty string) and the
    address used, the argument when it is truthy and the variable of the
    environment otherwise, is truthy and has the form 0x and forty
    characters among 0-9, a-f and A-F.  The URL is the base URL,
    [/token/], the address, [/] and the id.  With a truthy argument the
    environment is not consulted; an argument that [isValidAddress]
    accepts passes both tests of the address; and two calls with one URL
    used the same address and the same id, as strings. *)
Theorem nft_url (envAddress tokenId contractAddress : Val) :
  let address := if truthy contractAddress then contractAddress else envAddress in
  (forall url,
     getQIENFTUrl toString envAddress tokenId contractAddress = inr url <->
     truthy tokenId = true /\
     (typeof tokenId = "string" \/ typeof tokenId = "number") /\
     truthy address = true /\
     address_format (to_string toString address) = true /\
     url = getQIEExplorerBaseUrl ++ "/token/" ++ to_string toString address
           ++ "/" ++ to_string toString tokenId) /\
  (truthy contractAddress = true ->
   forall envAddress',
     getQIENFTUrl toString envAddress' tokenId contractAddress =
     getQIENFTUrl toString envAddress tokenId contractAddress) /\
  (isValidAddress contractAddress = true ->
   truthy address = true /\ address_format (to_string toString address) = true) /\
  (forall envAddress' tokenId' contractAddress' url,
     getQIENFTUrl toString envAddress tokenId contractAddress = inr url ->
     getQIENFTUrl toString envAddress' tokenId' contractAddress' = inr url ->
     to_string toString address =
     to_string toString (if truthy contractAddress' then contractAddress' else envAddress') /\
     to_string toString tokenId = to_string toString tokenId').
Proof.
  cbn zeta. split; [intros url; apply getQIENFTUrl_spec|]. split.
  - intros Hc envAddress'. unfold getQIENFTUrl. rewrite Hc. reflexivity.
  - split.
    { unfold isValidAddress. destruct contractAddress as [| | | |a| |]; try discriminate.
      destruct (truthy (Str a)) eqn:Ht; cbn [negb]; [|discriminate].
      intros Hf. split; [exact Ht | exact Hf]. }
    intros envAddress' tokenId' contractAddress' url H H'.
    apply getQIENFTUrl_spec in H, H'.
    destruct H as (_ & _ & _ & Ha & ->), H' as (_ & _ & _ & Ha' & E).
    apply append_inv_prefix in E.
    apply (append_inv_prefix "/token/") in E.
    apply append_inv_length in E.
    + destruct E as [E1 E2]. split; [exact E1|].
      apply (append_inv_prefix "/") in E2. exact E2.
    + rewrite (address_format_length _ Ha), (address_format_length _ Ha'). reflexivity.
Qed.

End NftUrl.

Lemma tx_hash_urls_witness :
  let h := "0xABCDEF7890abcdef1234567890abcdef1234567890abcdef1234567890abcdef" in
  getQIEExplorerUrl (Str h) = inr ("https://testnet.qie.digital/tx/" ++ h) /\
  isValidTxHash (Str h) = true.
Proof.
  cbn zeta. split.
  - apply (proj1 (proj2 (tx_hash_urls (Str _)))).
    split; [reflexivity|]. eexists. split; reflexivity.
  - apply (proj1 (tx_hash_urls (Str _))).
    exists "ABCDEF7890abcdef1234567890abcdef1234567890abcdef1234567890abcdef".
    split; [right; reflexivity|]. split; reflexivity.
Defined.

Lemma nft_url_witness :
  getQIENFTUrl show Undefined (Str "7") player =
  inr "https://testnet.qie.digital/token/0x1234567890123456789012345678901234567890/7" /\
  getQIENFTUrl show Null (Str "7") player = getQIENFTUrl show Undefined (Str "7") player.
Proof.
  split.
  - apply (proj1 (nft_url show Undefined (Str "7") player)).
    split; [reflexivity|]. split; [left; reflexivity|].
    split; [reflexivity|]. split; reflexivity.
  - apply (proj1 (proj2 (nft_url show Undefined (Str "7") player))). reflexivity.
Defined.

Local Close Scope string_scope.

(** ** The queue between two segments *)

Lemma acts_unsettled ids v v' : acts ids v v' -> Unsettled v -> Unsettled v'.
Proof.
  unfold Unsettled.
  induction 1 as [v | e q l n ids v H IH Hq | tx q l n ids v Htx H IH
                  | env tx rest l n ids v Hst Hr H IH | r tx rest l n ids v Hst H IH
                  | tx rest l n ids v Hrm H IH | m q l ids v H IH | m q l ids v H IH];
    intros U; cbn [v_queue] in *; auto.
  - apply IH. intros tx' Hin Hc. apply in_app_or in Hin. destruct Hin as [Hin | [<- | []]].
    + auto.
    + apply Htx.
  - apply IH. intros tx' [<- | Hin] Hc.
    + cbn [begin_transaction result]. apply U; [left; reflexivity|].
      destruct Hst as [-> | ->]; discriminate.
    + apply U; [right; exact Hin | exact Hc].
  - apply IH. intros tx' [<- | Hin] Hc.
    + destruct r as [msg | w]; cbn [settle result status] in *; [|congruence].
      apply U; [left; reflexivity|]. rewrite Hst. discriminate.
    + apply U; [right; exact Hin | exact Hc].
  - apply IH. intros tx' Hin Hc. apply U; [right; exact Hin | exact Hc].
Qed.

Lemma count_in_untouched_status (st : Status) (q : list Tx) :
  Forall untouched q -> st <> PENDING -> count_in st q = 0%nat.
Proof.
  unfold count_in. induction 1 as [|tx q (Hp & _) _ IH]; intros Hst; [reflexivity|].
  cbn [filter]. rewrite Hp. destruct st; try contradiction; cbn [Status_eqb]; auto.
Qed.

Section Runs.

Variable isAddress : Val -> bool.
Variable toString : Val -> string.

Local Abbreviation step := (step isAddress toString).
Local Abbreviation run := (run isAddress toString).
Local Abbreviation uuids := (uuids isAddress toString).

Lemma run_unsettled (evs : list (Env * Event)) (s s' : State) :
  Shape s -> Unsettled (view s) -> run evs s = Some s' ->
  Shape s' /\ Unsettled (view s').
Proof.
  revert s. induction evs as [|[env e] evs IH]; intros s Hs U; cbn [TransactionQueue.run].
  - intros [= <-]. auto.
  - destruct (step env e s) as [s1|] eqn:Hstep; [|discriminate].
    destruct (step_ok isAddress toString env e s s1 Hs Hstep) as [Hs1 Hacts].
    apply IH; [exact Hs1|]. apply (acts_unsettled _ _ _ Hacts U).
Qed.

(** X9.  In every run, between two segments: the flag [processing] is
    set exactly when an activation of [process] is suspended; a
    submission is awaited exactly when the head of the queue is
    PROCESSING, and then it is the only transaction in that state; no
    queued transaction is COMPLETED, and [getStats] counts none; at most
    one is FAILED; every queued transaction has a retry left and holds no
    result; and every transaction behind the head is as [enqueue] left
    it. *)
Theorem queue_between_segments (sg : option string) (evs : list (Env * Event)) (s : State) :
  run evs (new sg) = Some s ->
  (processing s = true <-> pc s <> Idle) /\
  (pc s = AwaitSubmit <->
   exists tx rest, queue s = tx :: rest /\ status tx = PROCESSING) /\
  count_in PROCESSING (queue s) = (match pc s with AwaitSubmit => 1 | _ => 0 end)%nat /\
  count_in COMPLETED (queue s) = 0%nat /\
  (count_in FAILED (queue s) <= 1)%nat /\
  (forall tx, In tx (queue s) -> (retryCount tx < maxRetries)%nat /\ result tx = None) /\
  (forall tx rest, queue s = tx :: rest -> Forall untouched rest) /\
  completed (getStats s) = 0%nat.
Proof.
  intros Hrun.
  destruct (run_unsettled evs (new sg) s (new_shape sg)) as [Hs U];
    [intros tx [] | exact Hrun |].
  unfold Unsettled in U. cbn [view v_queue] in U.
  assert (Hc : count_in COMPLETED (queue s) = 0%nat).
  { unfold Shape in Hs. destruct (pc s); cbn [shape] in Hs; try contradiction;
      destruct (queue s) as [|tx rest]; try reflexivity;
      cbn [idle_queue busy_queue] in Hs; try tauto.
    all: assert (Hr : count_in COMPLETED rest = 0%nat)
        by (apply count_in_untouched_status; [tauto | discriminate]).
    all: unfold count_in in *; cbn [filter].
    - destruct Hs as (_ & [-> | ->] & _); cbn [Status_eqb]; exact Hr.
    - destruct Hs as (_ & _ & [-> | ->] & _); cbn [Status_eqb]; exact Hr.
    - destruct Hs as (_ & _ & -> & _); cbn [Status_eqb]; exact Hr. }
  unfold Shape in Hs.
  split; [|split; [|split; [|split; [exact Hc|split; [|split; [|split]]]]]].
  - destruct (pc s); cbn [shape] in Hs; try contradiction;
      destruct Hs as (-> & _); split; congruence.
  - destruct (pc s); cbn [shape] in Hs; try contradiction.
    + split; [discriminate|]. intros (tx & rest & Hq & Hst). rewrite Hq in Hs.
      cbn [idle_queue] in Hs. destruct Hs as (_ & [H | H] & _); congruence.
    + split; [discriminate|]. intros (tx & rest & Hq & Hst). rewrite Hq in Hs.
      cbn [idle_queue] in Hs. destruct Hs as (_ & _ & [H | H] & _); congruence.
    + split; [|reflexivity]. intros _. destruct (queue s) as [|tx rest]; [cbn in Hs; tauto|].
      exists tx, rest. cbn [busy_queue] in Hs. split; [reflexivity | tauto].
  - destruct (pc s); cbn [shape] in Hs; try contradiction;
      destruct (queue s) as [|tx rest]; try reflexivity;
      cbn [idle_queue busy_queue] in Hs; try tauto.
    all: assert (Hr : count_in PROCESSING rest = 0%nat)
        by (apply count_in_untouched_status; [tauto | discriminate]).
    all: unfold count_in in *; cbn [filter].
    + destruct Hs as (_ & [-> | ->] & _); cbn [Status_eqb]; exact Hr.
    + destruct Hs as (_ & _ & [-> | ->] & _); cbn [Status_eqb]; exact Hr.
    + destruct Hs as (_ & _ & -> & _); cbn [Status_eqb List.length]. rewrite Hr. reflexivity.
  - destruct (pc s); cbn [shape] in Hs; try contradiction;
      destruct (queue s) as [|tx rest]; try (cbn; lia);
      cbn [idle_queue busy_queue] in Hs; try tauto.
    all: assert (Hr : count_in FAILED rest = 0%nat)
        by (apply count_in_untouched_status; [tauto | discriminate]).
    all: unfold count_in in *; cbn [filter];
      destruct (Status_eqb (status tx) FAILED); cbn [List.length]; lia.
  - intros tx Hin. split.
    + destruct (pc s); cbn [shape] in Hs; try contradiction;
        destruct (queue s) as [|hd rest]; try contradiction;
        cbn [idle_queue busy_queue] in Hs.
      all: assert (Hrest : Forall untouched rest) by tauto.
      all: assert (Hhd : (retryCount hd < maxRetries)%nat) by tauto.
      all: destruct Hin as [<- | Hin]; [exact Hhd|].
      all: rewrite Forall_forall in Hrest; destruct (Hrest tx Hin) as (_ & -> & _);
        unfold maxRetries; lia.
    + apply U; [exact Hin|]. intros Hst.
      assert (Hpos : (0 < count_in COMPLETED (queue s))%nat); [|lia].
      unfold count_in. clear - Hin Hst. induction (queue s) as [|hd q IH]; [destruct Hin|].
      cbn [filter]. destruct Hin as [-> | Hin].
      * rewrite Hst. cbn. lia.
      * destruct (Status_eqb (status hd) COMPLETED); cbn [List.length]; auto with arith.
  - intros tx rest Hq. rewrite Hq in Hs.
    destruct (pc s); cbn [shape idle_queue busy_queue] in Hs; tauto.
  - rewrite <- Hc. unfold getStats. rewrite getStats_fold_completed. reflexivity.
Qed.

End Runs.

Lemma shape_members (s : State) (tx : Tx) :
  Shape s -> In tx (queue s) ->
  status tx <> COMPLETED /\ (retryCount tx < maxRetries)%nat.
Proof.
  unfold Shape. intros Hs Hin.
  assert (H : exists hd rest, queue s = hd :: rest /\ status hd <> COMPLETED /\
                              (retryCount hd < maxRetries)%nat /\ Forall untouched rest).
  { destruct (queue s) as [|hd rest]; [destruct Hin|]. exists hd, rest.
    split; [reflexivity|].
    destruct (pc s); cbn [shape idle_queue busy_queue] in Hs; try contradiction.
    - destruct Hs as (_ & [H | H] & ? & ?); rewrite H; repeat split; auto; discriminate.
    - destruct Hs as (_ & _ & [H | H] & ? & ?); rewrite H; repeat split; auto; discriminate.
    - destruct Hs as (_ & _ & H & ? & ?); rewrite H; repeat split; auto; discriminate. }
  destruct H as (hd & rest & Hq & Hst & Hr & Hrest). rewrite Hq in Hin.
  destruct Hin as [<- | Hin]; [auto|].
  rewrite Forall_forall in Hrest. destruct (Hrest tx Hin) as (-> & -> & _).
  split; [discriminate | unfold maxRetries; lia].
Qed.

Section Polling.

Variable isAddress : Val -> bool.
Variable toString : Val -> string.

Local Abbreviation run := (run isAddress toString).

Lemma run_members (sg : option string) (evs : list (Env * Event)) (s : State) (tx : Tx) :
  run evs (new sg) = Some s -> In tx (queue s) ->
  status tx <> COMPLETED /\ (retryCount tx < maxRetries)%nat /\ result tx = None.
Proof.
  intros Hrun Hin.
  destruct (run_unsettled isAddress toString evs (new sg) s (new_shape sg)) as [Hs U];
    [intros tx' [] | exact Hrun |].
  destruct (shape_members s tx Hs Hin) as [Hst Hr].
  split; [exact Hst|]. split; [exact Hr|]. apply U; assumption.
Qed.

(** X10.  In every run -- calls of [enqueue], [process], [getNextNonce],
    [setProviderAndSigner] and [clearCompleted], timers, and the settling
    of the awaited promises -- the GET handler answers 400 for a missing
    or empty id, 404 for an id that is not in the queue, and otherwise 200
    with the fields of the queued transaction as they are: that
    transaction is never COMPLETED and holds no result, so the handler
    never adds an explorer URL and never answers 500.  (A transaction that
    completes leaves the queue in the segment in which it completes.) *)
Theorem GET_never_finds_completed
        (sg : option string) (evs : list (Env * Event)) (s : State)
        (envAddress : Val) (transactionId : option string) :
  run evs (new sg) = Some s ->
  polled s transactionId (GET toString envAddress transactionId s).
Proof.
  intros Hrun. unfold GET, polled.
  destruct transactionId as [i|]; [|split; [reflexivity | left; reflexivity]].
  destruct (String.eqb_spec i "") as [-> | Hi]; [split; [reflexivity | right; reflexivity]|].
  unfold getStatus.
  destruct (find (fun tx => String.eqb (id tx) i) (queue s)) as [tx|] eqn:Hfind.
  - destruct (find_some _ _ Hfind) as [Hin Heq]. apply String.eqb_eq in Heq.
    destruct (run_members sg evs s tx Hrun Hin) as (Hst & _ & Hres).
    cbn [st_status st_result]. rewrite Hres.
    assert (Hfound :
      exists tx0, In tx0 (queue s) /\ Some i = Some (id tx0) /\
        mkTxStatus (id tx) (type tx) (status tx) (retryCount tx) (createdAt tx)
                   (lastAttempt tx) (error tx) None = snapshot tx0 /\
        status tx <> COMPLETED /\ @None Val = None).
    { exists tx. unfold snapshot. rewrite Hres, Heq. auto. }
    destruct (status tx); exact Hfound.
  - split; [reflexivity|]. exists i. split; [reflexivity|]. split; [exact Hi|].
    apply find_id_none. exact Hfind.
Qed.

End Polling.

(** ** The ledger of ids *)

Lemma acts_ledger ids v v' :
  acts ids v v' ->
  removed_ids (v_console v') ++ map id (v_queue v')
  = (removed_ids (v_console v) ++ map id (v_queue v)) ++ ids /\
  queued_ids (v_console v') = queued_ids (v_console v) ++ ids.
Proof.
  induction 1 as [v | e q l n ids v H IH Hq | tx q l n ids v Htx H IH
                  | env tx rest l n ids v Hst Hr H IH | r tx rest l n ids v Hst H IH
                  | tx rest l n ids v Hrm H IH | m q l ids v H IH | m q l ids v H IH];
    cbn [v_queue v_console] in *.
  - rewrite !app_nil_r. auto.
  - destruct IH as [IH1 IH2]. rewrite IH1, IH2, queued_ids_snoc, removed_ids_snoc.
    destruct e; try discriminate; rewrite !app_nil_r; auto.
  - destruct IH as [IH1 IH2]. rewrite IH1, IH2, queued_ids_snoc, removed_ids_snoc.
    rewrite map_app, !app_nil_r. cbn [map]. rewrite <- !app_assoc. auto.
  - destruct IH as [IH1 IH2]. rewrite IH1, IH2, queued_ids_snoc, removed_ids_snoc.
    rewrite !app_nil_r. auto.
  - destruct IH as [IH1 IH2]. rewrite IH1, IH2.
    assert (Hw : removed_ids (write l (settle_log r tx)) = removed_ids l /\
                 queued_ids (write l (settle_log r tx)) = queued_ids l).
    { destruct r as [msg | w]; cbn [settle_log write fold_left].
      - destruct (S (retryCount tx) <? maxRetries)%nat;
          rewrite !queued_ids_snoc, !removed_ids_snoc, !app_nil_r; auto.
      - rewrite !queued_ids_snoc, !removed_ids_snoc, !app_nil_r; auto. }
    destruct Hw as [-> ->]. cbn [map]. destruct r; auto.
  - destruct IH as [IH1 IH2]. rewrite IH1, IH2, queued_ids_snoc, removed_ids_snoc.
    rewrite app_nil_r. cbn [map]. rewrite <- !app_assoc. auto.
  - destruct IH as [IH1 IH2]. rewrite IH1, IH2, queued_ids_snoc, removed_ids_snoc.
    rewrite !app_nil_r. auto.
  - destruct IH as [IH1 IH2]. rewrite IH1, IH2, queued_ids_snoc, removed_ids_snoc.
    rewrite !app_nil_r. auto.
Qed.

Section Ledger.

Variable isAddress : Val -> bool.
Variable toString : Val -> string.

Local Abbreviation step := (step isAddress toString).
Local Abbreviation run := (run isAddress toString).
Local Abbreviation uuids := (uuids isAddress toString).

Lemma run_ledger (evs : list (Env * Event)) (s s' : State) :
  Shape s -> run evs s = Some s' ->
  Shape s' /\
  removed_ids (console s') ++ map id (queue s')
  = (removed_ids (console s) ++ map id (queue s)) ++ uuids evs /\
  queued_ids (console s') = queued_ids (console s) ++ uuids evs.
Proof.
  revert s. induction evs as [|[env e] evs IH]; intros s Hs; cbn [TransactionQueue.run].
  - intros [= <-]. cbn. rewrite !app_nil_r. auto.
  - destruct (step env e s) as [s1|] eqn:Hstep; [|discriminate].
    intros Hrun.
    destruct (step_ok isAddress toString env e s s1 Hs Hstep) as [Hs1 Hacts].
    destruct (acts_ledger _ _ _ Hacts) as [H1 H2]. cbn [view v_queue v_console] in H1, H2.
    destruct (IH s1 Hs1 Hrun) as (Hs' & H1' & H2').
    split; [exact Hs'|].
    rewrite (uuids_cons isAddress toString), H1', H2', H1, H2, <- !app_assoc. auto.
Qed.

(** X11.  In every run the console and the queue keep a ledger of the
    ids: the ids of the "queued" lines are the ids drawn by the accepted
    calls of [enqueue], in call order; the ids of the "removed" lines
    followed by the ids in the queue are that same list, so transactions
    leave the queue in the order in which they entered it and none is
    lost or duplicated; and the number of accepted calls is the number of
    removals plus the total of [getStats].  When the ids drawn are
    distinct, the ids in the queue are distinct, and [getStatus] finds an
    id exactly when it was accepted and has not been removed. *)
Theorem ids_ledger (sg : option string) (evs : list (Env * Event)) (s : State) :
  run evs (new sg) = Some s ->
  queued_ids (console s) = uuids evs /\
  removed_ids (console s) ++ map id (queue s) = uuids evs /\
  List.length (uuids evs)
  = (List.length (removed_ids (console s)) + total (getStats s))%nat /\
  (NoDup (uuids evs) ->
   NoDup (map id (queue s)) /\
   forall i, getStatus i s <> None <->
             In i (uuids evs) /\ ~ In i (removed_ids (console s))).
Proof.
  intros Hrun.
  destruct (run_ledger evs (new sg) s (new_shape sg) Hrun) as (_ & H1 & H2).
  cbn in H1, H2.
  split; [exact H2|]. split; [exact H1|]. split.
  - rewrite <- H1, length_app, length_map, getStats_total. reflexivity.
  - intros Hnd. rewrite <- H1 in Hnd. split.
    + apply NoDup_app_remove_l in Hnd. exact Hnd.
    + intros i. rewrite <- H1.
      assert (Hq : getStatus i s <> None <-> In i (map id (queue s))).
      { unfold getStatus.
        pose proof (find_id_none i (queue s)) as Hf.
        destruct (find (fun tx => String.eqb (id tx) i) (queue s)) eqn:Hfind.
        - split; [|discriminate]. intros _.
          destruct (in_dec string_dec i (map id (queue s))) as [Hin | Hout]; [exact Hin|].
          apply Hf in Hout. discriminate.
        - split; [congruence|]. intros Hin. exfalso. apply (proj1 Hf); auto. }
      rewrite Hq. split.
      * intros Hin. split; [apply in_or_app; right; exact Hin|].
        intros Hr. apply in_split in Hr. destruct Hr as (r1 & r2 & Hr).
        rewrite Hr, <- app_assoc in Hnd. cbn [app] in Hnd.
        apply NoDup_remove_2 in Hnd. apply Hnd.
        apply in_or_app. right. apply in_or_app. right. exact Hin.
      * intros [Hin Hr]. apply in_app_or in Hin. tauto.
Qed.

End Ledger.

Lemma queue_between_segments_witness :
  run hex_address show run_two (new (Some "signer"%string)) = Some (state_after run_two) /\
  count_in PROCESSING (queue (state_after run_two)) = 1%nat /\
  completed (getStats (state_after run_two)) = 0%nat.
Proof.
  assert (Hrun : run hex_address show run_two (new (Some "signer"%string))
                 = Some (state_after run_two)) by (vm_compute; reflexivity).
  destruct (queue_between_segments hex_address show _ _ _ Hrun)
    as (_ & _ & Hp & _ & _ & _ & _ & Hc).
  split; [exact Hrun|]. split; [exact Hp | exact Hc].
Defined.

Lemma GET_never_finds_completed_witness :
  run hex_address show run_completed (new (Some "signer"%string))
  = Some (state_after run_completed) /\
  polled (state_after run_completed) (Some "a"%string)
         (GET show Undefined (Some "a"%string) (state_after run_completed)).
Proof.
  assert (Hrun : run hex_address show run_completed (new (Some "signer"%string))
                 = Some (state_after run_completed)) by (vm_compute; reflexivity).
  split; [exact Hrun|].
  exact (GET_never_finds_completed hex_address show _ _ _ Undefined (Some "a"%string) Hrun).
Defined.

Lemma ids_ledger_witness :
  run hex_address show run_two (new (Some "signer"%string)) = Some (state_after run_two) /\
  removed_ids (console (state_after run_two)) ++ map id (queue (state_after run_two))
  = ["a"; "b"]%string /\
  NoDup (map id (queue (state_after run_two))).
Proof.
  assert (Hrun : run hex_address show run_two (new (Some "signer"%string))
                 = Some (state_after run_two)) by (vm_compute; reflexivity).
  destruct (ids_ledger hex_address show _ _ _ Hrun) as (_ & Hl & _ & Hd).
  split; [exact Hrun|]. split; [exact Hl|].
  apply Hd. vm_compute. constructor.
  - intros [H | []]. discriminate.
  - constructor; [intros [] | constructor].
Defined.

(** ** The delays of the retries *)

Lemma jittered_range (c : Z) (r : Q) :
  0 <= c -> (0 <= r)%Q -> (r <= 1)%Q ->
  c <= Qfloor (inject_Z c + r * (1 # 10) * inject_Z c)%Q /\
  10 * Qfloor (inject_Z c + r * (1 # 10) * inject_Z c)%Q <= 11 * c.
Proof.
  intros Hc Hr0 Hr1.
  assert (Hcq : (0 <= inject_Z c)%Q).
  { change 0%Q with (inject_Z 0). rewrite <- Zle_Qle. exact Hc. }
  split.
  - rewrite <- (Qfloor_Z c) at 1. apply Qfloor_resp_le.
    setoid_replace (inject_Z c) with (inject_Z c + 0)%Q at 1 by ring.
    apply Qplus_le_r. apply Qmult_le_0_compat; [|exact Hcq].
    apply Qmult_le_0_compat; [exact Hr0 | discriminate].
  - rewrite Zle_Qle, !inject_Z_mult.
    set (x := (inject_Z c + r * (1 # 10) * inject_Z c)%Q).
    assert (Hx : (x <= inject_Z c + (1 # 10) * inject_Z c)%Q).
    { apply Qplus_le_r. apply Qmult_le_compat_r; [|exact Hcq].
      setoid_replace (1 # 10)%Q with (1 * (1 # 10))%Q at 2 by reflexivity.
      apply Qmult_le_compat_r; [exact Hr1 | discriminate]. }
    assert (Hf : (inject_Z (Qfloor x) <= inject_Z c + (1 # 10) * inject_Z c)%Q).
    { eapply Qle_trans; [apply Qfloor_le | exact Hx]. }
    setoid_replace (inject_Z 11 * inject_Z c)%Q
      with (inject_Z 10 * (inject_Z c + (1 # 10) * inject_Z c))%Q by (unfold inject_Z; ring).
    rewrite (Qmult_comm (inject_Z 10)), (Qmult_comm (inject_Z 10)).
    apply Qmult_le_compat_r; [exact Hf | discriminate].
Qed.

Lemma short_delay_of_count (n : nat) (env : Env) :
  (n < maxRetries)%nat -> draw_ok env ->
  short_delay (calculateRetryDelay n (random env)).
Proof.
  intros Hn [Hr0 Hr1]. unfold short_delay, calculateRetryDelay.
  exists (Z.of_nat n). unfold maxRetries in Hn. split; [lia|].
  assert (Hc : Z.min (baseDelay * 2 ^ Z.of_nat n) maxDelay = 1000 * 2 ^ Z.of_nat n).
  { unfold baseDelay, maxDelay.
    destruct n as [|[|[|n]]]; [reflexivity | reflexivity | reflexivity | lia]. }
  cbv zeta. rewrite Hc.
  assert (H0 : 0 <= 1000 * 2 ^ Z.of_nat n) by (apply Z.mul_nonneg_nonneg; [lia | apply Z.pow_nonneg; lia]).
  destruct (jittered_range _ (random env) H0 Hr0 Hr1) as [Hlo Hhi].
  split; [exact Hlo | lia].
Qed.

Lemma scheduled_delays_snoc l e :
  scheduled_delays (l ++ [e])
  = scheduled_delays l ++ match e with LogScheduling d => [d] | _ => [] end.
Proof. unfold scheduled_delays. rewrite flat_map_app. cbn. rewrite app_nil_r. reflexivity. Qed.

Lemma timed_log (e : LogEntry) (s : State) :
  match e with LogScheduling _ => False | _ => True end ->
  Timed s -> Timed (log e s).
Proof.
  intros He (H1 & H2 & H3). unfold Timed. simp_state.
  rewrite scheduled_delays_snoc.
  destruct e; try contradiction; rewrite app_nil_r; auto.
Qed.

Lemma timed_queue (q : list Tx) (s : State) :
  fresh_pending q -> Timed s -> Timed (set_queue q s).
Proof. intros Hq (_ & H2 & H3). unfold Timed. simp_state. auto. Qed.

Lemma retryable_count (q : list Tx) (tx : Tx) :
  fresh_pending q -> find retryable q = Some tx -> (retryCount tx < maxRetries)%nat.
Proof.
  intros Hq Hfind. apply find_some in Hfind. destruct Hfind as [Hin Hr].
  unfold fresh_pending in Hq. rewrite Forall_forall in Hq. specialize (Hq tx Hin).
  unfold retryable in Hr. destruct (status tx); try discriminate.
  - rewrite Hq by reflexivity. unfold maxRetries. lia.
  - apply Nat.ltb_lt in Hr. exact Hr.
Qed.

Lemma process_finally_timed (env : Env) (s : State) :
  draw_ok env -> Timed s -> Timed (process_finally env s).
Proof.
  intros Henv (H1 & H2 & H3). unfold process_finally. simp_state.
  assert (Hs1 : Timed (log LogStopped (set_pc Idle (set_processing false s)))).
  { apply timed_log; [exact I|]. unfold Timed. simp_state. auto. }
  destruct (queue s) as [|hd rest] eqn:Hq; [exact Hs1|].
  destruct (find retryable (hd :: rest)) as [tx|] eqn:Hfind; [|exact Hs1].
  pose proof (short_delay_of_count _ env (retryable_count _ _ H1 Hfind) Henv) as Hd.
  unfold Timed. simp_state. rewrite Hq, !scheduled_delays_snoc, app_nil_r.
  split; [exact H1|]. split; apply Forall_app; auto.
Qed.

Lemma fresh_pending_dispatch (env : Env) (tx : Tx) (rest : list Tx) :
  fresh_pending (tx :: rest) -> fresh_pending (begin_transaction env tx :: rest).
Proof.
  intros H. inversion H; subst. constructor; [|assumption].
  cbn [begin_transaction status]. discriminate.
Qed.

Lemma process_while_timed (env : Env) (q : list Tx) (s : State) :
  draw_ok env -> fresh_pending q -> Timed s -> Timed (process_while env q s).
Proof.
  intros Henv. revert s. induction q as [|tx rest IH]; intros s Hq Hs; cbn [process_while].
  - apply process_finally_timed; [exact Henv|]. apply timed_queue; assumption.
  - assert (Hd : Timed (set_pc AwaitSubmit
                   (set_queue (begin_transaction env tx :: rest)
                      (log (LogProcessingTx (id tx) (type tx)) s)))).
    { assert (H : Timed (set_queue (begin_transaction env tx :: rest)
                           (log (LogProcessingTx (id tx) (type tx)) s))).
      { apply timed_queue; [apply fresh_pending_dispatch; exact Hq|].
        apply timed_log; [exact I | exact Hs]. }
      exact H. }
    destruct (status tx).
    + exact Hd.
    + assert (H : Timed (set_queue (tx :: rest) s)) by (apply timed_queue; assumption).
      exact H.
    + apply IH; [inversion Hq; assumption|].
      apply timed_log; [exact I|]. apply timed_queue; [inversion Hq; assumption | exact Hs].
    + exact Hd.
Qed.

Lemma process_timed (env : Env) (s : State) :
  draw_ok env -> Timed s -> Timed (process env s).
Proof.
  intros Henv Hs. unfold process.
  destruct (processing s); [apply timed_log; [exact I | exact Hs]|].
  destruct (queue s) as [|tx rest] eqn:Hq; [apply timed_log; [exact I | exact Hs]|].
  destruct (signer s); [|apply timed_log; [exact I | exact Hs]].
  assert (Hs1 : Timed (log LogStarting (set_processing true s))).
  { apply timed_log; [exact I|]. exact Hs. }
  simp_state. destruct (currentNonce s).
  - rewrite Hq. apply process_while_timed; [exact Henv | | exact Hs1].
    destruct Hs as (H & _). rewrite Hq in H. exact H.
  - exact Hs1.
Qed.

Lemma resolve_submission_timed (r : string + Val) (s : State) :
  Timed s -> Timed (resolve_submission r s).
Proof.
  intros Hs. unfold resolve_submission.
  destruct (queue s) as [|tx rest] eqn:Hq; [exact Hs|].
  assert (Hq' : fresh_pending (settle r tx :: rest)).
  { destruct Hs as (H & _). rewrite Hq in H. inversion H; subst.
    constructor; [|assumption]. destruct r; cbn [settle status]; discriminate. }
  pose proof (timed_queue _ s Hq' Hs) as H0.
  destruct r as [msg | v]; cbn [settle_log fold_left].
  - apply timed_log; [destruct (_ <? _)%nat; exact I|].
    apply timed_log; [exact I | exact H0].
  - apply timed_log; [exact I | exact H0].
Qed.

Lemma after_transaction_timed (env : Env) (s : State) :
  draw_ok env -> Timed s -> Timed (after_transaction env s).
Proof.
  intros Henv Hs. unfold after_transaction.
  assert (Hq0 : fresh_pending (queue s)) by apply Hs.
  destruct (queue s) as [|tx rest] eqn:Hq.
  - apply process_while_timed; [exact Henv | constructor | exact Hs].
  - destruct (removable tx).
    + apply process_while_timed; [exact Henv | inversion Hq0; assumption|].
      apply timed_log; [exact I|]. apply timed_queue; [inversion Hq0; assumption | exact Hs].
    + destruct (status tx);
        try (apply process_while_timed; [exact Henv | exact Hq0 | exact Hs]).
      apply process_finally_timed; assumption.
Qed.

Lemma nonce_resolved_timed (env : Env) (r : string + Z) (s : State) :
  draw_ok env -> Timed s -> Timed (nonce_resolved env r s).
Proof.
  intros Henv Hs. unfold nonce_resolved. destruct r as [msg | n].
  - apply process_finally_timed; [exact Henv|].
    apply timed_log; [exact I|]. apply timed_log; [exact I | exact Hs].
  - simp_state. apply process_while_timed; [exact Henv | apply Hs|].
    apply timed_log; [exact I|]. exact Hs.
Qed.

Lemma Forall_remove_nth {A : Type} (P : A -> Prop) (k : nat) (l : list A) :
  Forall P l -> Forall P (remove_nth k l).
Proof.
  intros H. revert k. induction H as [|x l Hx Hl IH]; intros k; [destruct k; constructor|].
  destruct k; cbn [remove_nth]; [exact Hl | constructor; auto].
Qed.

Section Timers.

Variable isAddress : Val -> bool.
Variable toString : Val -> string.

Local Abbreviation enqueue := (enqueue isAddress toString).
Local Abbreviation step := (step isAddress toString).
Local Abbreviation run := (run isAddress toString).

Lemma enqueue_timed (env : Env) (t : Val) (uuid : string) (s : State) :
  draw_ok env -> Timed s -> Timed (fst (enqueue env t uuid s)).
Proof.
  intros Henv Hs. unfold TransactionQueue.enqueue.
  destruct (validateTransaction isAddress toString t) as [msg | ty]; cbn [fst].
  - apply timed_log; [exact I | exact Hs].
  - match goal with |- Timed (if _ then ?s2 else _) => assert (Hs2 : Timed s2) end.
    { apply timed_log; [exact I|]. apply timed_log; [exact I|].
      apply timed_queue; [|exact Hs].
      apply Forall_app. split; [apply Hs|]. constructor; [|constructor]. reflexivity. }
    simp_state. destruct (processing s); [exact Hs2|].
    apply process_timed; assumption.
Qed.

Lemma step_timed (env : Env) (e : Event) (s s' : State) :
  draw_ok env -> Timed s -> step env e s = Some s' -> Timed s'.
Proof.
  intros Henv Hs. unfold TransactionQueue.step.
  destruct (negb (in_model s)); [discriminate|].
  destruct e as [t u | | k | r | r | | sg |].
  - intros [= <-]. apply enqueue_timed; assumption.
  - intros [= <-]. apply process_timed; assumption.
  - destruct (nth_error (timers s) k); [|discriminate]. intros [= <-].
    apply process_timed; [exact Henv|].
    destruct Hs as (H1 & H2 & H3). unfold Timed. simp_state.
    auto using Forall_remove_nth.
  - destruct (pc s); try discriminate. intros [= <-].
    apply nonce_resolved_timed; assumption.
  - destruct (pc s); try discriminate. destruct (queue s) eqn:Hq; [discriminate|].
    intros [= <-]. apply after_transaction_timed; [exact Henv|].
    apply resolve_submission_timed. exact Hs.
  - unfold getNextNonce. destruct (currentNonce s); intros [= <-]; [|exact Hs].
    apply timed_log; [exact I|]. exact Hs.
  - intros [= <-]. unfold setProviderAndSigner. apply timed_log; [exact I|]. exact Hs.
  - intros [= <-]. unfold clearCompleted. cbn [snd].
    match goal with |- Timed (if _ then _ else ?s1) => assert (Hs1 : Timed s1) end.
    { apply timed_queue; [|exact Hs]. destruct Hs as (H & _).
      unfold fresh_pending in *. rewrite Forall_forall in *.
      intros tx Hin. apply filter_In in Hin. apply H. tauto. }
    destruct (_ <? _)%nat; [apply timed_log; [exact I | exact Hs1] | exact Hs1].
Qed.

Lemma run_timed (evs : list (Env * Event)) (s s' : State) :
  Forall draw_ok (map fst evs) -> Timed s -> run evs s = Some s' -> Timed s'.
Proof.
  revert s. induction evs as [|[env e] evs IH]; intros s Hd Hs; cbn [TransactionQueue.run].
  - intros [= <-]. exact Hs.
  - destruct (step env e s) as [s1|] eqn:Hstep; [|discriminate].
    inversion Hd; subst. apply IH; [assumption|].
    apply (step_timed env e s s1); assumption.
Qed.

(** X12.  In every run whose draws of [Math.random()] lie in [0, 1],
    each delay the [finally] block of [process] schedules is computed for
    a retry count of 0, 1 or 2: every pending timer and every
    "Scheduling" line carries a delay between 1000 * 2^k and 1100 * 2^k
    for such a k, hence between 1000 and 4400 ms.  The cap of 30000 ms of
    [calculateRetryDelay] is never reached from [process]. *)
Theorem retry_delays_stay_short (sg : option string) (evs : list (Env * Event)) (s : State) :
  Forall draw_ok (map fst evs) ->
  run evs (new sg) = Some s ->
  Forall short_delay (timers s) /\
  Forall short_delay (scheduled_delays (console s)) /\
  (forall d, In d (timers s) \/ In (LogScheduling d) (console s) -> 1000 <= d <= 4400).
Proof.
  intros Hd Hrun.
  assert (H0 : Timed (new sg)) by (repeat split; constructor).
  destruct (run_timed evs (new sg) s Hd H0 Hrun) as (_ & H2 & H3).
  split; [exact H2|]. split; [exact H3|].
  intros d Hin.
  assert (Hs : short_delay d).
  { rewrite Forall_forall in H2, H3. destruct Hin as [Hin | Hin]; [auto|].
    apply H3. unfold scheduled_delays. apply in_flat_map.
    exists (LogScheduling d). split; [exact Hin | left; reflexivity]. }
  destruct Hs as (k & Hk & Hlo & Hhi).
  assert (Hk' : k = 0 \/ k = 1 \/ k = 2) by lia.
  destruct Hk' as [-> | [-> | ->]]; cbn in Hlo, Hhi; lia.
Qed.

End Timers.

Lemma retry_delays_stay_short_witness :
  Forall draw_ok (map fst run_two_failures) /\
  run hex_address show run_two_failures (new (Some "signer"%string))
  = Some (state_after run_two_failures) /\
  Forall short_delay (scheduled_delays (console (state_after run_two_failures))).
Proof.
  assert (Hd : Forall draw_ok (map fst run_two_failures)).
  { repeat constructor; discriminate. }
  assert (Hrun : run hex_address show run_two_failures (new (Some "signer"%string))
                 = Some (state_after run_two_failures)) by (vm_compute; reflexivity).
  split; [exact Hd|]. split; [exact Hrun|].
  exact (proj1 (proj2 (retry_delays_stay_short hex_address show _ _ _ Hd Hrun))).
Defined.

(** ** [clearAll] during a submission *)

Section ClearAll.

Variable isAddress : Val -> bool.
Variable toString : Val -> string.

Local Abbreviation enqueue := (enqueue isAddress toString).
Local Abbreviation validateTransaction := (validateTransaction isAddress toString).

(** X13.  [clearAll] called while a submission is awaited: it returns the
    length of the queue, empties the queue and clears the flag
    [processing] although the activation of [process] is still suspended;
    the transaction in flight is no longer found by [getStatus].  The
    next accepted call of [enqueue], on a queue with a signer, finds the
    flag clear and starts [process] again: the new transaction is
    dispatched at once, before the earlier submission has settled. *)
Theorem clearAll_forgets_activation
        (env : Env) (t : Val) (uuid w : string) (ty : TxType) (s : State) :
  Shape s -> pc s = AwaitSubmit -> signer s = Some w ->
  validateTransaction t = inr ty ->
  let s1 := snd (clearAll s) in
  let s2 := fst (enqueue env t uuid s1) in
  (exists old rest, queue s = old :: rest /\ status old = PROCESSING /\
                    getStatus (id old) s1 = None) /\
  fst (clearAll s) = List.length (queue s) /\
  queue s1 = [] /\ processing s1 = false /\ in_model s1 = false /\
  queue s2 = [begin_transaction env
                (mkTx uuid ty (get t "data") PENDING 0 (now env) None None None)] /\
  processing s2 = true /\
  In (LogProcessingTx uuid ty) (console s2).
Proof.
  intros Hs Hpc Hsg Hv. cbv zeta.
  unfold Shape in Hs. rewrite Hpc in Hs. cbn [shape] in Hs. destruct Hs as (Hflag & Hn & Hq).
  destruct (queue s) as [|old rest] eqn:Hqs; [contradiction|].
  destruct Hq as (Hst & _).
  destruct (currentNonce s) as [n|] eqn:Hcn; [|congruence].
  assert (H1 : snd (clearAll s)
               = log (LogClearedAll (S (List.length rest)))
                     (set_processing false (set_queue [] s))).
  { unfold clearAll. rewrite Hqs. reflexivity. }
  rewrite H1.
  split; [exists old, rest; split; [reflexivity|]; split; [exact Hst | reflexivity]|].
  split; [unfold clearAll; rewrite Hqs; reflexivity|].
  split; [reflexivity|]. split; [reflexivity|].
  split; [unfold in_model; simp_state; rewrite Hpc; reflexivity|].
  unfold TransactionQueue.enqueue. rewrite Hv. cbn [fst]. simp_state.
  unfold process. simp_state. cbn [app]. rewrite Hsg. simp_state. rewrite Hcn.
  cbn [process_while status]. simp_state.
  split; [reflexivity|]. split; [reflexivity|].
  apply in_or_app. right. left. reflexivity.
Qed.

End ClearAll.


Lemma clearAll_forgets_activation_witness :
  in_model (snd (clearAll (state_after run_in_flight))) = false /\
  processing (fst (enqueue hex_address show (at_time 9) valid_nft "b"
                           (snd (clearAll (state_after run_in_flight))))) = true.
Proof.
  assert (Hrun : run hex_address show run_in_flight (new (Some "signer"%string))
                 = Some (state_after run_in_flight)) by (vm_compute; reflexivity).
  assert (Hs : Shape (state_after run_in_flight)).
  { apply (run_unsettled hex_address show run_in_flight (new (Some "signer"%string)) _
             (new_shape _)); [intros tx [] | exact Hrun]. }
  destruct (clearAll_forgets_activation hex_address show (at_time 9) valid_nft
              "b"%string "signer"%string NFT (state_after run_in_flight) Hs
              eq_refl eq_refl eq_refl)
    as (_ & _ & _ & _ & Hm & _ & Hp & _).
  split; [exact Hm | exact Hp].
Defined.

(** ** The POST handler *)

Lemma truthy_not_nullish (v : Val) : truthy v = true -> nullish v = false.
Proof. destruct v; cbn; congruence. Qed.

Lemma number_not_nullish (v : Val) : typeof v = "number"%string -> nullish v = false.
Proof. destruct v; cbn; congruence. Qed.

Lemma append_truthy (a b : string) : b <> ""%string -> truthy (Str (a ++ b)) = true.
Proof.
  intros Hb. cbn [truthy]. destruct (String.eqb_spec (a ++ b) "") as [H | H]; [|reflexivity].
  destruct a; cbn in H; [contradiction | discriminate].
Qed.

Lemma process_ids (env : Env) (s : State) :
  Shape s -> map id (queue (process env s)) = map id (queue s).
Proof.
  unfold Shape, process. intros Hs.
  destruct (processing s) eqn:Hflag; [reflexivity|].
  destruct (queue s) as [|tx rest] eqn:Hq; [simp_state; rewrite Hq; reflexivity|].
  destruct (signer s); [|simp_state; rewrite Hq; reflexivity].
  simp_state. destruct (currentNonce s); [|simp_state; rewrite Hq; reflexivity].
  rewrite Hq. cbn [process_while].
  assert (Hst : status tx = PENDING \/ status tx = FAILED).
  { destruct (pc s); cbn [shape idle_queue] in Hs; try tauto;
      destruct Hs as (Hf & _); congruence. }
  destruct Hst as [-> | ->]; reflexivity.
Qed.

Lemma run_app {isAddress toString} (evs evs' : list (Env * Event)) (s : State) :
  run isAddress toString (evs ++ evs') s
  = match run isAddress toString evs s with
    | Some s1 => run isAddress toString evs' s1
    | None => None
    end.
Proof.
  revert s. induction evs as [|[env e] evs IH]; intros s; cbn [app TransactionQueue.run];
    [reflexivity|].
  destruct (step isAddress toString env e s); [apply IH | reflexivity].
Qed.

Section PostHandler.

Variable isAddress : Val -> bool.
Variable toString : Val -> string.
Variable toUpperCase : string -> string.
Variable toFixed : Number -> nat -> string.
Variable divide : Number -> Number -> Number.
Variable makeWallet : string -> string + string.

Local Abbreviation enqueue := (enqueue isAddress toString).
Local Abbreviation step := (step isAddress toString).
Local Abbreviation run := (run isAddress toString).
Local Abbreviation validateTransaction := (validateTransaction isAddress toString).
Local Abbreviation post_checks := (post_checks isAddress).
Local Abbreviation nftTransaction := (nftTransaction toString toUpperCase toFixed divide).
Local Abbreviation POST := (POST isAddress toString toUpperCase toFixed divide makeWallet).

Lemma post_checks_pass (body : Val) :
  post_checks body = None ->
  truthy (get body "gameType") = true /\ truthy (get body "playerAddress") = true /\
  truthy (get body "betAmount") = true /\ truthy (get body "result") = true /\
  get body "payout" <> Undefined /\
  isAddress (get body "playerAddress") = true /\
  typeof (get body "betAmount") = "number"%string /\
  negative_number (get body "betAmount") = false /\
  typeof (get body "payout") = "number"%string /\
  negative_number (get body "payout") = false.
Proof.
  unfold LogGameRoute.post_checks.
  destruct (truthy (get body "gameType")); [|discriminate].
  destruct (truthy (get body "playerAddress")); [|discriminate].
  destruct (truthy (get body "betAmount")); [|discriminate].
  destruct (truthy (get body "result")); [|discriminate].
  cbn [negb orb].
  destruct (is_undefined (get body "payout")) eqn:Hu; [discriminate|].
  destruct (isAddress (get body "playerAddress")); cbn [negb]; [|discriminate].
  destruct (String.eqb_spec (typeof (get body "betAmount")) "number");
    cbn [negb orb]; [|discriminate].
  destruct (negative_number (get body "betAmount")); [discriminate|].
  destruct (String.eqb_spec (typeof (get body "payout")) "number");
    cbn [negb orb]; [|discriminate].
  destruct (negative_number (get body "payout")); [discriminate|].
  intros _. repeat split; auto. intros Hp. rewrite Hp in Hu. discriminate.
Qed.

Lemma post_log_accepted (body : Val) :
  post_checks body = None -> validateTransaction (logTransaction body) = inr LOG.
Proof.
  intros H. destruct (post_checks_pass body H)
    as (Hg & Ha & Hb & Hr & Hp & Hia & Htb & Hnb & Htp & Hnp).
  assert (Hacc : validateLogTransaction isAddress (gameLogData body) = None).
  { apply (validateLogTransaction_accepts isAddress toString). unfold accepted_log, gameLogData.
    cbn [get lookup String.eqb Ascii.eqb Bool.eqb].
    split; [apply truthy_not_nullish; exact Hg|].
    split; [apply truthy_not_nullish; exact Hr|].
    split; [exact Hia|].
    split; [apply truthy_not_nullish; exact Ha|].
    split; [exact Htb|]. split; [exact Hnb|]. split; [exact Htp | exact Hnp]. }
  unfold TransactionQueue.validateTransaction, logTransaction.
  cbn [get lookup String.eqb Ascii.eqb Bool.eqb truthy negb parse_type].
  change (gameLogData body) with (gameLogData body).
  unfold gameLogData at 1. cbn [truthy negb]. rewrite Hacc. reflexivity.
Qed.

Lemma post_nft_accepted (t : Z) (g : string) (body : Val) :
  post_checks body = None -> validateTransaction (nftTransaction t g body) = inr NFT.
Proof.
  intros H. destruct (post_checks_pass body H)
    as (Hg & Ha & Hb & Hr & Hp & Hia & Htb & Hnb & Htp & Hnp).
  set (d := get (nftTransaction t g body) "data").
  assert (Hacc : validateNFTTransaction isAddress d = None).
  { apply (validateNFTTransaction_accepts isAddress toString). unfold accepted_nft, d, LogGameRoute.nftTransaction.
    cbn [get lookup String.eqb Ascii.eqb Bool.eqb nftMetadata].
    split; [exact Ha|]. split; [exact Hia|]. split; [reflexivity|]. split; [reflexivity|].
    split; [apply append_truthy; discriminate|].
    split; [|reflexivity].
    change (truthy (Str (("Game result NFT for " ++ toUpperCase g) ++ (" game. Bet: "
             ++ toString (get body "betAmount") ++ " QIE, Payout: "
             ++ toString (get body "payout") ++ " QIE, Multiplier: "
             ++ calculateMultiplier toFixed divide (get body "betAmount")
                                    (get body "payout")))%string)
            = true).
    apply append_truthy. discriminate. }
  unfold TransactionQueue.validateTransaction.
  assert (Hty : get (nftTransaction t g body) "type" = Str "NFT") by reflexivity.
  assert (Htr : truthy (nftTransaction t g body) = true) by reflexivity.
  assert (Hd : truthy d = true) by reflexivity.
  fold d. rewrite Htr, Hty, Hd. cbn [truthy negb parse_type String.eqb Ascii.eqb Bool.eqb].
  rewrite Hacc. reflexivity.
Qed.

Lemma enqueue_accepted (env : Env) (t : Val) (uuid : string) (ty : TxType) (s : State) :
  Shape s -> validateTransaction t = inr ty ->
  snd (enqueue env t uuid s) = inr uuid /\
  map id (queue (fst (enqueue env t uuid s))) = map id (queue s) ++ [uuid].
Proof.
  intros Hs Hv. unfold TransactionQueue.enqueue. rewrite Hv. cbn [fst snd].
  split; [reflexivity|]. simp_state.
  set (tx := mkTx uuid ty (get t "data") PENDING 0 (now env) None None None).
  destruct (processing s) eqn:Hflag.
  - simp_state. rewrite map_app. reflexivity.
  - rewrite process_ids; [simp_state; rewrite map_app; reflexivity|].
    unfold Shape in *. simp_state. rewrite Hflag in *.
    destruct (pc s); cbn [shape] in *; try tauto; try (destruct Hs; congruence).
    split; [reflexivity|]. apply idle_queue_push; [tauto | repeat split].
Qed.

Lemma step_enqueue (env : Env) (t : Val) (uuid : string) (s : State) :
  Shape s ->
  step env (CallEnqueue t uuid) s = Some (fst (enqueue env t uuid s)) /\
  Shape (fst (enqueue env t uuid s)).
Proof.
  intros Hs.
  assert (Hstep : step env (CallEnqueue t uuid) s = Some (fst (enqueue env t uuid s))).
  { unfold TransactionQueue.step. rewrite (in_model_shape s Hs). reflexivity. }
  split; [exact Hstep|].
  apply (step_ok isAddress toString env _ s _ Hs Hstep).
Qed.

(** X14.  A request to POST whose body parses, passes the four checks of
    the handler and has a string as [gameType], with a key configured and
    accepted by the wallet constructor: both transactions the handler
    builds pass the validation of the queue, so neither call of [enqueue]
    rejects; the response carries the two ids drawn, NFT first, and a
    queue size of the former size plus two; the two ids are appended to
    the queue in that order; the signer of the queue is the new wallet;
    and the handler extends the run by four events: the signer is set,
    the NFT transaction and the LOG transaction are enqueued, [process]
    is called. *)
Theorem POST_queues_both
        (sg : option string) (evs : list (Env * Event)) (s : State)
        (env : Env) (key : string) (body : Val) (nftUuid logUuid g w : string) :
  run evs (new sg) = Some s ->
  post_checks body = None ->
  get body "gameType" = Str g ->
  key <> ""%string ->
  makeWallet key = inr w ->
  let s' := fst (POST env (Some key) (inr body) nftUuid logUuid s) in
  snd (POST env (Some key) (inr body) nftUuid logUuid s)
  = Queued nftUuid logUuid (List.length (queue s) + 2) /\
  map id (queue s') = map id (queue s) ++ [nftUuid; logUuid] /\
  signer s' = Some w /\
  validateTransaction (nftTransaction (now env) g body) = inr NFT /\
  validateTransaction (logTransaction body) = inr LOG /\
  run (evs ++ post_events env w (nftTransaction (now env) g body) (logTransaction body)
                          nftUuid logUuid) (new sg) = Some s'.
Proof.
  intros Hrun Hchecks Hg Hkey Hw.
  destruct (run_unsettled isAddress toString evs (new sg) s (new_shape sg)) as [Hs _];
    [intros tx [] | exact Hrun |].
  pose proof (post_nft_accepted (now env) g body Hchecks) as Hnft.
  pose proof (post_log_accepted body Hchecks) as Hlog.
  set (s1 := setProviderAndSigner (Some w) s).
  assert (Hstep1 : step env (CallSetProviderAndSigner (Some w)) s = Some s1).
  { unfold TransactionQueue.step. rewrite (in_model_shape s Hs). reflexivity. }
  assert (Hs1 : Shape s1) by apply (step_ok isAddress toString env _ s _ Hs Hstep1).
  set (s2 := fst (enqueue env (nftTransaction (now env) g body) nftUuid s1)).
  destruct (step_enqueue env (nftTransaction (now env) g body) nftUuid s1 Hs1)
    as [Hstep2 Hs2]. fold s2 in Hstep2, Hs2.
  destruct (enqueue_accepted env _ nftUuid NFT s1 Hs1 Hnft) as [Hr2 Hq2]. fold s2 in Hq2.
  set (s3 := fst (enqueue env (logTransaction body) logUuid s2)).
  destruct (step_enqueue env (logTransaction body) logUuid s2 Hs2) as [Hstep3 Hs3].
  fold s3 in Hstep3, Hs3.
  destruct (enqueue_accepted env _ logUuid LOG s2 Hs2 Hlog) as [Hr3 Hq3]. fold s3 in Hq3.
  assert (Hstep4 : step env CallProcess s3 = Some (process env s3)).
  { unfold TransactionQueue.step. rewrite (in_model_shape s3 Hs3). reflexivity. }
  assert (Hq4 : map id (queue (process env s3)) = map id (queue s) ++ [nftUuid; logUuid]).
  { rewrite (process_ids env s3 Hs3), Hq3, Hq2. unfold s1. simp_state.
    rewrite <- app_assoc. reflexivity. }
  assert (Hpost : POST env (Some key) (inr body) nftUuid logUuid s
                  = (process env s3,
                     Queued nftUuid logUuid (List.length (getQueue (process env s3))))).
  { unfold LogGameRoute.POST, POST_body.
    assert (Hb : nullish body = false).
    { destruct (post_checks_pass body Hchecks) as (Ht & _).
      destruct body; try discriminate; reflexivity. }
    rewrite Hb, Hchecks.
    destruct (String.eqb_spec key "") as [Hk | _]; [contradiction|].
    rewrite Hw, Hg. fold s1.
    destruct (enqueue env (nftTransaction (now env) g body) nftUuid s1) as [x2 r2] eqn:He2.
    cbn [fst snd] in *. subst s2 r2.
    destruct (enqueue env (logTransaction body) logUuid x2) as [x3 r3] eqn:He3.
    cbn [fst snd] in *. subst s3 r3. reflexivity. }
  cbv zeta. rewrite Hpost. cbn [fst snd].
  split.
  - f_equal. unfold getQueue. rewrite length_map.
    rewrite <- (length_map id (queue (process env s3))), Hq4, length_app, length_map.
    reflexivity.
  - split; [exact Hq4|]. split.
    + destruct (process_fields env s3) as (-> & _).
      destruct (enqueue_fields isAddress toString env (logTransaction body) logUuid s2)
        as (H3 & _).
      destruct (enqueue_fields isAddress toString env (nftTransaction (now env) g body)
                               nftUuid s1) as (H2 & _).
      fold s3 in H3. fold s2 in H2. rewrite H3, H2. reflexivity.
    + split; [exact Hnft|]. split; [exact Hlog|].
      rewrite run_app, Hrun. unfold post_events. cbn [TransactionQueue.run].
      rewrite Hstep1, Hstep2, Hstep3, Hstep4. reflexivity.
Qed.

End PostHandler.

Lemma POST_queues_both_witness :
  snd (POST hex_address show upper fixed quotient wallet (at_time 1) (Some "key"%string)
            (inr post_body) "n" "l" (new (Some "old"%string)))
  = Queued "n" "l" 2.
Proof.
  refine (proj1 (POST_queues_both hex_address show upper fixed quotient wallet
                   (Some "old"%string) [] (new (Some "old"%string)) (at_time 1)
                   "key"%string post_body "n"%string "l"%string "roulette"%string
                   "key"%string eq_refl eq_refl eq_refl _ eq_refl)).
  discriminate.
Defined.

(** ** What POST does when it does not queue *)

Lemma enqueue_resolves (isAddress : Val -> bool) (toString : Val -> string)
      (env : Env) (t : Val) (uuid : string) (ty : TxType) (s : State) :
  validateTransaction isAddress toString t = inr ty ->
  snd (enqueue isAddress toString env t uuid s) = inr uuid.
Proof. intros Hv. unfold enqueue. rewrite Hv. reflexivity. Qed.

Section PostFailures.

Variable isAddress : Val -> bool.
Variable toString : Val -> string.
Variable toUpperCase : string -> string.
Variable toFixed : Number -> nat -> string.
Variable divide : Number -> Number -> Number.
Variable makeWallet : string -> string + string.

Local Abbreviation post_checks := (post_checks isAddress).
Local Abbreviation POST := (POST isAddress toString toUpperCase toFixed divide makeWallet).
Local Abbreviation calculateMultiplier := (calculateMultiplier toFixed divide).

(** X15.  The responses of POST.  It queues only for a body that parses
    and passes its checks, and then returns the two ids drawn.  A 400 and
    the 500 of a missing or empty key leave the queue instance as it was.
    A 500 with a message comes from the parser of the body or from the
    wallet constructor, and leaves the instance as it was: the two calls
    of [enqueue] never reject.  The 500 of a TypeError comes from a body
    that is null, or from a [gameType] that is truthy and not a string;
    in the second case nothing was enqueued, but the signer of the queue
    has already been replaced. *)
Theorem POST_failures_leave_queue
        (env : Env) (serverPrivateKey : option string) (parsed : string + Val)
        (nftUuid logUuid : string) (s : State) :
  let s' := fst (POST env serverPrivateKey parsed nftUuid logUuid s) in
  match snd (POST env serverPrivateKey parsed nftUuid logUuid s) with
  | Queued nft log _ =>
    nft = nftUuid /\ log = logUuid /\
    exists body, parsed = inr body /\ post_checks body = None
  | BadRequest _ => s' = s /\ exists body, parsed = inr body /\ nullish body = false
  | KeyNotConfigured =>
    s' = s /\ (exists body, parsed = inr body /\ post_checks body = None) /\
    (serverPrivateKey = None \/ serverPrivateKey = Some ""%string)
  | PostFailed (Thrown msg) =>
    s' = s /\
    (parsed = inl msg \/
     exists body key,
       parsed = inr body /\ post_checks body = None /\
       serverPrivateKey = Some key /\ makeWallet key = inl msg)
  | PostFailed TypeError =>
    exists body,
      parsed = inr body /\
      (s' = s /\ nullish body = true \/
       exists key wallet,
         serverPrivateKey = Some key /\ makeWallet key = inr wallet /\
         s' = setProviderAndSigner (Some wallet) s /\
         truthy (get body "gameType") = true /\
         typeof (get body "gameType") <> "string"%string)
  | _ => False
  end.
Proof.
  cbv zeta. unfold LogGameRoute.POST.
  destruct parsed as [msg | body]; [cbn [fst snd]; auto|].
  unfold POST_body.
  destruct (nullish body) eqn:Hb; [cbn [fst snd]; eauto|].
  destruct (post_checks body) as [response|] eqn:Hchecks.
  { cbn [fst snd]. unfold LogGameRoute.post_checks in Hchecks.
    repeat match type of Hchecks with
           | (if ?c then _ else _) = _ => destruct c
           end; inversion Hchecks; subst; eauto. }
  destruct serverPrivateKey as [key|]; [|cbn; eauto 6].
  destruct (String.eqb_spec key "") as [-> | Hkey]; [cbn; eauto 6|].
  destruct (makeWallet key) as [msg | wallet] eqn:Hw; [cbn; eauto 8|].
  destruct (post_checks_pass isAddress body Hchecks) as (Hg & _).
  destruct (get body "gameType") as [| | b | n | g | items | fields] eqn:Hgt;
    try (cbn [fst snd]; exists body; split; [reflexivity|]; right; exists key, wallet;
         rewrite Hgt; cbn [typeof]; repeat split; auto; discriminate).
  pose proof (post_nft_accepted isAddress toString toUpperCase toFixed divide
                                (now env) g body Hchecks) as Hnft.
  pose proof (post_log_accepted isAddress toString body Hchecks) as Hlog.
  set (s1 := setProviderAndSigner (Some wallet) s).
  destruct (TransactionQueue.enqueue isAddress toString env
              (nftTransaction toString toUpperCase toFixed divide (now env) g body)
              nftUuid s1)
    as [s2 r2] eqn:He2.
  assert (Hr2 : r2 = inr nftUuid).
  { pose proof (enqueue_resolves isAddress toString env _ nftUuid NFT s1 Hnft) as H.
    rewrite He2 in H. exact H. }
  subst r2.
  destruct (TransactionQueue.enqueue isAddress toString env (logTransaction body) logUuid s2)
    as [s3 r3] eqn:He3.
  assert (Hr3 : r3 = inr logUuid).
  { pose proof (enqueue_resolves isAddress toString env _ logUuid LOG s2 Hlog) as H.
    rewrite He3 in H. exact H. }
  subst r3. cbn [fst snd]. eauto.
Qed.

(** X16.  For a body that passes the checks of POST the bet amount is
    not 0 and is positive, so the divisor of [calculateMultiplier] is
    never zero and its test of the bet amount never holds: the multiplier
    is [0x] exactly when the test of the payout holds, and then the
    outcome is LOSS; otherwise it is the quotient of payout and bet
    amount, as the division of the code computes it, with two digits and
    an [x], and the outcome is WIN unless the payout is NaN. *)
Theorem multiplier_of_checked_body (body : Val) :
  post_checks body = None ->
  let betAmount := get body "betAmount" in
  let payout := get body "payout" in
  is_zero betAmount = false /\ positive_number betAmount = true /\
  (is_zero payout = true ->
   calculateMultiplier betAmount payout = "0x"%string /\ positive_number payout = false) /\
  (is_zero payout = false ->
   calculateMultiplier betAmount payout
   = (toFixed (divide (as_number payout) (as_number betAmount)) 2 ++ "x")%string /\
   (payout <> Num NaN -> positive_number payout = true)).
Proof.
  intros Hchecks. cbv zeta.
  destruct (post_checks_pass isAddress body Hchecks)
    as (_ & _ & Hb & _ & _ & _ & Htb & Hnb & Htp & Hnp).
  assert (Hsign : forall v, typeof v = "number"%string -> negative_number v = false ->
                            is_zero v = false -> v <> Num NaN -> positive_number v = true).
  { intros v Ht Hn Hz Hnan.
    destruct v as [| | | [|[]|q] | | |]; try discriminate; try reflexivity; [congruence|].
    cbn in Hn, Hz |- *.
    destruct (Qle_bool q 0) eqn:Hle; [|reflexivity]. exfalso.
    apply Qle_bool_iff in Hle.
    destruct (Qle_bool 0 q) eqn:Hge; [|discriminate]. apply Qle_bool_iff in Hge.
    assert (Heq : (q == 0)%Q) by (apply Qle_antisym; assumption).
    apply Qeq_bool_iff in Heq. congruence. }
  assert (Hz : is_zero (get body "betAmount") = false).
  { destruct (get body "betAmount") as [| | | [| |q] | | |]; try reflexivity.
    cbn in Hb |- *. destruct (Qeq_bool q 0); [discriminate | reflexivity]. }
  assert (Hpos : positive_number (get body "betAmount") = true).
  { apply Hsign; auto. intros Hnan. rewrite Hnan in Hb. discriminate. }
  split; [exact Hz|]. split; [exact Hpos|].
  unfold LogGameRoute.calculateMultiplier. rewrite Hz. cbn [orb].
  split.
  - intros Hp. rewrite Hp. split; [reflexivity|].
    destruct (get body "payout") as [| | | [| |q] | | |]; try discriminate.
    cbn in Hp |- *. apply Qeq_bool_iff in Hp.
    destruct (Qle_bool q 0) eqn:Hle; [reflexivity|].
    assert (H : Qle_bool q 0 = true) by (apply Qle_bool_iff; rewrite Hp; apply Qle_refl).
    congruence.
  - intros Hp. rewrite Hp. split; [reflexivity|]. apply Hsign; auto.
Qed.

End PostFailures.

Lemma POST_failures_leave_queue_witness :
  fst (POST hex_address show upper fixed quotient wallet (at_time 1)
            (Some "key"%string) (inl "Unexpected end of JSON input"%string)
            "n" "l" (new None)) = new None.
Proof.
  exact (proj1 (POST_failures_leave_queue hex_address show upper fixed quotient wallet
                  (at_time 1) (Some "key"%string)
                  (inl "Unexpected end of JSON input"%string) "n"%string "l"%string
                  (new None))).
Defined.

Lemma multiplier_of_checked_body_witness :
  is_zero (get post_body "betAmount") = false /\
  positive_number (get post_body "betAmount") = true.
Proof.
  destruct (multiplier_of_checked_body hex_address fixed quotient post_body eq_refl)
    as (Hz & Hp & _).
  split; [exact Hz | exact Hp].
Defined.

(** ** Retries outside the count *)

Lemma nth_error_length {A : Type} (l : list A) (x : A) :
  nth_error (l ++ [x]) (List.length l) = Some x.
Proof. rewrite nth_error_app2 by lia. rewrite Nat.sub_diag. reflexivity. Qed.

Lemma remove_nth_length {A : Type} (l : list A) (x : A) :
  remove_nth (List.length l) (l ++ [x]) = l.
Proof. induction l as [|y l IH]; cbn [List.length app remove_nth]; congruence. Qed.

Lemma idle_head_retryable (tx : Tx) (rest : list Tx) :
  idle_queue (tx :: rest) -> find retryable (tx :: rest) = Some tx.
Proof.
  intros (Hst & Hr & _). cbn [find]. unfold retryable.
  destruct Hst as [-> | ->]; [reflexivity|].
  apply Nat.ltb_lt in Hr. rewrite Hr. reflexivity.
Qed.

Section Backoff.

Variable isAddress : Val -> bool.
Variable toString : Val -> string.

Local Abbreviation enqueue := (enqueue isAddress toString).
Local Abbreviation step := (step isAddress toString).
Local Abbreviation validateTransaction := (validateTransaction isAddress toString).

(** X17.  A read of the chain nonce that fails while [process] awaits it
    costs no retry: the queue is left as it is, retry counts included;
    the flag is cleared and the counter stays unset; the [finally] block
    sets one timer, with the delay of the retry count of the head; and
    when that timer fires, with the signer still in place, [process]
    awaits the read again, in a state with the same queue and the same
    other timers.  So the read is retried for as long as it fails. *)
Theorem nonce_failure_costs_no_retry
        (env env' : Env) (msg sgn : string) (s : State) (tx : Tx) (rest : list Tx) :
  Shape s -> signer s = Some sgn -> pc s = AwaitNonce -> queue s = tx :: rest ->
  exists s1 s2,
    step env (NonceResolved (inl msg)) s = Some s1 /\
    queue s1 = queue s /\ processing s1 = false /\ pc s1 = Idle /\
    currentNonce s1 = None /\
    timers s1 = timers s ++ [calculateRetryDelay (retryCount tx) (random env)] /\
    step env' (TimerFired (List.length (timers s))) s1 = Some s2 /\
    Shape s2 /\ signer s2 = Some sgn /\ pc s2 = AwaitNonce /\
    queue s2 = queue s /\ timers s2 = timers s.
Proof.
  intros Hs Hsg Hpc Hq.
  pose proof (in_model_shape s Hs) as Hin.
  unfold Shape in Hs. rewrite Hpc, Hq in Hs. cbn [shape] in Hs.
  destruct Hs as (Hflag & Hn & Hidle).
  pose proof (idle_head_retryable tx rest Hidle) as Hfind.
  unfold TransactionQueue.step. rewrite Hin, Hpc. cbn [negb].
  unfold nonce_resolved, process_finally. simp_state. rewrite Hq, Hfind.
  eexists. eexists. split; [reflexivity|]. simp_state.
  split; [exact Hq|]. split; [reflexivity|]. split; [reflexivity|]. split; [exact Hn|].
  split; [reflexivity|].
  unfold in_model. simp_state. cbn [negb].
  rewrite nth_error_length, remove_nth_length.
  unfold process. simp_state. rewrite Hq, Hsg, Hn.
  split; [reflexivity|]. simp_state.
  split; [unfold Shape; simp_state; rewrite Hq; cbn [shape]; auto|].
  auto.
Qed.

(** X18.  The delay of a retry is not waited for when [enqueue] is called
    in the meantime: on a queue whose head is FAILED with a retry left
    and whose loop has stopped, with a signer and a nonce counter, an
    accepted call of [enqueue] starts [process] at once; the head is
    dispatched again in the same segment, the new transaction is queued
    behind it, and the timers already set stay pending.  When one of them
    fires during the submission, [process] finds the flag set and changes
    neither the queue nor the program point. *)
Theorem enqueue_cuts_backoff
        (env : Env) (t : Val) (uuid sgn : string) (ty : TxType)
        (s : State) (tx : Tx) (rest : list Tx) :
  Shape s -> pc s = Idle -> signer s = Some sgn -> currentNonce s <> None ->
  queue s = tx :: rest -> status tx = FAILED ->
  validateTransaction t = inr ty ->
  let s' := fst (enqueue env t uuid s) in
  queue s' = begin_transaction env tx
             :: rest ++ [mkTx uuid ty (get t "data") PENDING 0 (now env) None None None] /\
  pc s' = AwaitSubmit /\ processing s' = true /\ timers s' = timers s /\
  forall env' k d,
    nth_error (timers s) k = Some d ->
    exists s'',
      step env' (TimerFired k) s' = Some s'' /\
      queue s'' = queue s' /\ pc s'' = AwaitSubmit /\
      timers s'' = remove_nth k (timers s).
Proof.
  intros Hs Hpc Hsg Hn Hq Hst Hv. cbv zeta.
  unfold Shape in Hs. rewrite Hpc in Hs. cbn [shape] in Hs. destruct Hs as (Hflag & _).
  destruct (currentNonce s) as [n|] eqn:Hcn; [clear Hn | congruence].
  unfold TransactionQueue.enqueue. rewrite Hv. cbn [fst]. simp_state. rewrite Hflag.
  unfold process. simp_state. rewrite Hflag, Hq. cbn [app]. rewrite Hsg. simp_state.
  rewrite Hcn. cbn [process_while]. rewrite Hst. simp_state.
  split; [reflexivity|]. split; [reflexivity|]. split; [reflexivity|]. split; [reflexivity|].
  intros env' k d Hk.
  unfold TransactionQueue.step, in_model. simp_state. cbn [negb]. rewrite Hk.
  eexists. split; [reflexivity|].
  unfold process. simp_state. auto.
Qed.

End Backoff.

Lemma nonce_failure_costs_no_retry_witness :
  exists s1,
    step hex_address show (at_time 3) (NonceResolved (inl "down"%string))
         (state_after [enqueue_a]) = Some s1 /\
    queue s1 = queue (state_after [enqueue_a]) /\
    timers s1 = [1050].
Proof.
  assert (Hrun : run hex_address show [enqueue_a] (new (Some "signer"%string))
                 = Some (state_after [enqueue_a])) by (vm_compute; reflexivity).
  assert (Hs : Shape (state_after [enqueue_a])).
  { apply (run_unsettled hex_address show [enqueue_a] (new (Some "signer"%string)) _
             (new_shape _)); [intros tx [] | exact Hrun]. }
  destruct (nonce_failure_costs_no_retry hex_address show (at_time 3) (at_time 4)
              "down"%string "signer"%string (state_after [enqueue_a])
              (mkTx "a" LOG (get valid_log "data") PENDING 0 1 None None None) []
              Hs eq_refl eq_refl eq_refl)
    as (s1 & s2 & H1 & H2 & _ & _ & _ & H3 & _).
  exists s1. split; [exact H1|]. split; [exact H2 | exact H3].
Defined.

Lemma enqueue_cuts_backoff_witness :
  pc (fst (enqueue hex_address show (at_time 5) valid_nft "b"
                   (state_after [enqueue_a; nonce_is_7; fail 4]))) = AwaitSubmit /\
  timers (fst (enqueue hex_address show (at_time 5) valid_nft "b"
                       (state_after [enqueue_a; nonce_is_7; fail 4]))) = [2100].
Proof.
  assert (Hrun : run hex_address show [enqueue_a; nonce_is_7; fail 4]
                     (new (Some "signer"%string))
                 = Some (state_after [enqueue_a; nonce_is_7; fail 4]))
    by (vm_compute; reflexivity).
  assert (Hs : Shape (state_after [enqueue_a; nonce_is_7; fail 4])).
  { apply (run_unsettled hex_address show [enqueue_a; nonce_is_7; fail 4]
             (new (Some "signer"%string)) _ (new_shape _)); [intros tx [] | exact Hrun]. }
  assert (Hn : currentNonce (state_after [enqueue_a; nonce_is_7; fail 4]) <> None)
    by discriminate.
  destruct (enqueue_cuts_backoff hex_address show (at_time 5) valid_nft "b"%string
              "signer"%string NFT (state_after [enqueue_a; nonce_is_7; fail 4])
              (mkTx "a" LOG (get valid_log "data") FAILED 1 1 (Some 3)
                    (Some "boom"%string) None) []
              Hs eq_refl eq_refl Hn eq_refl eq_refl eq_refl)
    as (_ & Hpc & _ & Ht & _).
  split; [exact Hpc | exact Ht].
Defined.

End Extras.
